(** * Price-Weight-Comparison-Injector: a shallow embedding of [content.js]

    The content script scans a DOM tree for price texts, pairs each price
    with a weight found in a nearby ancestor, computes a price per kg or L
    and appends it after the price element.  This file embeds

    - the JavaScript values the script computes with: strings as lists of
      UTF-16 code units, numbers as IEEE 754 binary64 values
      ([SpecFloat.spec_float] at precision 53), the two regular expressions
      with the backtracking semantics of [String.prototype.match];
    - the DOM as a tree of nodes whose elements carry an identity;
    - [cleanNumber], [calculateAndFormatUnit], [findAndProcessPrices],
      [processProductBlock], [startProcessing] and the [MutationObserver]
      callback, with the tree and a trace of effects passed explicitly. *)

From Stdlib Require Import ZArith NArith List String Ascii Bool Lia.
From Stdlib Require Import Floats.SpecFloat.
From Stdlib Require Import Decimal DecimalN.
Import ListNotations.

Local Open Scope N_scope.
Local Open Scope list_scope.

(* ===================================================================== *)
(** * JavaScript strings *)
(* ===================================================================== *)

(** A string is its sequence of UTF-16 code units. *)
Definition jsstring := list N.

(** String literals of this file are ASCII: one code unit per character. *)
Fixpoint js (s : string) : jsstring :=
  match s with
  | EmptyString => []
  | String c s' => N_of_ascii c :: js s'
  end.

Fixpoint jsstring_eqb (a b : jsstring) : bool :=
  match a, b with
  | [], [] => true
  | x :: a', y :: b' => (x =? y) && jsstring_eqb a' b'
  | _, _ => false
  end.

(** [\d] *)
Definition isDigit (c : N) : bool := (48 <=? c) && (c <=? 57).

(** [\s]: WhiteSpace and LineTerminator of ECMAScript. *)
Definition isWhiteSpace (c : N) : bool :=
  (c =? 9) || (c =? 10) || (c =? 11) || (c =? 12) || (c =? 13) || (c =? 32)
  || (c =? 160) || (c =? 5760) || ((8192 <=? c) && (c <=? 8202))
  || (c =? 8232) || (c =? 8233) || (c =? 8239) || (c =? 8287)
  || (c =? 12288) || (c =? 65279).

(** [[.,]] *)
Definition isDotOrComma (c : N) : bool := (c =? 46) || (c =? 44).

(** Canonicalize of a case-insensitive, non-unicode regular expression:
    the upper case of the code unit.  The table covers ASCII and Latin-1;
    no code unit outside it has an upper case that is a character of the
    two patterns below (a code unit over 127 whose upper case is ASCII is
    left as it is by the standard). *)
Definition canonicalize (c : N) : N :=
  if (97 <=? c) && (c <=? 122) then c - 32
  else if (224 <=? c) && (c <=? 254) && negb (c =? 247) then c - 32
  else if c =? 255 then 376
  else if c =? 181 then 924
  else c.

(** [String.prototype.toLowerCase] on the code units whose lower case is
    ASCII: the Latin capitals and the Kelvin sign.  The script compares the
    result with ["g"], ["ml"] and ["kg"] only. *)
Definition toLowerCase_unit (c : N) : N :=
  if (65 <=? c) && (c <=? 90) then c + 32
  else if c =? 8490 then 107
  else c.

Definition toLowerCase (s : jsstring) : jsstring := map toLowerCase_unit s.

(** [s.replace(pat, rep)] with a one-character string pattern: the first
    occurrence only. *)
Fixpoint replace_first (pat rep : N) (s : jsstring) : jsstring :=
  match s with
  | [] => []
  | c :: s' => if c =? pat then rep :: s' else c :: replace_first pat rep s'
  end.

(* ===================================================================== *)
(** * Regular expressions *)
(* ===================================================================== *)

Module Regex.

(** The fragment the two patterns are written in. *)
Inductive regex : Type :=
| Eps
| Lit (c : N)                (* a pattern character, under the [i] flag *)
| Class (p : N -> bool)      (* a character class *)
| Star (p : N -> bool)       (* greedy [cls*] *)
| Seq (r1 r2 : regex)
| Alt (r1 r2 : regex)        (* [r1|r2], left first *)
| Group (i : nat) (r : regex).

Definition Plus (p : N -> bool) : regex := Seq (Class p) (Star p).

Fixpoint lits (s : jsstring) : regex :=
  match s with
  | [] => Eps
  | c :: s' => Seq (Lit c) (lits s')
  end.

Definition captures := list (nat * jsstring).

Fixpoint capture (i : nat) (c : captures) : option jsstring :=
  match c with
  | [] => None
  | (j, s) :: c' => if Nat.eqb i j then Some s else capture i c'
  end.

Section Matcher.
Context {R : Type}.

(** Greedy iteration: as many characters as possible first, then one
    fewer, down to none. *)
Fixpoint star_match (p : N -> bool) (s : jsstring)
         (k : jsstring -> option R) : option R :=
  match s with
  | [] => k []
  | c :: s' =>
      if p c then
        match star_match p s' k with
        | Some r => Some r
        | None => k s
        end
      else k s
  end.

(** The backtracking matcher, in continuation-passing style: [k] is the
    rest of the pattern, called on the rest of the input. *)
Fixpoint run (r : regex) (s : jsstring) (caps : captures)
         (k : jsstring -> captures -> option R) : option R :=
  match r with
  | Eps => k s caps
  | Lit c =>
      match s with
      | x :: s' => if canonicalize x =? canonicalize c then k s' caps else None
      | [] => None
      end
  | Class p =>
      match s with
      | x :: s' => if p x then k s' caps else None
      | [] => None
      end
  | Star p => star_match p s (fun s' => k s' caps)
  | Seq r1 r2 => run r1 s caps (fun s1 c1 => run r2 s1 c1 k)
  | Alt r1 r2 =>
      match run r1 s caps k with
      | Some x => Some x
      | None => run r2 s caps k
      end
  | Group i r1 =>
      run r1 s caps
          (fun s1 c1 => k s1 ((i, firstn (List.length s - List.length s1) s) :: c1))
  end.
End Matcher.

(** A match anchored at the start of [s]. *)
Definition match_here (r : regex) (s : jsstring) : option captures :=
  run r s [] (fun _ c => Some c).

(** The leftmost match: start positions are tried from left to right. *)
Fixpoint search (r : regex) (s : jsstring) : option captures :=
  match match_here r s with
  | Some c => Some c
  | None =>
      match s with
      | [] => None
      | _ :: s' => search r s'
      end
  end.

End Regex.
Import Regex.

(** The result of [text.match(re)] for a pattern with two groups, reduced
    to what the script reads: [m[1]] and [m[2]].  In the two patterns below
    both groups take part in every match. *)
Definition group (i : nat) (c : captures) : jsstring :=
  match capture i c with
  | Some g => g
  | None => []
  end.

Definition match_ (re : regex) (text : jsstring) : option (jsstring * jsstring) :=
  match search re text with
  | Some c => Some (group 1 c, group 2 c)
  | None => None
  end.

(** A value that is not [null]. *)
Definition isTruthy {A : Type} (o : option A) : bool :=
  match o with
  | Some _ => true
  | None => false
  end.

Definition numericLiteral : regex :=
  Alt (Seq (Plus isDigit) (Seq (Class isDotOrComma) (Plus isDigit)))
      (Plus isDigit).

(** Both patterns: a numeric literal in group 1, white space, a token in
    group 2. *)
Definition afterNumber (token : regex) : regex :=
  Seq (Star isWhiteSpace) (Group 2 token).

Definition numberThenToken (token : regex) : regex :=
  Seq (Group 1 numericLiteral) (afterNumber token).

(** [kr|sek|eur|euro|\$|..|usd|gbp]; the sixth token is the two code units
    U+00C2 U+00A3 of the source text. *)
Definition currencyTokens : regex :=
  Alt (lits (js "kr"))
 (Alt (lits (js "sek"))
 (Alt (lits (js "eur"))
 (Alt (lits (js "euro"))
 (Alt (lits (js "$"))
 (Alt (lits [194; 163])
 (Alt (lits (js "usd"))
      (lits (js "gbp")))))))).

(** [g|kg|l|ml] *)
Definition weightUnits : regex :=
  Alt (lits (js "g"))
 (Alt (lits (js "kg"))
 (Alt (lits (js "l"))
      (lits (js "ml")))).

(** [/(\d+[.,]\d+|\d+)\s*(kr|sek|eur|euro|\$|..|usd|gbp)/i] *)
Definition PRICE_REGEX : regex := numberThenToken currencyTokens.

(** [/(\d+[.,]\d+|\d+)\s*(g|kg|l|ml)/i] *)
Definition WEIGHT_REGEX : regex := numberThenToken weightUnits.

Definition PROCESSED_ATTR : string := "data-unit-price-processed".

(* ===================================================================== *)
(** * JavaScript numbers *)
(* ===================================================================== *)

Module Number.

Local Open Scope Z_scope.

(** A Number is an IEEE 754 binary64 value: precision 53, [emax] 1024,
    rounding to nearest, ties to even. *)
Definition number := spec_float.

Definition prec : Z := 53.
Definition emax : Z := 1024.

Definition zero : number := S754_zero false.
Definition NaN : number := S754_nan.
Definition Infinity : number := S754_infinity false.

Definition div (x y : number) : number := SFdiv prec emax x y.
Definition mul (x y : number) : number := SFmul prec emax x y.

(** [x > y] *)
Definition gt (x y : number) : bool := SFltb y x.

(** [Number.isNaN] *)
Definition isNaN (x : number) : bool :=
  match x with
  | S754_nan => true
  | _ => false
  end.

(** The Number value of an integer. *)
Definition of_Z (z : Z) : number := binary_normalize prec emax z 0 false.

(** The Number value of [m * 10^e], rounded once.  For a negative [e] the
    quotient is computed with enough extra bits and the position of the
    remainder decides the rounding, as [SFdiv] does. *)
Definition of_decimal (neg : bool) (m : N) (e : Z) : number :=
  match m with
  | N0 => S754_zero neg
  | Npos p =>
      if 0 <=? e then binary_round prec emax neg (p * Z.to_pos (10 ^ e)) 0
      else
        let d := 10 ^ (- e) in
        let s := Z.max 0 (prec + 2 + Zdigits2 d - Zdigits2 (Zpos p)) in
        let '(q, r) := Z.div_eucl (Z.shiftl (Zpos p) s) d in
        binary_round_aux prec emax neg q (- s) (new_location d r)
  end.

(** ** [parseFloat] *)

Fixpoint span (p : N -> bool) (s : jsstring) : jsstring * jsstring :=
  match s with
  | [] => ([], [])
  | c :: s' =>
      if p c then let '(a, b) := span p s' in (c :: a, b) else ([], s)
  end.

Fixpoint skipWhiteSpace (s : jsstring) : jsstring :=
  match s with
  | c :: s' => if isWhiteSpace c then skipWhiteSpace s' else s
  | [] => []
  end.

Fixpoint digitsValue (acc : N) (s : jsstring) : N :=
  match s with
  | [] => acc
  | c :: s' => digitsValue (acc * 10 + (c - 48))%N s'
  end.

Fixpoint startsWith (p s : jsstring) : bool :=
  match p, s with
  | [], _ => true
  | x :: p', y :: s' => (x =? y)%N && startsWith p' s'
  | _ :: _, [] => false
  end.

(** The sign prefix of a literal: is it negative, and the rest. *)
Definition readSign (s : jsstring) : bool * jsstring :=
  match s with
  | 43%N :: s' => (false, s')
  | 45%N :: s' => (true, s')
  | _ => (false, s)
  end.

(** ExponentPart: [e] or [E], a sign, one digit at least; otherwise the
    literal ends before it. *)
Definition readExponent (s : jsstring) : Z :=
  match s with
  | c :: s' =>
      if ((c =? 101) || (c =? 69))%N then
        let '(neg, s'') := readSign s' in
        match fst (span isDigit s'') with
        | [] => 0
        | ds => let v := Z.of_N (digitsValue 0 ds) in if neg then - v else v
        end
      else 0
  | [] => 0
  end.

(** [parseFloat]: leading white space is dropped, the longest prefix that
    is a decimal literal is read, [NaN] when there is none. *)
Definition parseFloat (s : jsstring) : number :=
  let t := skipWhiteSpace s in
  let '(neg, t1) := readSign t in
  if startsWith (js "Infinity") t1 then S754_infinity neg
  else
    let '(ip, r1) := span isDigit t1 in
    let '(fp, r2) :=
      match r1 with
      | 46%N :: r => span isDigit r
      | _ => ([], r1)
      end in
    match ip ++ fp with
    | [] => NaN
    | ds => of_decimal neg (digitsValue 0 ds)
                       (readExponent r2 - Z.of_nat (List.length fp))
    end.

(** ** [Number.prototype.toFixed] *)

Fixpoint digits_of_uint (u : Decimal.uint) : jsstring :=
  match u with
  | Nil => []
  | D0 u' => 48%N :: digits_of_uint u'
  | D1 u' => 49%N :: digits_of_uint u'
  | D2 u' => 50%N :: digits_of_uint u'
  | D3 u' => 51%N :: digits_of_uint u'
  | D4 u' => 52%N :: digits_of_uint u'
  | D5 u' => 53%N :: digits_of_uint u'
  | D6 u' => 54%N :: digits_of_uint u'
  | D7 u' => 55%N :: digits_of_uint u'
  | D8 u' => 56%N :: digits_of_uint u'
  | D9 u' => 57%N :: digits_of_uint u'
  end.

(** The decimal digits of a natural number, ["0"] for zero. *)
Definition decimal (n : N) : jsstring := digits_of_uint (N.to_uint n).

(** The integer nearest to [m * 2^e * 10^f], the larger one on a tie. *)
Definition scaled_round (m : positive) (e : Z) (f : nat) : Z :=
  let m10 := Zpos m * 10 ^ Z.of_nat f in
  if 0 <=? e then m10 * 2 ^ e
  else (2 * m10 + 2 ^ (- e)) / 2 ^ (- e + 1).

(** Is [m * 2^e >= 10^21] ? *)
Definition atLeast1e21 (m : positive) (e : Z) : bool :=
  if 0 <=? e then 10 ^ 21 <=? Zpos m * 2 ^ e
  else 10 ^ 21 * 2 ^ (- e) <=? Zpos m.

(** Number::toString for a finite value of at least [10^21], written
    [X] as an integer.  The standard asks for the least number [k] of
    digits such that some [s] of [k] digits and some [n] have [s * 10^(n-k)]
    round to the value; among several [s], the closest to the value, and
    the even one on a tie. *)
Definition shortestCandidates (x : number) (X : Z) (k : Z) : list (Z * Z) :=
  let nd := Z.of_nat (List.length (decimal (Z.to_N X))) in
  flat_map
    (fun n =>
       let p := 10 ^ (n - k) in
       filter (fun sn : Z * Z =>
                 let s := fst sn in
                 (10 ^ (k - 1) <=? s) && (s <? 10 ^ k)
                 && SFeqb (of_Z (s * p)) x)
              [(X / p, n); (X / p + 1, n)])
    [nd; nd + 1].

Definition closer (X k : Z) (a b : Z * Z) : Z * Z :=
  let da := Z.abs (fst a * 10 ^ (snd a - k) - X) in
  let db := Z.abs (fst b * 10 ^ (snd b - k) - X) in
  if db <? da then b
  else if (db =? da) && Z.even (fst b) && negb (Z.even (fst a)) then b
  else a.

Fixpoint shortest (x : number) (X : Z) (k : Z) (fuel : nat) : Z * Z :=
  match fuel with
  | O => (X, Z.of_nat (List.length (decimal (Z.to_N X))))
  | S fuel' =>
      match shortestCandidates x X k with
      | [] => shortest x X (k + 1) fuel'
      | c :: cs => fold_left (closer X k) cs c
      end
  end.

(** The digits [s] and the exponent [n] are written [d.ddde+N]; a value of
    at least [10^21] has [n > 21], the only format needed here. *)
Definition toString_large (m : positive) (e : Z) : jsstring :=
  let x := S754_finite false m e in
  let X := Z.shiftl (Zpos m) e in
  let '(s, n) := shortest x X 1 17 in
  let ds := decimal (Z.to_N s) in
  let ex := js "e+" ++ decimal (Z.to_N (n - 1)) in
  match ds with
  | [] => ex
  | [d] => d :: ex
  | d :: rest => d :: 46%N :: rest ++ ex
  end.

(** [x.toFixed(f)] *)
Definition toFixed (x : number) (f : nat) : jsstring :=
  match x with
  | S754_nan => js "NaN"
  | S754_infinity s => (if s then js "-" else []) ++ js "Infinity"
  | S754_zero _ =>
      if Nat.eqb f 0 then js "0" else js "0." ++ repeat 48%N f
  | S754_finite s m e =>
      let sign := if s then js "-" else [] in
      if atLeast1e21 m e then sign ++ toString_large m e
      else
        let ds := decimal (Z.to_N (scaled_round m e f)) in
        let k := List.length ds in
        let ds := repeat 48%N (f + 1 - k) ++ ds in
        let k := List.length ds in
        if Nat.eqb f 0 then sign ++ ds
        else sign ++ firstn (k - f) ds ++ 46%N :: skipn (k - f) ds
  end.

End Number.
Import Number.

(* ===================================================================== *)
(** * The calculator *)
(* ===================================================================== *)

(** [function cleanNumber(value)] *)
Definition cleanNumber (value : jsstring) : number :=
  parseFloat (replace_first 44 46 value).

(** [function calculateAndFormatUnit(priceKr, weightValue, unit)] *)
Definition pricePerBaseUnit (priceKr weightValue : number) (unit : jsstring) : number :=
  let lowerUnit := toLowerCase unit in
  if jsstring_eqb lowerUnit (js "g") || jsstring_eqb lowerUnit (js "ml")
  then mul (div priceKr weightValue) (of_Z 1000)
  else div priceKr weightValue.

Definition displayUnit (unit : jsstring) : jsstring :=
  let lowerUnit := toLowerCase unit in
  if jsstring_eqb lowerUnit (js "g") || jsstring_eqb lowerUnit (js "ml")
  then (if jsstring_eqb lowerUnit (js "g") then js "kg" else js "L")
  else (if jsstring_eqb lowerUnit (js "kg") then js "kg" else js "L").

Definition calculateAndFormatUnit (priceKr weightValue : number) (unit : jsstring) : jsstring :=
  js "~" ++ toFixed (pricePerBaseUnit priceKr weightValue unit) 2
     ++ js " / " ++ displayUnit unit.

(* ===================================================================== *)
(** * The document tree *)
(* ===================================================================== *)

Module Dom.

#[local] Set Warnings "-register-all".

(** A node of the tree.  An element carries its identity [id]: the script
    holds references to element objects while it changes the tree, and two
    references are [===] when they are the same object.  [attributes] are
    the attributes other than [class], which is [classList]. *)
Inductive node : Type :=
| Text (data : jsstring)
| Comment (data : jsstring)
| Element (id : nat) (tagName : string) (classList : list string)
          (attributes : list (string * string)) (childNodes : list node).

Definition nodeType (n : node) : nat :=
  match n with
  | Element _ _ _ _ _ => 1
  | Text _ => 3
  | Comment _ => 8
  end%nat.

Definition isElement (n : node) : bool :=
  match n with
  | Element _ _ _ _ _ => true
  | _ => false
  end.

(** Identity, tag, classes, attributes and children of an element; a text
    or comment node has none. *)
Definition node_id (n : node) : option nat :=
  match n with
  | Element i _ _ _ _ => Some i
  | _ => None
  end.

Definition tagName (n : node) : string :=
  match n with
  | Element _ t _ _ _ => t
  | _ => EmptyString
  end.

Definition classList (n : node) : list string :=
  match n with
  | Element _ _ c _ _ => c
  | _ => []
  end.

Definition attributes (n : node) : list (string * string) :=
  match n with
  | Element _ _ _ a _ => a
  | _ => []
  end.

Definition childNodes (n : node) : list node :=
  match n with
  | Element _ _ _ _ cs => cs
  | _ => []
  end.

(** The identity as a number; only elements are asked for it. *)
Definition idOf (n : node) : nat :=
  match node_id n with
  | Some i => i
  | None => 0%nat
  end.

(** [el.children]: the child nodes that are elements. *)
Definition children (n : node) : list node := filter isElement (childNodes n).

(** Is [n] the element object [i] ? *)
Definition hasId (i : nat) (n : node) : bool :=
  match n with
  | Element j _ _ _ _ => Nat.eqb i j
  | _ => false
  end.

(** [el.classList.contains(c)] *)
Definition classList_contains (n : node) (c : string) : bool :=
  existsb (String.eqb c) (classList n).

(** [el.hasAttribute(name)] *)
Definition hasAttribute (n : node) (name : string) : bool :=
  existsb (fun a => String.eqb name (fst a)) (attributes n).

(** [el.textContent]: the data of the text nodes below [el], in document
    order; comments contribute nothing. *)
Fixpoint textContent (n : node) : jsstring :=
  match n with
  | Text d => d
  | Comment _ => []
  | Element _ _ _ _ cs => flat_map textContent cs
  end.

(** The elements of the subtree of [n], [n] first, in document order. *)
Fixpoint inclusiveDescendants (n : node) : list node :=
  match n with
  | Element _ _ _ _ cs => n :: flat_map inclusiveDescendants cs
  | _ => []
  end.

(** [el.querySelectorAll("*")]: the element descendants of [el]. *)
Definition querySelectorAll (n : node) : list node :=
  flat_map inclusiveDescendants (childNodes n).

(** [el.querySelector("." + c)]: the first descendant with class [c]. *)
Definition querySelector_class (n : node) (c : string) : option node :=
  find (fun e => classList_contains e c) (querySelectorAll n).

(** ** The document

    A document is given by its root element, [document.documentElement];
    [document.querySelectorAll("*")] lists the root and its descendants. *)
Definition document := node.

Definition allElements (doc : document) : list node := inclusiveDescendants doc.

(** The current state of the element object [i]. *)
Definition deref (doc : document) (i : nat) : option node :=
  find (hasId i) (allElements doc).

(** [document.body]: the first child of the [html] root that is a [body]
    or a [frameset] element. *)
Definition body (doc : document) : option node :=
  if String.eqb (tagName doc) "HTML" then
    find (fun c => String.eqb (tagName c) "BODY" || String.eqb (tagName c) "FRAMESET")
         (children doc)
  else None.

Definition isBody (doc : document) (i : nat) : bool :=
  match body doc with
  | Some b => hasId i b
  | None => false
  end.

Definition isDocumentElement (doc : document) (i : nat) : bool := hasId i doc.

(** The first child, in order, on which [f] answers. *)
Definition findFirst {A : Type} (f : node -> option A) : list node -> option A :=
  fix among (l : list node) : option A :=
    match l with
    | [] => None
    | c :: l' =>
        match f c with
        | Some a => Some a
        | None => among l'
        end
    end.

(** The first child, in order, that [f] rewrites is replaced by the nodes
    [f] gives for it. *)
Definition rewriteFirst (f : node -> option (list node))
  : list node -> option (list node) :=
  fix among (l : list node) : option (list node) :=
    match l with
    | [] => None
    | c :: l' =>
        match f c with
        | Some cs => Some (cs ++ l')
        | None => option_map (cons c) (among l')
        end
    end.

(** [el.parentElement] for the element [i] of the subtree of [n]; [None]
    for the root (whose parent node is the document) and for an element
    that is not in the tree. *)
Fixpoint parentIn (i : nat) (n : node) : option node :=
  match n with
  | Element _ _ _ _ cs =>
      findFirst (fun c => if hasId i c then Some n else parentIn i c) cs
  | _ => None
  end.

Definition parentElement (doc : document) (i : nat) : option node := parentIn i doc.

(** The first element after the child [i] in a list of siblings. *)
Fixpoint elementAfter (i : nat) (l : list node) : option node :=
  match l with
  | [] => None
  | c :: l' => if hasId i c then find isElement l' else elementAfter i l'
  end.

(** [el.nextElementSibling] *)
Definition nextElementSibling (doc : document) (i : nat) : option node :=
  match parentIn i doc with
  | Some p => elementAfter i (childNodes p)
  | None => None
  end.

(** ** Writes *)

Definition setAttr (name value : string) (attrs : list (string * string))
  : list (string * string) :=
  if existsb (fun a => String.eqb name (fst a)) attrs
  then map (fun a => if String.eqb name (fst a) then (fst a, value) else a) attrs
  else attrs ++ [(name, value)].

Definition single (o : option node) : option (list node) :=
  option_map (fun n => [n]) o.

(** [el.setAttribute(name, value)] on the element [i]: the first element
    of the tree, in document order, with that identity. *)
Fixpoint setAttributeIn (i : nat) (name value : string) (n : node) : option node :=
  match n with
  | Element j t c a cs =>
      if Nat.eqb i j then Some (Element j t c (setAttr name value a) cs)
      else
        option_map (Element j t c a)
          (rewriteFirst (fun x => single (setAttributeIn i name value x)) cs)
  | _ => None
  end.

Definition setAttribute (doc : document) (i : nat) (name value : string) : document :=
  match setAttributeIn i name value doc with
  | Some doc' => doc'
  | None => doc
  end.

(** [el.parentNode.insertBefore(new, el.nextSibling)] for the element [i]
    below [n]: [new] becomes the node right after [i]. *)
Fixpoint insertAfterIn (i : nat) (new : node) (n : node) : option node :=
  match n with
  | Element j t c a cs =>
      option_map (Element j t c a)
        (rewriteFirst
           (fun x => if hasId i x then Some [x; new]
                     else single (insertAfterIn i new x)) cs)
  | _ => None
  end.

Definition insertAfter (doc : document) (i : nat) (new : node) : document :=
  match insertAfterIn i new doc with
  | Some doc' => doc'
  | None => doc
  end.

(** The identities of the elements of the document, in document order. *)
Definition ids (doc : document) : list nat := map idOf (allElements doc).

(** An identity no element of the tree has: the one of the object that
    [document.createElement] returns. *)
Definition freshId (doc : document) : nat := S (fold_right Nat.max 0%nat (ids doc)).

(** Element objects are distinct: no identity occurs twice. *)
Definition wellFormed (doc : document) : Prop := isElement doc = true /\ NoDup (ids doc).

End Dom.
Import Dom.

(* ===================================================================== *)
(** * The engine *)
(* ===================================================================== *)

(** The class of the injected elements. *)
Definition APPENDED_CLASS : string := "unit-price-kr-kg-appended".

(** [bestMatchData]: the container and the price element are references
    to element objects, kept as their identities. *)
Record ProductBlock : Type := {
  container : nat;
  elPrice : nat;
  priceKr : number;
  weightValue : number;
  weightUnit : jsstring
}.

(** What the script does to its environment, in the order it does it. *)
Inductive event : Type :=
| ConsoleLog
| ConsoleWarn
| SetProcessed (el : nat)             (* el.setAttribute(PROCESSED_ATTR, 'true') *)
| Call (data : ProductBlock)          (* processProductBlock(data) is entered *)
| InsertAfter (el : nat) (span : node). (* el.parentNode.insertBefore(span, el.nextSibling) *)

(** The tree and the trace of the run so far, oldest event first. *)
Record state : Type := {
  dom : document;
  trace : list event
}.

Definition emit (e : event) (st : state) : state :=
  {| dom := dom st; trace := trace st ++ [e] |}.

Definition matches (re : regex) (text : jsstring) : bool :=
  isTruthy (match_ re text).

Definition ignoredTags : list string :=
  ["SCRIPT"; "STYLE"; "NOSCRIPT"; "HTML"; "HEAD"; "META"; "LINK"]%string.

Definition hasChildWithPrice (el : node) : bool :=
  existsb (fun child => matches PRICE_REGEX (textContent child)) (children el).

(** The predicate of [allElements.filter(...)]. *)
Definition isPotentialPriceElement (doc : document) (el : node) : bool :=
  if existsb (String.eqb (tagName el)) ignoredTags then false
  else if classList_contains el APPENDED_CLASS then false
  else if isBody doc (idOf el) || isDocumentElement doc (idOf el) then false
  else if negb (matches PRICE_REGEX (textContent el)) then false
  else negb (hasChildWithPrice el).

Definition potentialPriceElements (doc : document) : list node :=
  filter (isPotentialPriceElement doc) (allElements doc).

(** [el.setAttribute(PROCESSED_ATTR, 'true')] *)
Definition markProcessed (i : nat) (st : state) : state :=
  emit (SetProcessed i)
       {| dom := setAttribute (dom st) i PROCESSED_ATTR "true"; trace := trace st |}.

(** [ref.hasAttribute(PROCESSED_ATTR)] for a reference to the element [i]. *)
Definition isProcessed (doc : document) (i : nat) : bool :=
  match deref doc i with
  | Some n => hasAttribute n PROCESSED_ATTR
  | None => false
  end.

(** The checks of one round of the walk on the matches found. *)
Definition validate (cont price : node) (weightElement : node) : option ProductBlock :=
  match match_ PRICE_REGEX (textContent price),
        match_ WEIGHT_REGEX (textContent weightElement) with
  | Some priceMatch, Some weightMatch =>
      let priceKr := cleanNumber (fst priceMatch) in
      let weightValue := cleanNumber (fst weightMatch) in
      let weightUnit := snd weightMatch in
      if negb (isNaN priceKr) && negb (isNaN weightValue)
         && gt priceKr zero && gt weightValue zero
      then Some {| container := idOf cont; elPrice := idOf price;
                   priceKr := priceKr; weightValue := weightValue;
                   weightUnit := weightUnit |}
      else None
  | _, _ => None
  end.

Definition weightMatches (currentContainer : node) : list node :=
  filter (fun el => matches WEIGHT_REGEX (textContent el))
         (querySelectorAll currentContainer).

(** One round of the loop on [currentContainer], after the check of its
    marker: the first element below it whose text matches the weight
    pattern, and the validation of the pair. *)
Definition resolveAt (currentContainer price : node) : option ProductBlock :=
  match weightMatches currentContainer with
  | weightElement :: _ => validate currentContainer price weightElement
  | [] => None
  end.

(** The three ways the walk ends: the [break] with [bestMatchData] set, the
    [return] on a processed container, and the end of the loop. *)
Inductive walkResult : Type :=
| Found (data : ProductBlock)
| Aborted
| NoMatch.

(** [for (let i = 0; i < 8 && currentContainer; i++)]: [fuel] is [8 - i]. *)
Fixpoint walk (doc : document) (price : node) (fuel : nat)
         (currentContainer : option node) : walkResult :=
  match fuel, currentContainer with
  | S fuel', Some cont =>
      if hasAttribute cont PROCESSED_ATTR then Aborted
      else
        match resolveAt cont price with
        | Some data => Found data
        | None => walk doc price fuel' (parentElement doc (idOf cont))
        end
  | _, _ => NoMatch
  end.

(** The injected element: a [span] of class [APPENDED_CLASS] whose text is
    ["- "] and the unit price.  Its inline style is left out: no part of
    the script reads it. *)
Definition unitPriceSpan (i : nat) (unitPriceText : jsstring) : node :=
  Element i "SPAN" [APPENDED_CLASS] [] [Text (js "- " ++ unitPriceText)].

(** The last part of [processProductBlock]: compute the text, create the
    element, insert it right after the price element.  In the tree of this
    model the insertion cannot throw: the price element has a parent
    element here. *)
Definition inject (data : ProductBlock) (st : state) : state :=
  let unitPriceText :=
    calculateAndFormatUnit (priceKr data) (weightValue data) (weightUnit data) in
  let span := unitPriceSpan (freshId (dom st)) unitPriceText in
  emit ConsoleLog
    (emit (InsertAfter (elPrice data) span)
       {| dom := insertAfter (dom st) (elPrice data) span; trace := trace st |}).

(** [function processProductBlock(data)] *)
Definition processProductBlock (data : ProductBlock) (st : state) : state :=
  let st := markProcessed (elPrice data) (emit (Call data) st) in
  let doc := dom st in
  match parentElement doc (elPrice data) with
  | None => emit ConsoleWarn st
  | Some _ =>
      if isDocumentElement doc (elPrice data) || isBody doc (elPrice data)
      then emit ConsoleWarn st
      else
        match nextElementSibling doc (elPrice data) with
        | Some nextSibling =>
            if classList_contains nextSibling APPENDED_CLASS then st
            else inject data st
        | None => inject data st
        end
  end.

(** The body of [potentialPriceElements.forEach((elPrice) => ...)] for the
    element object [i]. *)
Definition processPrice (st : state) (i : nat) : state :=
  match deref (dom st) i with
  | None => st
  | Some price =>
      if hasAttribute price PROCESSED_ATTR then st
      else
        match walk (dom st) price 8 (Some price) with
        | Found bestMatchData =>
            if negb (isProcessed (dom st) (container bestMatchData))
            then processProductBlock bestMatchData
                   (markProcessed (container bestMatchData) st)
            else st
        | Aborted => st
        | NoMatch => st
        end
  end.

(** [function findAndProcessPrices()] *)
Definition findAndProcessPrices (st : state) : state :=
  let candidates := map idOf (potentialPriceElements (dom st)) in
  fold_left processPrice candidates (emit ConsoleLog st).

(** [function initializeProcessor()] *)
Definition initializeProcessor (st : state) : state := findAndProcessPrices st.

(* ===================================================================== *)
(** * The mutation coordinator *)
(* ===================================================================== *)

(** The two globals of the script, and the timers of the page: the handles
    that are set and have neither fired nor been cleared, and the next
    handle [setTimeout] returns. *)
Record coordinator : Type := {
  processingTimeout : option nat;
  isProcessing : bool;
  pendingTimers : list nat;
  nextTimer : nat
}.

(** [clearTimeout(h)] *)
Definition clearTimeout (h : option nat) (pending : list nat) : list nat :=
  match h with
  | Some t => filter (fun t' => negb (Nat.eqb t t')) pending
  | None => pending
  end.

(** [function startProcessing()]: the pending timer is cleared and a new
    one is set. *)
Definition startProcessing (c : coordinator) : coordinator :=
  {| processingTimeout := Some (nextTimer c);
     isProcessing := isProcessing c;
     pendingTimers := nextTimer c :: clearTimeout (processingTimeout c) (pendingTimers c);
     nextTimer := S (nextTimer c) |}.

(** The timer [h] fires, 200 ms after it was set: its callback runs the
    pass unless [isProcessing] is set. *)
Definition timerFires (h : nat) (c : coordinator) (st : state) : coordinator * state :=
  if existsb (Nat.eqb h) (pendingTimers c) then
    let c' := {| processingTimeout := processingTimeout c;
                 isProcessing := false;
                 pendingTimers := clearTimeout (Some h) (pendingTimers c);
                 nextTimer := nextTimer c |} in
    if negb (isProcessing c) then (c', findAndProcessPrices st)
    else ({| processingTimeout := processingTimeout c;
             isProcessing := isProcessing c;
             pendingTimers := clearTimeout (Some h) (pendingTimers c);
             nextTimer := nextTimer c |}, st)
  else (c, st).

(** A mutation record of a [childList] observation. *)
Record MutationRecord : Type := {
  addedNodes : list node;
  removedNodes : list node
}.

Definition hasSelfMutation (mutations : list MutationRecord) : bool :=
  existsb (fun mutation =>
    existsb (fun n =>
      if Nat.eqb (nodeType n) 1 then
        classList_contains n APPENDED_CLASS
        || isTruthy (querySelector_class n APPENDED_CLASS)
      else false) (addedNodes mutation)) mutations.

(** The callback of [new MutationObserver(...)]. *)
Definition observer (mutations : list MutationRecord) (c : coordinator) : coordinator :=
  if negb (hasSelfMutation mutations) then startProcessing c else c.

(* ===================================================================== *)
(** * Specification vocabulary *)
(* ===================================================================== *)

(** The language of a pattern, without captures: [Lang r s s'] when [r]
    matches a prefix of [s] and leaves [s']. *)
Inductive Lang : regex -> jsstring -> jsstring -> Prop :=
| Lang_Eps s : Lang Eps s s
| Lang_Lit c x s : canonicalize x = canonicalize c -> Lang (Lit c) (x :: s) s
| Lang_Class (p : N -> bool) x s : p x = true -> Lang (Class p) (x :: s) s
| Lang_Star_stop (p : N -> bool) s : Lang (Star p) s s
| Lang_Star_more (p : N -> bool) x s s' :
    p x = true -> Lang (Star p) s s' -> Lang (Star p) (x :: s) s'
| Lang_Seq r1 r2 s s1 s2 :
    Lang r1 s s1 -> Lang r2 s1 s2 -> Lang (Seq r1 r2) s s2
| Lang_Alt_l r1 r2 s s' : Lang r1 s s' -> Lang (Alt r1 r2) s s'
| Lang_Alt_r r1 r2 s s' : Lang r2 s s' -> Lang (Alt r1 r2) s s'
| Lang_Group i r s s' : Lang r s s' -> Lang (Group i r) s s'.

(** [r] has a match that starts somewhere in [s]. *)
Definition MatchesSomewhere (r : regex) (s : jsstring) : Prop :=
  exists a u s', s = a ++ u /\ Lang r u s'.

(** The processed markers of a tree, in document order: for each element
    its identity and whether it bears [PROCESSED_ATTR]. *)
Definition mark (e : node) : nat * bool := (idOf e, hasAttribute e PROCESSED_ATTR).

Definition marks (n : node) : list (nat * bool) := map mark (inclusiveDescendants n).

Definition lookupMark (j : nat) (l : list (nat * bool)) : bool :=
  match find (fun p => Nat.eqb j (fst p)) l with
  | Some p => snd p
  | None => false
  end.

Fixpoint markFirst (i : nat) (l : list (nat * bool)) : list (nat * bool) :=
  match l with
  | [] => []
  | p :: l' => if Nat.eqb i (fst p) then (fst p, true) :: l' else p :: markFirst i l'
  end.

(** The price elements after which the trace inserts an element, and the
    blocks the trace hands to [processProductBlock]. *)
Definition insertions (tr : list event) : list nat :=
  flat_map (fun e => match e with InsertAfter i _ => [i] | _ => [] end) tr.

Definition calls (tr : list event) : list ProductBlock :=
  flat_map (fun e => match e with Call d => [d] | _ => [] end) tr.

(** The validation of the walk: both numbers are not [NaN] and above 0. *)
Definition validated (data : ProductBlock) : Prop :=
  isNaN (priceKr data) = false /\ isNaN (weightValue data) = false
  /\ gt (priceKr data) zero = true /\ gt (weightValue data) zero = true.

(** A pass on a tree, with a trace of its own. *)
Definition pass (doc : document) : state :=
  findAndProcessPrices {| dom := doc; trace := [] |}.

(** [n] passes in a row, nothing else touching the tree in between. *)
Fixpoint passes (n : nat) (st : state) : state :=
  match n with
  | O => st
  | S n' => passes n' (findAndProcessPrices st)
  end.

(** What the body of the [forEach] does for the candidate [i]: nothing, or
    the whole sequence on a block [data] whose price element is [i] --
    mark the container, enter [processProductBlock], mark the price
    element, then nothing more, a warning, or the insertion. *)
Inductive Outcome (st : state) (i : nat) (st' : state) : Prop :=
| Skipped : st' = st -> Outcome st i st'
| Processed (data : ProductBlock) (tail : list event) :
    isProcessed (dom st) i = false ->
    isProcessed (dom st) (container data) = false ->
    In i (ids (dom st)) ->
    elPrice data = i ->
    validated data ->
    trace st' = trace st ++ SetProcessed (container data) :: Call data
                         :: SetProcessed i :: tail ->
    (tail = [] \/ tail = [ConsoleWarn]
     \/ exists f, tail = [InsertAfter i
                            (unitPriceSpan f
                               (calculateAndFormatUnit (priceKr data)
                                  (weightValue data) (weightUnit data)));
                          ConsoleLog]) ->
    (forall j, isProcessed (dom st) j = true -> isProcessed (dom st') j = true) ->
    (forall j, In j (ids (dom st)) -> In j (ids (dom st'))) ->
    isProcessed (dom st') i = true ->
    isProcessed (dom st') (container data) = true ->
    Outcome st i st'.

(** The elements the walk can look at: the price element and its
    ancestors, [fuel] of them at most. *)
Fixpoint ancestorChain (doc : document) (fuel : nat) (cur : option node) : list node :=
  match fuel, cur with
  | S fuel', Some c => c :: ancestorChain doc fuel' (parentElement doc (idOf c))
  | _, _ => []
  end.

(** [Visits doc price k cont]: the loop of the walk from [price] enters its
    round [i = k] with [currentContainer = cont]; every round before found
    its container unmarked and no valid pair in it. *)
Inductive Visits (doc : document) (price : node) : nat -> node -> Prop :=
| Visits_first : Visits doc price 0 price
| Visits_next k cont next :
    Visits doc price k cont ->
    (k < 7)%nat ->
    hasAttribute cont PROCESSED_ATTR = false ->
    resolveAt cont price = None ->
    parentElement doc (idOf cont) = Some next ->
    Visits doc price (S k) next.


(** The states of a page that started as [doc0]: the engine runs passes,
    and between them anything may change the tree as long as it removes no
    marker. *)
Inductive Reachable (doc0 : document) : state -> Prop :=
| Reachable_start : Reachable doc0 {| dom := doc0; trace := [] |}
| Reachable_pass st :
    Reachable doc0 st -> Reachable doc0 (findAndProcessPrices st)
| Reachable_external st doc' :
    Reachable doc0 st ->
    (forall j, isProcessed (dom st) j = true -> isProcessed doc' j = true) ->
    Reachable doc0 {| dom := doc'; trace := trace st |}.

(** In a trace, every entry into [processProductBlock] comes right after
    the mark of the container of its block; [prev] is the event before the
    trace. *)
Fixpoint markedBeforeCall (prev : option event) (tr : list event) : Prop :=
  match tr with
  | [] => True
  | Call d :: tr' =>
      prev = Some (SetProcessed (container d)) /\ markedBeforeCall (Some (Call d)) tr'
  | e :: tr' => markedBeforeCall (Some e) tr'
  end.

(** What holds of the state of the engine at every point of a run that
    started with an empty trace. *)
Record Inv (st : state) : Prop := {
  inv_insertions_once : NoDup (insertions (trace st));
  inv_insertions_marked :
    forall i, In i (insertions (trace st)) -> isProcessed (dom st) i = true;
  inv_containers_once : NoDup (map container (calls (trace st)));
  inv_containers_marked :
    forall d, In d (calls (trace st)) -> isProcessed (dom st) (container d) = true;
  inv_validated : forall d, In d (calls (trace st)) -> validated d;
  inv_order : markedBeforeCall None (trace st);
  inv_insertion_called :
    forall i span, In (InsertAfter i span) (trace st) ->
      exists d f, In d (calls (trace st)) /\ elPrice d = i
        /\ span = unitPriceSpan f (calculateAndFormatUnit (priceKr d)
                                     (weightValue d) (weightUnit d))
}.

(** An added node the filter of the observer reacts to: an element that
    is an annotation or has an annotation among its descendants. *)
Definition selfGenerated (n : node) : Prop :=
  isElement n = true
  /\ (classList_contains n APPENDED_CLASS = true
      \/ exists d, In d (querySelectorAll n)
                   /\ classList_contains d APPENDED_CLASS = true).

(** An added node that has nothing of the engine in it. *)
Definition unrelated (n : node) : Prop := ~ selfGenerated n.

(** The characters a numeric literal is made of. *)
Definition isNumeric (c : N) : bool := isDigit c || isDotOrComma c.

(** Every character a pattern can read satisfies [P]. *)
Fixpoint classesWithin (P : N -> Prop) (r : regex) : Prop :=
  match r with
  | Eps => True
  | Lit c => forall x, canonicalize x = canonicalize c -> P x
  | Class p => forall x, p x = true -> P x
  | Star p => forall x, p x = true -> P x
  | Seq r1 r2 => classesWithin P r1 /\ classesWithin P r2
  | Alt r1 r2 => classesWithin P r1 /\ classesWithin P r2
  | Group _ r1 => classesWithin P r1
  end.

(** The texts [toFixed] gives, without their sign: digits and a dot;
    digits, maybe a dot and digits, and an exponent; [NaN]; [Infinity]. *)
Inductive FixedShape : jsstring -> Prop :=
| FixedShape_plain a :
    Forall (fun c => isNumeric c = true) a -> FixedShape a
| FixedShape_exponent a ds :
    Forall (fun c => isNumeric c = true) a ->
    Forall (fun c => isDigit c = true) ds ->
    FixedShape (a ++ js "e+" ++ ds)
| FixedShape_NaN : FixedShape (js "NaN")
| FixedShape_Infinity : FixedShape (js "Infinity").

(* ===================================================================== *)
(** * Example documents *)
(* ===================================================================== *)

(** An element without classes and attributes. *)
Definition el (i : nat) (tag : string) (cs : list node) : node :=
  Element i tag [] [] cs.

(** [<body><span>7 kr</span><div><span>5 kr 0</span> g<span>500 g</span></div></body>]:
    the text of the [div] reads ["5 kr 0 g500 g"], whose first weight is
    ["0 g"], until an element is inserted after ["5 kr 0"]. *)
Definition splitWeightExample : document :=
  el 0 "HTML"
     [el 1 "HEAD" [];
      el 2 "BODY"
         [el 3 "SPAN" [Text (js "7 kr")];
          el 4 "DIV" [el 5 "SPAN" [Text (js "5 kr 0")];
                      Text (js " g");
                      el 6 "SPAN" [Text (js "500 g")]]]].

(** A price of 1 followed by 309 zeros, more than the largest finite
    Number, next to a weight of 1 kg. *)
Definition hugePrice : jsstring := js "1" ++ repeat 48 309 ++ js " kr".

Definition overflowExample : document :=
  el 0 "HTML"
     [el 1 "HEAD" [];
      el 2 "BODY"
         [el 3 "DIV" [el 4 "SPAN" [Text hugePrice];
                      el 5 "SPAN" [Text (js "1 kg")]]]].

(** A price seven wrappers deep: the eight rounds of the walk end below
    the element that holds the weight. *)
Definition deepExample : document :=
  el 0 "HTML"
     [el 1 "HEAD" [];
      el 2 "BODY"
         [el 3 "DIV"
             [el 4 "SPAN" [Text (js "500 g")];
              el 5 "DIV" [el 6 "DIV" [el 7 "DIV" [el 8 "DIV" [el 9 "DIV"
                [el 10 "DIV" [el 11 "DIV"
                   [el 12 "SPAN" [Text (js "99 kr")]]]]]]]]]]].

Definition deepPrice : node := el 12 "SPAN" [Text (js "99 kr")].

(** A price in a container that bears the marker already. *)
Definition markedPrice : node := el 4 "SPAN" [Text (js "99 kr")].

Definition markedContainer : node :=
  Element 3 "DIV" [] [(PROCESSED_ATTR, "true"%string)]
          [markedPrice; el 5 "SPAN" [Text (js "500 g")]].

Definition markedExample : document :=
  el 0 "HTML" [el 1 "HEAD" []; el 2 "BODY" [markedContainer]].

(** Two prices that share the container of one weight. *)
Definition sharedExample : document :=
  el 0 "HTML"
     [el 1 "HEAD" [];
      el 2 "BODY"
         [el 3 "DIV" [el 4 "SPAN" [Text (js "99 kr")];
                      el 5 "SPAN" [Text (js "49 kr")];
                      el 6 "SPAN" [Text (js "500 g")]]]].

Definition sharedBlock : ProductBlock :=
  {| container := 3; elPrice := 4; priceKr := of_Z 99;
     weightValue := of_Z 500; weightUnit := js "g" |}.

(** The records of three changes of the tree: the insertion of an
    annotation by the engine, the insertion of an element by the page, and
    the removal of an element. *)
Definition helloDiv : node := el 21 "DIV" [Text (js "hello")].

Definition annotationRecord : MutationRecord :=
  {| addedNodes := [unitPriceSpan 20 (js "~198.00 / kg")]; removedNodes := [] |}.

Definition pageRecord : MutationRecord :=
  {| addedNodes := [helloDiv]; removedNodes := [] |}.

Definition removalRecord : MutationRecord :=
  {| addedNodes := []; removedNodes := [helloDiv] |}.

Definition idle : coordinator :=
  {| processingTimeout := None; isProcessing := false;
     pendingTimers := []; nextTimer := 0 |}.

(* ===================================================================== *)
(** * More vocabulary: texts, siblings, frames and the page *)
(* ===================================================================== *)

(** A pattern without capture groups. *)
Fixpoint noGroups (r : regex) : Prop :=
  match r with
  | Seq r1 r2 => noGroups r1 /\ noGroups r2
  | Alt r1 r2 => noGroups r1 /\ noGroups r2
  | Group _ _ => False
  | _ => True
  end.

(** [\d+]: one digit at least, and digits only. *)
Definition isDigits (s : jsstring) : Prop :=
  s <> [] /\ Forall (fun c => isDigit c = true) s.

(** The texts of [numericLiteral]: digits, or digits, a dot or a comma,
    and digits. *)
Definition NumericLiteralText (g : jsstring) : Prop :=
  isDigits g
  \/ exists ip sep fp, g = ip ++ sep :: fp /\ isDigits ip
                       /\ isDotOrComma sep = true /\ isDigits fp.

(** [u] is [w] up to case, as a pattern with the [i] flag compares. *)
Definition sameLetters (u w : jsstring) : Prop :=
  map canonicalize u = map canonicalize w.

(** [u] is one of [tokens] up to case. *)
Definition isToken (tokens : list jsstring) (u : jsstring) : Prop :=
  exists w, In w tokens /\ sameLetters u w.

(** The alternatives of the second group of the two patterns. *)
Definition weightTokens : list jsstring := [js "g"; js "kg"; js "l"; js "ml"].

Definition currencyTokenList : list jsstring :=
  [js "kr"; js "sek"; js "eur"; js "euro"; js "$"; [194; 163]; js "usd"; js "gbp"].

(** A Number that is not negative: a zero, a positive finite value or
    [Infinity]. *)
Definition nonNegative (x : number) : Prop :=
  match x with
  | S754_zero _ => True
  | S754_finite s _ _ => s = false
  | S754_infinity s => s = false
  | S754_nan => False
  end.

(** The first child, in order, on which [f] answers; [f] is given the
    siblings after the child. *)
Definition findWithRest {A : Type} (f : node -> list node -> option A)
  : list node -> option A :=
  fix among (l : list node) : option A :=
    match l with
    | [] => None
    | c :: l' =>
        match f c l' with
        | Some a => Some a
        | None => among l'
        end
    end.

(** For the element [i] below [n]: its next element sibling, if it has
    one.  [None] when [i] is not below [n]. *)
Fixpoint siblingAfter (i : nat) (n : node) : option (option node) :=
  match n with
  | Element _ _ _ _ cs =>
      findWithRest
        (fun c rest => if hasId i c then Some (find isElement rest)
                       else siblingAfter i c) cs
  | _ => None
  end.

(** The same among the children [l] of an element. *)
Definition siblingAmong (i : nat) (l : list node) : option (option node) :=
  findWithRest
    (fun c rest => if hasId i c then Some (find isElement rest)
                   else siblingAfter i c) l.

(** Is it an annotation of the engine ? *)
Definition annotated (o : option node) : bool :=
  match o with
  | Some s => classList_contains s APPENDED_CLASS
  | None => false
  end.

(** The test of [processProductBlock] on the next element sibling. *)
Definition nextAnnotated (doc : document) (i : nat) : bool :=
  annotated (nextElementSibling doc i).

(** [x'] is [x] with other attributes or other descendants. *)
Definition sameHead (x' x : node) : Prop :=
  isElement x' = isElement x /\ node_id x' = node_id x
  /\ tagName x' = tagName x /\ classList x' = classList x.

(** The safety check of [processProductBlock]: the element has no parent
    element, or is the root, or is the body. *)
Definition tooHigh (doc : document) (i : nat) : bool :=
  match parentElement doc i with
  | None => true
  | Some _ => isDocumentElement doc i || isBody doc i
  end.

(** The element [processProductBlock] creates for a block. *)
Definition annotationFor (data : ProductBlock) (f : nat) : node :=
  unitPriceSpan f (calculateAndFormatUnit (priceKr data) (weightValue data)
                     (weightUnit data)).

(** A tree without its processed markers. *)
Fixpoint withoutMarkers (n : node) : node :=
  match n with
  | Element i t c a cs =>
      Element i t c
        (filter (fun p => negb (String.eqb PROCESSED_ATTR (fst p))) a)
        (map withoutMarkers cs)
  | _ => n
  end.

(** Is [c] an element with an identity of [S] ? *)
Definition isOneOf (S : list nat) (c : node) : bool :=
  match node_id c with
  | Some j => existsb (Nat.eqb j) S
  | None => false
  end.

(** A tree without the elements whose identity is in [S]; the root stays. *)
Fixpoint withoutElements (S : list nat) (n : node) : node :=
  match n with
  | Element i t c a cs =>
      Element i t c a
        (flat_map (fun x => if isOneOf S x then [] else [withoutElements S x]) cs)
  | _ => n
  end.

(** The identities of the elements a trace inserts. *)
Definition added (tr : list event) : list nat :=
  flat_map (fun e => match e with InsertAfter _ span => [idOf span] | _ => [] end) tr.

(** What the page does to the coordinator: a batch of mutation records is
    delivered to the observer, or the timer of a handle fires. *)
Inductive input : Type :=
| Notify (mutations : list MutationRecord)
| Fire (h : nat).

(** One input, on the coordinator and the state of the engine. *)
Definition react (cs : coordinator * state) (e : input) : coordinator * state :=
  match e with
  | Notify mutations => (observer mutations (fst cs), snd cs)
  | Fire h => timerFires h (fst cs) (snd cs)
  end.

(** The script after its initial run, then the inputs in order. *)
Definition runPage (inputs : list input) (st : state) : coordinator * state :=
  fold_left react inputs (idle, initializeProcessor st).

(** At most one timer is pending, and it is the one the script holds. *)
Definition settled (c : coordinator) : Prop :=
  isProcessing c = false
  /\ (pendingTimers c = []
      \/ exists h, pendingTimers c = [h] /\ processingTimeout c = Some h).

(** A price without any weight on the page. *)
Definition priceOnlyExample : document :=
  el 0 "HTML"
     [el 1 "HEAD" [];
      el 2 "BODY" [el 3 "DIV" [el 4 "SPAN" [Text (js "99 kr")]]]].

(** A price element that lost its marker but kept its annotation. *)
Definition strippedExample : document :=
  el 0 "HTML"
     [el 1 "HEAD" [];
      el 2 "BODY"
         [el 3 "DIV" [el 4 "SPAN" [Text (js "99 kr")];
                      unitPriceSpan 7 (js "~198.00 / kg");
                      el 6 "SPAN" [Text (js "500 g")]]]].

(** What the second group of [WEIGHT_REGEX] takes: the four units, each
    letter small or capital. *)
Definition weightUnitTexts : list jsstring :=
  [js "g"; js "G"; js "kg"; js "kG"; js "Kg"; js "KG"; js "l"; js "L";
   js "ml"; js "mL"; js "Ml"; js "ML"].

(** What the second group of [PRICE_REGEX] takes: the eight tokens, each
    letter small or capital; the sixth token is the two code units 194
    and 163, and 226 is the small letter of 194. *)
Definition currencyTexts : list jsstring :=
  [js "kr"; js "kR"; js "Kr"; js "KR"; js "sek"; js "seK"; js "sEk";
   js "sEK"; js "Sek"; js "SeK"; js "SEk"; js "SEK"; js "eur"; js "euR";
   js "eUr"; js "eUR"; js "Eur"; js "EuR"; js "EUr"; js "EUR"; js "euro";
   js "eurO"; js "euRo"; js "euRO"; js "eUro"; js "eUrO"; js "eURo";
   js "eURO"; js "Euro"; js "EurO"; js "EuRo"; js "EuRO"; js "EUro";
   js "EUrO"; js "EURo"; js "EURO"; js "$"; [194; 163]; [226; 163];
   js "usd"; js "usD"; js "uSd"; js "uSD"; js "Usd"; js "UsD"; js "USd";
   js "USD"; js "gbp"; js "gbP"; js "gBp"; js "gBP"; js "Gbp"; js "GbP";
   js "GBp"; js "GBP"].

(** The units for which [calculateAndFormatUnit] multiplies by 1000: the
    texts whose lower case is ["g"] or ["ml"]. *)
Definition perThousandUnits : list jsstring :=
  [js "g"; js "G"; js "ml"; js "mL"; js "Ml"; js "ML"].

(** The units labelled ["kg"]: the texts whose lower case is ["g"] or
    ["kg"]; 8490 is the Kelvin sign, whose lower case is [k]. *)
Definition kilogramUnits : list jsstring :=
  [js "g"; js "G"; js "kg"; js "kG"; js "Kg"; js "KG"; [8490; 103]; [8490; 71]].

(** The text of a rate of at least [10^21]: a digit, maybe a dot and
    digits, ["e+"] and the digits of the exponent. *)
Definition ExponentText (t : jsstring) : Prop :=
  exists d rest ex,
    t = d :: (match rest with [] => [] | _ => 46 :: rest end) ++ js "e+" ++ ex
    /\ isDigit d = true
    /\ Forall (fun c => isDigit c = true) rest
    /\ ex <> [] /\ Forall (fun c => isDigit c = true) ex.

(** The text of a finite rate [m * 2^e] below [10^21]: digits, a dot and
    two digits; read as an integer [n], the digits are the rate times 100
    rounded to the nearest integer, the larger one on a tie. *)
Definition TwoDecimalsText (m : positive) (e : Z) (t : jsstring) : Prop :=
  exists ip fp,
    t = ip ++ 46 :: fp
    /\ ip <> [] /\ List.length fp = 2%nat
    /\ Forall (fun c => isDigit c = true) (ip ++ fp)
    /\ (let n := Z.of_N (digitsValue 0 (ip ++ fp)) in
        let x100 := (Z.pos m * 100)%Z in
        ((0 <= e)%Z -> n = (x100 * 2 ^ e)%Z)
        /\ ((e < 0)%Z ->
            (2 ^ (- e) * (2 * n - 1) <= 2 * x100 < 2 ^ (- e) * (2 * n + 1))%Z)).

(** The integer a text of digits writes in base ten. *)
Definition decimalValue (g : jsstring) : Z :=
  fold_left (fun a c => (10 * a + (Z.of_N c - 48))%Z) g 0%Z.

(** The Number [x] is the integer [n], exactly. *)
Definition isInteger (x : number) (n : Z) : Prop :=
  match x with
  | S754_zero _ => n = 0%Z
  | S754_finite false m e => (e <= 0)%Z /\ Z.pos m = (n * 2 ^ (- e))%Z
  | _ => False
  end.




(** The state of a pass on [doc] when the turn of its candidate number
    [k] comes: the candidates before it are done. *)
Definition atTurn (doc : document) (k : nat) : state :=
  fold_left processPrice (firstn k (map idOf (potentialPriceElements doc)))
            (emit ConsoleLog {| dom := doc; trace := [] |}).


(* ===================================================================== *)
(** * Theorems *)
(* ===================================================================== *)

(** ** The matcher computes the language *)

Section MatcherCorrect.
Context {R : Type}.

Lemma star_match_complete (p : N -> bool) s (k : jsstring -> option R) :
  (forall s', Lang (Star p) s s' -> k s' = None) ->
  star_match p s k = None.
Proof.
  induction s as [|c s IH]; intros H; simpl.
  - apply H. constructor.
  - destruct (p c) eqn:Hp.
    + rewrite IH.
      * apply H. constructor.
      * intros s' Hs'. apply H. now apply Lang_Star_more.
    + apply H. constructor.
Qed.

Lemma star_match_sound (p : N -> bool) s (k : jsstring -> option R) x :
  star_match p s k = Some x ->
  exists s', Lang (Star p) s s' /\ k s' = Some x.
Proof.
  induction s as [|c s IH]; simpl; intros H.
  - exists []. split; [constructor | exact H].
  - destruct (p c) eqn:Hp.
    + destruct (star_match p s k) eqn:Hs.
      * injection H as <-. destruct (IH eq_refl) as (s' & Hl & Hk).
        exists s'. split; [now apply Lang_Star_more | exact Hk].
      * exists (c :: s). split; [constructor | exact H].
    + exists (c :: s). split; [constructor | exact H].
Qed.

Lemma run_complete r : forall s caps (k : jsstring -> captures -> option R),
  (forall s' caps', Lang r s s' -> k s' caps' = None) ->
  run r s caps k = None.
Proof.
  induction r as [|c|p|p|r1 IH1 r2 IH2|r1 IH1 r2 IH2|i r IH];
    intros s caps k H; simpl.
  - apply H. constructor.
  - destruct s as [|x s]; [reflexivity|].
    destruct (canonicalize x =? canonicalize c) eqn:E; [|reflexivity].
    apply H. constructor. now apply N.eqb_eq.
  - destruct s as [|x s]; [reflexivity|].
    destruct (p x) eqn:E; [|reflexivity].
    apply H. now constructor.
  - apply star_match_complete. intros s' Hs'. now apply H.
  - apply IH1. intros s1 c1 H1. apply IH2. intros s2 c2 H2.
    apply H. now apply Lang_Seq with s1.
  - rewrite IH1.
    + apply IH2. intros s' c' H'. apply H. now apply Lang_Alt_r.
    + intros s' c' H'. apply H. now apply Lang_Alt_l.
  - apply IH. intros s' c' H'. apply H. now constructor.
Qed.

Lemma run_sound r : forall s caps (k : jsstring -> captures -> option R) x,
  run r s caps k = Some x ->
  exists s' caps', Lang r s s' /\ k s' caps' = Some x.
Proof.
  induction r as [|c|p|p|r1 IH1 r2 IH2|r1 IH1 r2 IH2|i r IH];
    intros s caps k x H; simpl in H.
  - exists s, caps. split; [constructor | exact H].
  - destruct s as [|y s]; [discriminate|].
    destruct (canonicalize y =? canonicalize c) eqn:E; [|discriminate].
    exists s, caps. split; [|exact H]. constructor. now apply N.eqb_eq.
  - destruct s as [|y s]; [discriminate|].
    destruct (p y) eqn:E; [|discriminate].
    exists s, caps. split; [now constructor | exact H].
  - apply star_match_sound in H. destruct H as (s' & Hl & Hk).
    now exists s', caps.
  - apply IH1 in H. destruct H as (s1 & c1 & H1 & H).
    apply IH2 in H. destruct H as (s2 & c2 & H2 & H).
    exists s2, c2. split; [now apply Lang_Seq with s1 | exact H].
  - destruct (run r1 s caps k) eqn:E1.
    + injection H as <-. apply IH1 in E1. destruct E1 as (s' & c' & Hl & Hk).
      exists s', c'. split; [now apply Lang_Alt_l | exact Hk].
    + apply IH2 in H. destruct H as (s' & c' & Hl & Hk).
      exists s', c'. split; [now apply Lang_Alt_r | exact Hk].
  - apply IH in H. destruct H as (s' & c' & Hl & Hk).
    eexists s', _. split; [now constructor | exact Hk].
Qed.
Lemma run_Lang r s s' :
  Lang r s s' ->
  forall caps (k : jsstring -> captures -> option R),
    run r s caps k = None -> exists caps', k s' caps' = None.
Proof.
  induction 1 as [s|c x s Hc|p x s Hp|p s|p x s s' Hp Hl IH
                  |r1 r2 s s1 s2 H1 IH1 H2 IH2|r1 r2 s s' Hl IH
                  |r1 r2 s s' Hl IH|i r s s' Hl IH];
    intros caps k Hrun; simpl in Hrun.
  - now exists caps.
  - apply N.eqb_eq in Hc. rewrite Hc in Hrun. now exists caps.
  - rewrite Hp in Hrun. now exists caps.
  - exists caps. destruct s as [|y s]; [exact Hrun|]. simpl in Hrun.
    destruct (p y); [|exact Hrun].
    destruct (star_match p s (fun s' => k s' caps)); [discriminate | exact Hrun].
  - rewrite Hp in Hrun. apply (IH caps k). simpl.
    destruct (star_match p s (fun s' => k s' caps)); [discriminate | reflexivity].
  - destruct (IH1 _ _ Hrun) as (c1 & Hc1). apply (IH2 _ _ Hc1).
  - apply (IH caps k). destruct (run r1 s caps k); [discriminate | reflexivity].
  - apply (IH caps k). destruct (run r1 s caps k); [discriminate | exact Hrun].
  - destruct (IH _ _ Hrun) as (c1 & Hc1). eauto.
Qed.
End MatcherCorrect.

Lemma match_here_None r s :
  match_here r s = None <-> (forall s', ~ Lang r s s').
Proof.
  unfold match_here. split.
  - intros H s' Hl. destruct (run_Lang _ _ _ Hl _ _ H) as (c & Hc). discriminate.
  - intros H. apply run_complete. intros s' c' Hl. now elim (H s').
Qed.

Lemma search_unfold r s :
  search r s =
  match match_here r s with
  | Some c => Some c
  | None => match s with [] => None | _ :: s' => search r s' end
  end.
Proof. destruct s; reflexivity. Qed.

Lemma search_None r s :
  search r s = None <-> ~ MatchesSomewhere r s.
Proof.
  induction s as [|c s IH]; rewrite search_unfold.
  - destruct (match_here r []) eqn:E.
    + split; [discriminate|]. intros H. exfalso. apply H.
      unfold match_here in E. apply run_sound in E.
      destruct E as (s' & _ & Hl & _). now exists [], [], s'.
    + split; [|reflexivity]. intros _ (a & u & s' & Ha & Hl).
      symmetry in Ha. apply app_eq_nil in Ha. destruct Ha as [-> ->].
      rewrite match_here_None in E. now apply (E s').
  - destruct (match_here r (c :: s)) eqn:E.
    + split; [discriminate|]. intros H. exfalso. apply H.
      unfold match_here in E. apply run_sound in E.
      destruct E as (s' & _ & Hl & _). now exists [], (c :: s), s'.
    + rewrite IH. rewrite match_here_None in E. split.
      * intros H (a & u & s' & Ha & Hl). destruct a as [|x a]; simpl in Ha.
        -- subst u. now apply (E s').
        -- injection Ha as _ ->. apply H. now exists a, u, s'.
      * intros H (a & u & s' & Ha & Hl). apply H.
        exists (c :: a), u, s'. split; [now rewrite Ha | exact Hl].
Qed.

Lemma search_Some r s x :
  search r s = Some x -> MatchesSomewhere r s.
Proof.
  induction s as [|y s IH]; rewrite search_unfold; intros E.
  - destruct (match_here r []) eqn:E1; [|discriminate].
    unfold match_here in E1. apply run_sound in E1.
    destruct E1 as (s' & _ & Hl & _). now exists [], [], s'.
  - destruct (match_here r (y :: s)) eqn:E1.
    + unfold match_here in E1. apply run_sound in E1.
      destruct E1 as (s' & _ & Hl & _). now exists [], (y :: s), s'.
    + destruct (IH E) as (a & u & s' & Ha & Hl).
      exists (y :: a), u, s'. split; [now rewrite Ha | exact Hl].
Qed.

Lemma matches_iff r s :
  matches r s = true <-> MatchesSomewhere r s.
Proof.
  unfold matches, match_. destruct (search r s) eqn:E; simpl.
  - split; [intros _ | reflexivity]. now apply search_Some in E.
  - split; [discriminate|]. intros H. apply search_None in E. now elim E.
Qed.

Lemma Lang_app r s s' b : Lang r s s' -> Lang r (s ++ b) (s' ++ b).
Proof.
  induction 1; simpl; eauto using Lang.
Qed.

Lemma MatchesSomewhere_app r a s b :
  MatchesSomewhere r s -> MatchesSomewhere r (a ++ s ++ b).
Proof.
  intros (a' & u & s' & -> & Hl).
  exists (a ++ a'), (u ++ b), (s' ++ b). split.
  - now rewrite <- !app_assoc.
  - now apply Lang_app.
Qed.

(** ** The tree *)

(** Induction on a node with the hypothesis on every child. *)
Lemma node_ind' (P : node -> Prop) :
  (forall d, P (Text d)) ->
  (forall d, P (Comment d)) ->
  (forall i t c a cs, Forall P cs -> P (Element i t c a cs)) ->
  forall n, P n.
Proof.
  intros HT HC HE.
  fix IH 1. intros [d|d|i t c a cs].
  - apply HT.
  - apply HC.
  - apply HE. induction cs as [|x cs IHcs]; constructor.
    + apply IH.
    + exact IHcs.
Qed.

Lemma inclusiveDescendants_isElement n e :
  In e (inclusiveDescendants n) -> isElement e = true.
Proof.
  induction n as [d|d|i t c a cs IH] using node_ind'; simpl; try tauto.
  intros [<-|H]; [reflexivity|].
  apply in_flat_map in H. destruct H as (x & Hx & He).
  rewrite Forall_forall in IH. now apply (IH x).
Qed.

Lemma flat_map_textContent_split (cs : list node) x :
  In x cs ->
  exists a b, flat_map textContent cs = a ++ textContent x ++ b.
Proof.
  induction cs as [|y cs IH]; simpl; [tauto|].
  intros [->|H].
  - now exists [], (flat_map textContent cs).
  - destruct (IH H) as (a & b & ->).
    exists (textContent y ++ a), b. now rewrite <- app_assoc.
Qed.

(** The text of a descendant is a segment of the text of its ancestor. *)
Lemma textContent_descendant n e :
  In e (inclusiveDescendants n) ->
  exists a b, textContent n = a ++ textContent e ++ b.
Proof.
  induction n as [d|d|i t c a cs IH] using node_ind'; simpl; try tauto.
  intros [<-|H].
  - exists [], []. simpl. now rewrite app_nil_r.
  - apply in_flat_map in H. destruct H as (x & Hx & He).
    rewrite Forall_forall in IH. destruct (IH x Hx He) as (a1 & b1 & E1).
    destruct (flat_map_textContent_split cs x Hx) as (a2 & b2 & ->).
    rewrite E1. exists (a2 ++ a1), (b1 ++ b2).
    now rewrite <- !app_assoc.
Qed.

Lemma matches_descendant re n e :
  In e (inclusiveDescendants n) ->
  matches re (textContent e) = true -> matches re (textContent n) = true.
Proof.
  intros He Hm. destruct (textContent_descendant n e He) as (a & b & ->).
  apply matches_iff. apply MatchesSomewhere_app. now apply matches_iff.
Qed.

(** ** Leaf preference *)

(** C8.  An element with a descendant element whose text matches the
    price pattern does not pass the filter of [findAndProcessPrices]: a
    candidate has no such descendant, and of a parent and a child that both
    contain a price the parent is not a candidate. *)
Theorem leaf_preference (doc : document) (parent d : node) :
  In d (querySelectorAll parent) ->
  matches PRICE_REGEX (textContent d) = true ->
  isPotentialPriceElement doc parent = false
  /\ ~ In parent (potentialPriceElements doc).
Proof.
  intros Hd Hm.
  assert (Hp : isPotentialPriceElement doc parent = false).
  { unfold isPotentialPriceElement.
    destruct (existsb _ ignoredTags); [reflexivity|].
    destruct (classList_contains parent APPENDED_CLASS); [reflexivity|].
    destruct (isBody doc (idOf parent) || isDocumentElement doc (idOf parent));
      [reflexivity|].
    destruct (negb (matches PRICE_REGEX (textContent parent))); [reflexivity|].
    apply negb_false_iff.
    unfold querySelectorAll in Hd. apply in_flat_map in Hd.
    destruct Hd as (c & Hc & Hd).
    unfold hasChildWithPrice. apply existsb_exists. exists c. split.
    - unfold children. apply filter_In. split; [exact Hc|].
      destruct c; simpl in Hd; tauto.
    - eapply matches_descendant; eassumption. }
  split; [exact Hp|].
  unfold potentialPriceElements. rewrite filter_In. intros [_ H]. congruence.
Qed.

(** ** Markers under the two writes *)

Lemma map_flat_map {A B C : Type} (f : B -> C) (g : A -> list B) l :
  map f (flat_map g l) = flat_map (fun x => map f (g x)) l.
Proof.
  induction l as [|x l IH]; simpl; [reflexivity|].
  now rewrite map_app, IH.
Qed.

Lemma marks_Element i t c a cs :
  marks (Element i t c a cs)
  = (i, hasAttribute (Element i t c a cs) PROCESSED_ATTR) :: flat_map marks cs.
Proof. unfold marks. simpl. now rewrite map_flat_map. Qed.

Lemma isProcessed_lookupMark doc j :
  isProcessed doc j = lookupMark j (marks doc).
Proof.
  unfold isProcessed, deref, lookupMark, marks.
  assert (Hel : forall e, In e (allElements doc) -> isElement e = true)
    by (intros e; apply inclusiveDescendants_isElement).
  unfold allElements in *.
  induction (inclusiveDescendants doc) as [|e l IH]; simpl; [reflexivity|].
  assert (He : isElement e = true) by (apply Hel; now left).
  destruct e as [| |k t c a cs]; try discriminate.
  unfold mark at 1 2, idOf. cbn [hasId node_id fst snd].
  destruct (Nat.eqb j k); [reflexivity|].
  apply IH. intros e He'. apply Hel. now right.
Qed.

Lemma ids_marks doc : ids doc = map fst (marks doc).
Proof. unfold ids, marks, allElements. now rewrite map_map. Qed.

Lemma markFirst_app i l1 l2 :
  markFirst i (l1 ++ l2)
  = if existsb (fun p => Nat.eqb i (fst p)) l1
    then markFirst i l1 ++ l2 else l1 ++ markFirst i l2.
Proof.
  induction l1 as [|p l1 IH]; simpl; [reflexivity|].
  destruct (Nat.eqb i (fst p)); simpl; [reflexivity|].
  rewrite IH. now destruct (existsb _ l1).
Qed.

Lemma existsb_fst_In i (l : list (nat * bool)) :
  existsb (fun p => Nat.eqb i (fst p)) l = true <-> In i (map fst l).
Proof.
  rewrite existsb_exists, in_map_iff. split.
  - intros (p & Hp & E). apply Nat.eqb_eq in E. now exists p.
  - intros (p & E & Hp). exists p. split; [exact Hp | now apply Nat.eqb_eq].
Qed.

Lemma map_fst_markFirst i l : map fst (markFirst i l) = map fst l.
Proof.
  induction l as [|p l IH]; simpl; [reflexivity|].
  destruct (Nat.eqb i (fst p)); simpl; [reflexivity | now rewrite IH].
Qed.

Lemma hasAttribute_setAttr j t c a cs name value :
  hasAttribute (Element j t c (setAttr name value a) cs) name = true.
Proof.
  unfold hasAttribute, setAttr. simpl.
  destruct (existsb (fun x => String.eqb name (fst x)) a) eqn:E.
  - apply existsb_exists in E. destruct E as (x & Hx & E).
    apply existsb_exists. exists (fst x, value). split.
    + apply in_map_iff. exists x. now rewrite E.
    + exact E.
  - rewrite existsb_app. simpl. rewrite String.eqb_refl.
    now rewrite orb_true_r.
Qed.

(** [setAttribute] marks the first element with the identity, and nothing
    else changes in the markers. *)
Lemma marks_setAttributeIn i value n :
  match setAttributeIn i PROCESSED_ATTR value n with
  | Some n' => marks n' = markFirst i (marks n) /\ In i (map fst (marks n))
  | None => ~ In i (map fst (marks n))
  end.
Proof.
  induction n as [d|d|j t c a cs IH] using node_ind';
    [simpl; tauto | simpl; tauto | cbn [setAttributeIn]].
  destruct (Nat.eqb_spec i j) as [->|Hne].
  - rewrite !marks_Element. cbn [markFirst fst map]. rewrite Nat.eqb_refl.
    rewrite hasAttribute_setAttr. split; [reflexivity | now left].
  - set (f := fun x => single (setAttributeIn i PROCESSED_ATTR value x)).
    assert (Hl : match rewriteFirst f cs with
                 | Some cs' => flat_map marks cs' = markFirst i (flat_map marks cs)
                               /\ In i (map fst (flat_map marks cs))
                 | None => ~ In i (map fst (flat_map marks cs))
                 end).
    { induction cs as [|x cs IHcs]; simpl; [tauto|].
      inversion IH as [|? ? Hx Hcs]; subst.
      unfold f at 1. unfold single.
      destruct (setAttributeIn i PROCESSED_ATTR value x) as [x'|]; simpl.
      - destruct Hx as [Hx Hin]. rewrite Hx, markFirst_app.
        apply existsb_fst_In in Hin. rewrite Hin.
        split; [reflexivity|]. rewrite map_app, in_app_iff. left.
        now apply existsb_fst_In.
      - specialize (IHcs Hcs).
        destruct (rewriteFirst f cs) as [cs'|]; simpl.
        + destruct IHcs as [E Hin]. rewrite E, markFirst_app.
          destruct (existsb _ (marks x)) eqn:Ex.
          * apply existsb_fst_In in Ex. contradiction.
          * split; [reflexivity|]. rewrite map_app, in_app_iff. now right.
        + rewrite map_app, in_app_iff. tauto. }
    destruct (rewriteFirst f cs) as [cs'|]; cbn [option_map].
    + rewrite !marks_Element. cbn [markFirst fst map].
      destruct (Nat.eqb_spec i j) as [|_]; [contradiction|].
      destruct Hl as [-> Hin]. split; [reflexivity | now right].
    + rewrite marks_Element. cbn [fst map]. intros [E|E]; [congruence | contradiction].
Qed.

(** [insertAfter] adds the markers of the new node and changes no other. *)
Lemma marks_insertAfterIn i new n n' :
  insertAfterIn i new n = Some n' ->
  exists l1 l2, marks n = l1 ++ l2 /\ marks n' = l1 ++ marks new ++ l2.
Proof.
  revert n'.
  induction n as [d|d|j t c a cs IH] using node_ind';
    [discriminate | discriminate | cbn [insertAfterIn]].
  intros n'.
  set (f := fun x => if hasId i x then Some [x; new]
                     else single (insertAfterIn i new x)).
  assert (Hl : forall cs', rewriteFirst f cs = Some cs' ->
               exists l1 l2, flat_map marks cs = l1 ++ l2
                             /\ flat_map marks cs' = l1 ++ marks new ++ l2).
  { induction cs as [|x cs IHcs]; simpl; [discriminate|].
    inversion IH as [|? ? Hx Hcs]; subst. intros cs'.
    unfold f at 1.
    destruct (hasId i x) eqn:Hid.
    - intros [= <-]. simpl. exists (marks x), (flat_map marks cs).
      split; reflexivity.
    - unfold single.
      destruct (insertAfterIn i new x) as [x'|] eqn:Ex; simpl.
      + intros [= <-]. destruct (Hx x' eq_refl) as (l1 & l2 & E1 & E2).
        simpl. rewrite E1, E2. exists l1, (l2 ++ flat_map marks cs).
        now rewrite <- !app_assoc.
      + destruct (rewriteFirst f cs) as [cs''|]; simpl; [|discriminate].
        intros [= <-]. destruct (IHcs Hcs cs'' eq_refl) as (l1 & l2 & E1 & E2).
        simpl. rewrite E1, E2. exists (marks x ++ l1), l2.
        now rewrite <- !app_assoc. }
  destruct (rewriteFirst f cs) as [cs'|]; cbn [option_map]; [|discriminate].
  intros [= <-]. destruct (Hl cs' eq_refl) as (l1 & l2 & E1 & E2).
  rewrite !marks_Element. rewrite E1, E2.
  now exists ((j, hasAttribute (Element j t c a cs) PROCESSED_ATTR) :: l1), l2.
Qed.

Lemma lookupMark_markFirst i j l :
  lookupMark j (markFirst i l)
  = if Nat.eqb i j && existsb (fun p => Nat.eqb i (fst p)) l then true
    else lookupMark j l.
Proof.
  unfold lookupMark.
  induction l as [|p l IH]; simpl.
  - now rewrite andb_false_r.
  - destruct (Nat.eqb_spec i (fst p)) as [E|E]; simpl.
    + destruct (Nat.eqb_spec j (fst p)) as [E'|E'].
      * rewrite E, E', Nat.eqb_refl. reflexivity.
      * destruct (Nat.eqb_spec i j) as [E2|E2]; [congruence | reflexivity].
    + destruct (Nat.eqb_spec j (fst p)) as [E'|E'].
      * destruct (Nat.eqb_spec i j) as [E2|E2]; [congruence | reflexivity].
      * exact IH.
Qed.

Lemma lookupMark_true_In j l : lookupMark j l = true -> In j (map fst l).
Proof.
  unfold lookupMark. induction l as [|p l IH]; simpl; [discriminate|].
  destruct (Nat.eqb_spec j (fst p)) as [E|E]; [now left | right; now apply IH].
Qed.

Lemma lookupMark_insert j l1 m l2 :
  ~ In j (map fst m) ->
  lookupMark j (l1 ++ m ++ l2) = lookupMark j (l1 ++ l2).
Proof.
  intros Hm. unfold lookupMark.
  induction l1 as [|p l1 IH]; simpl.
  - induction m as [|q m IHm]; simpl; [reflexivity|].
    destruct (Nat.eqb_spec j (fst q)) as [E|E].
    + elim Hm. now left.
    + apply IHm. intros H. apply Hm. now right.
  - destruct (Nat.eqb j (fst p)); [reflexivity | exact IH].
Qed.

Lemma freshId_fresh doc : ~ In (freshId doc) (ids doc).
Proof.
  unfold freshId.
  assert (H : forall l x, In x l -> (x <= fold_right Nat.max 0 l)%nat).
  { induction l as [|y l IH]; simpl; [tauto|].
    intros x [->|Hx]; [lia|]. specialize (IH x Hx). lia. }
  intros Hin. apply H in Hin. lia.
Qed.

Lemma isProcessed_setAttribute_mono doc i value j :
  isProcessed doc j = true ->
  isProcessed (setAttribute doc i PROCESSED_ATTR value) j = true.
Proof.
  intros H. unfold setAttribute.
  pose proof (marks_setAttributeIn i value doc) as Hm.
  destruct (setAttributeIn i PROCESSED_ATTR value doc) as [doc'|]; [|exact H].
  destruct Hm as [Hm _].
  rewrite isProcessed_lookupMark in *. rewrite Hm, lookupMark_markFirst, H.
  now destruct (_ && _).
Qed.

Lemma isProcessed_setAttribute_same doc i value :
  In i (ids doc) ->
  isProcessed (setAttribute doc i PROCESSED_ATTR value) i = true.
Proof.
  intros H. unfold setAttribute.
  pose proof (marks_setAttributeIn i value doc) as Hm.
  rewrite ids_marks in H.
  destruct (setAttributeIn i PROCESSED_ATTR value doc) as [doc'|]; [|contradiction].
  destruct Hm as [Hm _].
  rewrite isProcessed_lookupMark, Hm, lookupMark_markFirst, Nat.eqb_refl.
  apply existsb_fst_In in H. now rewrite H.
Qed.

Lemma ids_setAttribute doc i value :
  ids (setAttribute doc i PROCESSED_ATTR value) = ids doc.
Proof.
  unfold setAttribute.
  pose proof (marks_setAttributeIn i value doc) as Hm.
  destruct (setAttributeIn i PROCESSED_ATTR value doc) as [doc'|]; [|reflexivity].
  destruct Hm as [Hm _]. now rewrite !ids_marks, Hm, map_fst_markFirst.
Qed.

Lemma marks_unitPriceSpan i text : marks (unitPriceSpan i text) = [(i, false)].
Proof. reflexivity. Qed.

Lemma isProcessed_insertAfter_span doc i text j :
  isProcessed doc j = true ->
  isProcessed (insertAfter doc i (unitPriceSpan (freshId doc) text)) j = true.
Proof.
  intros H. unfold insertAfter.
  destruct (insertAfterIn i _ doc) as [doc'|] eqn:E; [|exact H].
  apply marks_insertAfterIn in E. destruct E as (l1 & l2 & E1 & E2).
  rewrite isProcessed_lookupMark in *. rewrite E2, marks_unitPriceSpan.
  rewrite lookupMark_insert; [now rewrite <- E1|].
  simpl. intros [Hf|[]].
  apply lookupMark_true_In in H. rewrite <- ids_marks in H.
  rewrite <- Hf in H. now apply freshId_fresh in H.
Qed.

Lemma ids_insertAfter doc i new j :
  In j (ids doc) -> In j (ids (insertAfter doc i new)).
Proof.
  intros H. unfold insertAfter.
  destruct (insertAfterIn i new doc) as [doc'|] eqn:E; [|exact H].
  apply marks_insertAfterIn in E. destruct E as (l1 & l2 & E1 & E2).
  rewrite ids_marks in *. rewrite E2. rewrite E1 in H.
  rewrite !map_app, !in_app_iff in *. tauto.
Qed.

(** ** The walk *)

Lemma findFirst_Some {A : Type} (f : node -> option A) l a :
  findFirst f l = Some a -> exists c, In c l /\ f c = Some a.
Proof.
  induction l as [|c l IH]; simpl; [discriminate|].
  destruct (f c) eqn:E.
  - intros [= <-]. exists c. split; [now left | exact E].
  - intros H. destruct (IH H) as (c' & Hc & Hf). exists c'. split; [now right | exact Hf].
Qed.

Lemma parentIn_descendant i n p :
  parentIn i n = Some p -> In p (inclusiveDescendants n).
Proof.
  revert p.
  induction n as [d|d|j t c a cs IH] using node_ind';
    [discriminate | discriminate | cbn [parentIn]].
  intros p H. apply findFirst_Some in H. destruct H as (x & Hx & H).
  destruct (hasId i x).
  - injection H as <-. simpl. now left.
  - simpl. right. apply in_flat_map. exists x. split; [exact Hx|].
    rewrite Forall_forall in IH. now apply (IH x).
Qed.

Lemma In_allElements_ids doc e : In e (allElements doc) -> In (idOf e) (ids doc).
Proof. intros H. unfold ids. now apply in_map. Qed.

Lemma deref_Some doc i e :
  deref doc i = Some e -> In e (allElements doc) /\ idOf e = i.
Proof.
  unfold deref. intros H. apply find_some in H. destruct H as [Hin Hid].
  split; [exact Hin|]. destruct e; simpl in Hid; try discriminate.
  apply Nat.eqb_eq in Hid. now subst.
Qed.

Lemma validate_Some cont price w data :
  validate cont price w = Some data ->
  container data = idOf cont /\ elPrice data = idOf price /\ validated data.
Proof.
  unfold validate, validated.
  destruct (match_ PRICE_REGEX (textContent price)) as [pm|]; [|discriminate].
  destruct (match_ WEIGHT_REGEX (textContent w)) as [wm|]; [|discriminate].
  destruct (negb (isNaN (cleanNumber (fst pm)))) eqn:E1; [|discriminate].
  destruct (negb (isNaN (cleanNumber (fst wm)))) eqn:E2; [|discriminate].
  destruct (gt (cleanNumber (fst pm)) zero) eqn:E3; [|discriminate].
  destruct (gt (cleanNumber (fst wm)) zero) eqn:E4; [|discriminate].
  simpl. intros [= <-]. simpl.
  apply negb_true_iff in E1, E2. tauto.
Qed.

Lemma walk_Found doc price fuel cur data :
  (forall c, cur = Some c -> In c (allElements doc)) ->
  walk doc price fuel cur = Found data ->
  In (container data) (ids doc) /\ elPrice data = idOf price /\ validated data.
Proof.
  revert cur. induction fuel as [|fuel IH]; intros cur Hcur; simpl; [discriminate|].
  destruct cur as [cont|]; [|discriminate].
  destruct (hasAttribute cont PROCESSED_ATTR); [discriminate|].
  assert (Hnext : walk doc price fuel (parentElement doc (idOf cont)) = Found data ->
                  In (container data) (ids doc) /\ elPrice data = idOf price
                  /\ validated data).
  { apply IH. intros c Hc. now apply parentIn_descendant in Hc. }
  unfold resolveAt.
  destruct (weightMatches cont) as [|w ws]; [exact Hnext|].
  destruct (validate cont price w) as [d|] eqn:Ev; [|exact Hnext].
  intros [= ->]. apply validate_Some in Ev. destruct Ev as (Ec & Ep & Hv).
  split; [|tauto]. rewrite Ec. apply In_allElements_ids. now apply Hcur.
Qed.

(** ** One candidate *)

Lemma processPrice_outcome st i : Outcome st i (processPrice st i).
Proof.
  unfold processPrice.
  destruct (deref (dom st) i) as [price|] eqn:Ed; [|now apply Skipped].
  destruct (hasAttribute price PROCESSED_ATTR) eqn:Hp; [now apply Skipped|].
  destruct (walk (dom st) price 8 (Some price)) as [data| |] eqn:Ew;
    try (now apply Skipped).
  destruct (negb (isProcessed (dom st) (container data))) eqn:Hc;
    [|now apply Skipped].
  apply negb_true_iff in Hc.
  destruct (deref_Some _ _ _ Ed) as [Hin Hid].
  apply walk_Found in Ew; [|intros c [= <-]; exact Hin].
  destruct Ew as (Hcin & Hel & Hv).
  assert (Hi : In i (ids (dom st))) by (rewrite <- Hid; now apply In_allElements_ids).
  assert (Hpi : isProcessed (dom st) i = false).
  { unfold isProcessed. now rewrite Ed. }
  assert (Eel : elPrice data = i) by congruence.
  (* the tree after the two marks *)
  set (d1 := setAttribute (dom st) (container data) PROCESSED_ATTR "true").
  set (d2 := setAttribute d1 (elPrice data) PROCESSED_ATTR "true").
  assert (M2 : forall j, isProcessed (dom st) j = true -> isProcessed d2 j = true).
  { intros j Hj. now apply isProcessed_setAttribute_mono, isProcessed_setAttribute_mono. }
  assert (I2 : forall j, In j (ids (dom st)) -> In j (ids d2)).
  { intros j Hj. unfold d2, d1. now rewrite !ids_setAttribute. }
  assert (P2 : isProcessed d2 i = true).
  { unfold d2. rewrite Eel. apply isProcessed_setAttribute_same.
    unfold d1. now rewrite ids_setAttribute. }
  assert (C2 : isProcessed d2 (container data) = true).
  { unfold d2. apply isProcessed_setAttribute_mono.
    now apply isProcessed_setAttribute_same. }
  unfold processProductBlock, markProcessed, emit. cbn [dom trace].
  fold d1. fold d2.
  assert (Etr : forall tl,
             (((trace st ++ [SetProcessed (container data)]) ++ [Call data])
                ++ [SetProcessed (elPrice data)]) ++ tl
             = trace st ++ SetProcessed (container data) :: Call data
                        :: SetProcessed i :: tl).
  { intros tl. rewrite Eel, <- !app_assoc. reflexivity. }
  assert (Hwarn : Outcome st i
            {| dom := d2;
               trace := (((trace st ++ [SetProcessed (container data)]) ++ [Call data])
                           ++ [SetProcessed (elPrice data)]) ++ [ConsoleWarn] |}).
  { apply Processed with data [ConsoleWarn]; cbn [dom trace]; auto. }
  assert (Hnone : Outcome st i
            {| dom := d2;
               trace := ((trace st ++ [SetProcessed (container data)]) ++ [Call data])
                           ++ [SetProcessed (elPrice data)] |}).
  { apply Processed with data (@nil event); cbn [dom trace]; auto.
    now rewrite <- (Etr []), app_nil_r. }
  assert (Hinj : Outcome st i
            (inject data
               {| dom := d2;
                  trace := ((trace st ++ [SetProcessed (container data)]) ++ [Call data])
                             ++ [SetProcessed (elPrice data)] |})).
  { unfold inject, emit. cbn [dom trace].
    apply Processed with data
      [InsertAfter (elPrice data)
         (unitPriceSpan (freshId d2)
            (calculateAndFormatUnit (priceKr data) (weightValue data)
               (weightUnit data)));
       ConsoleLog]; cbn [dom trace]; auto.
    - rewrite <- app_assoc. apply Etr.
    - right. right. rewrite Eel. eexists. reflexivity.
    - intros j Hj. now apply isProcessed_insertAfter_span, M2.
    - intros j Hj. now apply ids_insertAfter, I2.
    - now apply isProcessed_insertAfter_span.
    - now apply isProcessed_insertAfter_span. }
  destruct (parentElement d2 (elPrice data)); [|exact Hwarn].
  destruct (isDocumentElement d2 (elPrice data) || isBody d2 (elPrice data));
    [exact Hwarn|].
  destruct (nextElementSibling d2 (elPrice data)) as [sib|]; [|exact Hinj].
  destruct (classList_contains sib APPENDED_CLASS); [exact Hnone | exact Hinj].
Qed.

(** ** Invariants of a run *)

Lemma insertions_app a b : insertions (a ++ b) = insertions a ++ insertions b.
Proof. apply flat_map_app. Qed.

Lemma calls_app a b : calls (a ++ b) = calls a ++ calls b.
Proof. apply flat_map_app. Qed.

Lemma last_cons {A : Type} (l : list A) : forall x d, last (x :: l) d = last l x.
Proof.
  induction l as [|y l IH]; intros x d; [reflexivity|].
  change (last (x :: y :: l) d) with (last (y :: l) d).
  now rewrite !IH.
Qed.

Lemma markedBeforeCall_app prev a b :
  markedBeforeCall prev (a ++ b)
  <-> markedBeforeCall prev a /\ markedBeforeCall (last (map Some a) prev) b.
Proof.
  revert prev. induction a as [|e a IH]; intros prev.
  - simpl. tauto.
  - cbn [map]. rewrite last_cons.
    destruct e; simpl; rewrite IH; tauto.
Qed.


Lemma Inv_empty doc : Inv {| dom := doc; trace := [] |}.
Proof.
  split; simpl; try tauto; try constructor.
Qed.

Lemma Inv_log st : Inv st -> Inv (emit ConsoleLog st).
Proof.
  intros [H1 H2 H3 H4 H5 H6 H7].
  split; unfold emit; cbn [dom trace];
    rewrite ?insertions_app, ?calls_app; simpl; rewrite ?app_nil_r; auto.
  - apply markedBeforeCall_app. split; [exact H6 | exact I].
  - intros i span Hin. apply in_app_iff in Hin. destruct Hin as [Hin|[Hin|[]]].
    + exact (H7 i span Hin).
    + discriminate.
Qed.

Lemma Inv_step st i : Inv st -> Inv (processPrice st i).
Proof.
  intros HI. destruct (processPrice_outcome st i)
    as [->|data tail Hpi Hpc Hi Hel Hv Htr Htail Hmono Hids Hi' Hc']; [exact HI|].
  destruct HI as [H1 H2 H3 H4 H5 H6 H7].
  assert (Ecalls : calls (trace (processPrice st i)) = calls (trace st) ++ [data]).
  { rewrite Htr, calls_app. f_equal. simpl.
    destruct Htail as [->|[->|(f & ->)]]; reflexivity. }
  assert (Eins : insertions (trace (processPrice st i))
                 = insertions (trace st) ++ insertions tail).
  { rewrite Htr, insertions_app. reflexivity. }
  assert (Hins : insertions tail = [] \/ insertions tail = [i]).
  { destruct Htail as [->|[->|(f & ->)]]; simpl; auto. }
  assert (Hnew : ~ In i (insertions (trace st))).
  { intros Hin. apply H2 in Hin. congruence. }
  assert (Hnewc : ~ In (container data) (map container (calls (trace st)))).
  { intros Hin. apply in_map_iff in Hin. destruct Hin as (d & Ed & Hd).
    apply H4 in Hd. congruence. }
  split.
  - rewrite Eins. destruct Hins as [->| ->]; [now rewrite app_nil_r|].
    apply NoDup_app; [exact H1 | constructor; [tauto | constructor] |].
    intros x Hx [<-|[]]. contradiction.
  - intros j. rewrite Eins, in_app_iff. intros [Hj|Hj]; [now apply Hmono, H2|].
    destruct Hins as [E|E]; rewrite E in Hj; simpl in Hj; [tauto|].
    destruct Hj as [<-|[]]. exact Hi'.
  - rewrite Ecalls, map_app. simpl.
    apply NoDup_app; [exact H3 | constructor; [tauto | constructor] |].
    intros x Hx [<-|[]]. contradiction.
  - intros d. rewrite Ecalls, in_app_iff. intros [Hd|[<-|[]]];
      [now apply Hmono, H4 | exact Hc'].
  - intros d. rewrite Ecalls, in_app_iff. intros [Hd|[<-|[]]]; [now apply H5 | exact Hv].
  - rewrite Htr. apply markedBeforeCall_app. split; [exact H6|].
    simpl. split; [reflexivity|].
    destruct Htail as [->|[->|(f & ->)]]; simpl; exact I.
  - assert (Hcall : forall d, In d (calls (trace st)) \/ d = data ->
                              In d (calls (trace (processPrice st i)))).
    { intros d Hd. rewrite Ecalls, in_app_iff. simpl. intuition. }
    intros j span Hin. rewrite Htr in Hin. apply in_app_iff in Hin.
    destruct Hin as [Hin|Hin].
    + destruct (H7 j span Hin) as (d & f & Hd & Ed & Es).
      exists d, f. auto.
    + simpl in Hin. destruct Hin as [Hin|[Hin|[Hin|Hin]]]; try discriminate.
      destruct Htail as [->|[->|(f & ->)]]; simpl in Hin.
      * tauto.
      * destruct Hin as [Hin|[]]. discriminate.
      * destruct Hin as [Hin|[Hin|[]]]; [|discriminate].
        injection Hin as <- <-. exists data, f. auto.
Qed.

(** A property of the state that every step of a pass keeps is kept by
    the pass. *)
Lemma findAndProcessPrices_ind (P : state -> Prop) st :
  (forall s, P s -> P (emit ConsoleLog s)) ->
  (forall s i, P s -> P (processPrice s i)) ->
  P st -> P (findAndProcessPrices st).
Proof.
  intros Hlog Hstep H0. unfold findAndProcessPrices.
  generalize (map idOf (potentialPriceElements (dom st))). intros l.
  assert (H : P (emit ConsoleLog st)) by now apply Hlog.
  revert H. generalize (emit ConsoleLog st). clear H0.
  induction l as [|i l IH]; intros s Hs; simpl; [exact Hs|].
  apply IH. now apply Hstep.
Qed.

Lemma Inv_pass st : Inv st -> Inv (findAndProcessPrices st).
Proof.
  apply findAndProcessPrices_ind; [apply Inv_log | intros s i; apply Inv_step].
Qed.

(** ** Append-once *)

Lemma Inv_external st doc' :
  Inv st ->
  (forall j, isProcessed (dom st) j = true -> isProcessed doc' j = true) ->
  Inv {| dom := doc'; trace := trace st |}.
Proof.
  intros [H1 H2 H3 H4 H5 H6 H7] Hm. split; cbn [dom trace]; auto.
Qed.

Lemma Inv_Reachable doc0 st : Reachable doc0 st -> Inv st.
Proof.
  induction 1 as [|st Hr IH|st doc' Hr IH Hm].
  - apply Inv_empty.
  - now apply Inv_pass.
  - now apply Inv_external.
Qed.

Lemma Reachable_passes doc0 n st :
  Reachable doc0 st -> Reachable doc0 (passes n st).
Proof.
  revert st. induction n as [|n IH]; intros st H; simpl; [exact H|].
  now apply IH, Reachable_pass.
Qed.

(** C3.  Over any sequence of passes of the engine, with changes of the
    tree in between that remove no marker, an annotation is inserted right
    after a given price element at most once; in particular over any number
    of passes run one after the other. *)
Theorem append_once (doc : document) (st : state) (i : nat) :
  Reachable doc st ->
  (count_occ Nat.eq_dec (insertions (trace st)) i <= 1)%nat
  /\ forall n, (count_occ Nat.eq_dec
                  (insertions (trace (passes n st))) i <= 1)%nat.
Proof.
  intros Hr. split.
  - apply NoDup_count_occ. apply inv_insertions_once, (Inv_Reachable doc), Hr.
  - intros n. apply NoDup_count_occ.
    apply inv_insertions_once, (Inv_Reachable doc), Reachable_passes, Hr.
Qed.

Lemma resolveAt_container cont price data :
  resolveAt cont price = Some data -> container data = idOf cont.
Proof.
  unfold resolveAt. destruct (weightMatches cont) as [|w ws]; [discriminate|].
  intros H. now apply validate_Some in H.
Qed.

(** ** Distinct identities *)

Lemma find_by_id l e :
  (forall x, In x l -> isElement x = true) ->
  NoDup (map idOf l) -> In e l -> find (hasId (idOf e)) l = Some e.
Proof.
  induction l as [|x l IH]; intros Hel Hnd Hin; [destruct Hin|].
  simpl. inversion Hnd as [|? ? Hx Hnd']; subst.
  assert (Hxe : isElement x = true) by (apply Hel; now left).
  destruct x as [| |j t c a cs]; try discriminate.
  destruct Hin as [<-|Hin].
  - unfold idOf. simpl. now rewrite Nat.eqb_refl.
  - cbn [hasId]. destruct (Nat.eqb_spec (idOf e) j) as [E|E].
    + elim Hx. change (idOf (Element j t c a cs)) with j. rewrite <- E.
      now apply in_map.
    + apply IH; auto. intros y Hy. apply Hel. now right.
Qed.

(** In a well-formed document a reference finds the element it was taken
    from. *)
Lemma deref_wellFormed doc e :
  wellFormed doc -> In e (allElements doc) -> deref doc (idOf e) = Some e.
Proof.
  intros [_ Hnd] Hin. unfold deref. apply find_by_id; auto.
  intros x. apply inclusiveDescendants_isElement.
Qed.

Lemma isElement_setAttribute doc i name value :
  isElement doc = true -> isElement (setAttribute doc i name value) = true.
Proof.
  intros H. unfold setAttribute.
  destruct doc as [| |j t c a cs]; try discriminate. cbn [setAttributeIn].
  destruct (Nat.eqb i j); [reflexivity|].
  now destruct (rewriteFirst _ cs).
Qed.

Lemma isElement_insertAfter doc i new :
  isElement doc = true -> isElement (insertAfter doc i new) = true.
Proof.
  intros H. unfold insertAfter.
  destruct doc as [| |j t c a cs]; try discriminate. cbn [insertAfterIn].
  now destruct (rewriteFirst _ cs).
Qed.

Lemma wellFormed_setAttribute doc i value :
  wellFormed doc -> wellFormed (setAttribute doc i PROCESSED_ATTR value).
Proof.
  intros [He Hnd]. split; [now apply isElement_setAttribute|].
  now rewrite ids_setAttribute.
Qed.

Lemma wellFormed_insertAfter_span doc i text :
  wellFormed doc ->
  wellFormed (insertAfter doc i (unitPriceSpan (freshId doc) text)).
Proof.
  intros [He Hnd]. split; [now apply isElement_insertAfter|].
  unfold insertAfter.
  destruct (insertAfterIn i _ doc) as [doc'|] eqn:E; [|exact Hnd].
  apply marks_insertAfterIn in E. destruct E as (l1 & l2 & E1 & E2).
  pose proof (freshId_fresh doc) as Hf.
  rewrite ids_marks in *. rewrite E2, marks_unitPriceSpan. rewrite E1 in Hnd, Hf.
  rewrite !map_app in *. simpl.
  apply NoDup_Add with (a := freshId doc) (l := map fst l1 ++ map fst l2).
  - apply Add_app.
  - now split.
Qed.

Lemma walk_Found_unmarked doc price fuel cur data :
  (forall c, cur = Some c -> In c (allElements doc)) ->
  walk doc price fuel cur = Found data ->
  exists cont, In cont (allElements doc) /\ container data = idOf cont
               /\ hasAttribute cont PROCESSED_ATTR = false.
Proof.
  revert cur. induction fuel as [|fuel IH]; intros cur Hcur; simpl; [discriminate|].
  destruct cur as [cont|]; [|discriminate].
  destruct (hasAttribute cont PROCESSED_ATTR) eqn:Hm; [discriminate|].
  destruct (resolveAt cont price) as [d|] eqn:Er.
  - intros [= ->]. exists cont. split; [now apply Hcur|].
    split; [now apply resolveAt_container with price | exact Hm].
  - apply IH. intros c Hc. now apply parentIn_descendant in Hc.
Qed.


Lemma wellFormed_processPrice st i :
  wellFormed (dom st) -> wellFormed (dom (processPrice st i)).
Proof.
  intros Hwf. unfold processPrice.
  destruct (deref (dom st) i) as [price|]; [|exact Hwf].
  destruct (hasAttribute price PROCESSED_ATTR); [exact Hwf|].
  destruct (walk (dom st) price 8 (Some price)) as [data| |]; try exact Hwf.
  destruct (negb (isProcessed (dom st) (container data))); [|exact Hwf].
  unfold processProductBlock, markProcessed, inject, emit. cbn [dom trace].
  assert (H2 : wellFormed
                 (setAttribute
                    (setAttribute (dom st) (container data) PROCESSED_ATTR "true")
                    (elPrice data) PROCESSED_ATTR "true"))
    by now apply wellFormed_setAttribute, wellFormed_setAttribute.
  repeat match goal with
         | |- context [match ?x with _ => _ end] => destruct x
         end;
    cbn [dom trace]; try exact H2; now apply wellFormed_insertAfter_span.
Qed.



Lemma wellFormed_fold_processPrice l : forall st,
  wellFormed (dom st) -> wellFormed (dom (fold_left processPrice l st)).
Proof.
  induction l as [|i l IH]; intros st H; simpl; [exact H|].
  now apply IH, wellFormed_processPrice.
Qed.

(** A pass keeps the identities of the elements distinct. *)
Lemma wellFormed_pass doc : wellFormed doc -> wellFormed (dom (pass doc)).
Proof.
  intros H. unfold pass, findAndProcessPrices.
  now apply wellFormed_fold_processPrice.
Qed.


(** ** Reentrancy guard *)


Lemma calls_In tr d : In d (calls tr) <-> In (Call d) tr.
Proof.
  unfold calls. rewrite in_flat_map. split.
  - intros (e & He & Hd). destruct e; simpl in Hd; try tauto.
    destruct Hd as [<-|[]]. exact He.
  - intros H. exists (Call d). split; [exact H | now left].
Qed.



















(** ** Validation guard *)

Lemma gt_zero_not_zero x : gt x zero = true -> forall s, x <> S754_zero s.
Proof. intros H s ->. destruct s; discriminate. Qed.

(** C6 (amended).  A block is built only from two literals whose values are
    not [NaN] and above 0: a weight literal whose value is 0 or [NaN], as
    that of ["0"] and of a text without digits, gives no block;
    [processProductBlock], hence the calculator, is entered with a validated
    block only, whose weight is neither 0 nor [NaN]; and every insertion of
    a pass is the insertion of the text computed from such a block. *)
Theorem validation_guard (doc : document) :
  (forall cont price w data,
      validate cont price w = Some data ->
      validated data
      /\ exists pm wm,
          match_ PRICE_REGEX (textContent price) = Some pm
          /\ match_ WEIGHT_REGEX (textContent w) = Some wm
          /\ priceKr data = cleanNumber (fst pm)
          /\ weightValue data = cleanNumber (fst wm))
  /\ (forall cont price w wm,
        match_ WEIGHT_REGEX (textContent w) = Some wm ->
        isNaN (cleanNumber (fst wm)) = true
        \/ gt (cleanNumber (fst wm)) zero = false ->
        validate cont price w = None)
  /\ (cleanNumber (js "0") = zero /\ gt zero zero = false
      /\ cleanNumber (js "0,0") = zero /\ cleanNumber (js "kg") = NaN)
  /\ (forall data, In (Call data) (trace (pass doc)) ->
        validated data
        /\ (forall s, weightValue data <> S754_zero s)
        /\ weightValue data <> NaN)
  /\ (forall i span, In (InsertAfter i span) (trace (pass doc)) ->
        exists data f,
          In (Call data) (trace (pass doc)) /\ elPrice data = i /\ validated data
          /\ span = unitPriceSpan f
                      (calculateAndFormatUnit (priceKr data) (weightValue data)
                         (weightUnit data))).
Proof.
  assert (HI : Inv (pass doc)) by apply Inv_pass, Inv_empty.
  pose proof calls_In as Hcalls.
  split; [|split; [|split; [|split]]].
  - intros cont price w data Hv. split; [now apply validate_Some in Hv|].
    unfold validate in Hv.
    destruct (match_ PRICE_REGEX (textContent price)) as [pm|]; [|discriminate].
    destruct (match_ WEIGHT_REGEX (textContent w)) as [wm|]; [|discriminate].
    exists pm, wm. destruct (_ && _); [|discriminate].
    injection Hv as <-. simpl. auto.
  - intros cont price w wm Hw Hbad. unfold validate. rewrite Hw.
    destruct (match_ PRICE_REGEX (textContent price)) as [pm|]; [|reflexivity].
    destruct Hbad as [-> | ->]; cbn [negb]; now rewrite ?andb_false_r.
  - repeat split; vm_compute; reflexivity.
  - intros data Hd. apply Hcalls in Hd. pose proof (inv_validated _ HI data Hd) as Hv.
    split; [exact Hv|]. destruct Hv as (_ & Hn & _ & Hg). split.
    + now apply gt_zero_not_zero.
    + intros E. rewrite E in Hn. discriminate.
  - intros i span Hin.
    destruct (inv_insertion_called _ HI i span Hin) as (d & f & Hd & Ed & Es).
    exists d, f. split; [now apply Hcalls|]. split; [exact Ed|].
    split; [now apply (inv_validated _ HI) | exact Es].
Qed.

(** ** Two passes *)

(** What the markers of the tree at the start of a pass say about it. *)
Lemma pass_respects_markers (doc : document) :
  (forall j, isProcessed doc j = true -> isProcessed (dom (pass doc)) j = true)
  /\ (forall i, In i (insertions (trace (pass doc))) -> isProcessed doc i = false).
Proof.
  unfold pass.
  apply (findAndProcessPrices_ind
           (fun s => (forall j, isProcessed doc j = true -> isProcessed (dom s) j = true)
                     /\ (forall i, In i (insertions (trace s)) -> isProcessed doc i = false))).
  - intros s [H1 H2]. unfold emit. cbn [dom trace]. split; [exact H1|].
    intros i. rewrite insertions_app. simpl. rewrite app_nil_r. apply H2.
  - intros s i [H1 H2].
    destruct (processPrice_outcome s i)
      as [->|data tail Hpi _ _ _ _ Htr Htail Hmono _ _ _]; [now split|].
    split; [intros j Hj; now apply Hmono, H1|].
    intros j. rewrite Htr, insertions_app, in_app_iff. intros [Hj|Hj]; [now apply H2|].
    assert (E : j = i).
    { simpl in Hj. destruct Htail as [->|[->|(f & ->)]]; simpl in Hj; intuition. }
    subst j. destruct (isProcessed doc i) eqn:E; [|reflexivity].
    apply H1 in E. congruence.
  - cbn [dom trace]. split; [auto | simpl; tauto].
Qed.

(** C2 (amended).  Of two passes run one after the other: the second one
    inserts no annotation after a price element that bears the marker when
    the first one ends, which every price element the first one annotated
    does; so no price element is annotated twice across both runs. *)
Theorem second_pass_skips_processed (doc : document) :
  let st1 := pass doc in
  let st2 := pass (dom st1) in
  (forall i, isProcessed (dom st1) i = true -> ~ In i (insertions (trace st2)))
  /\ (forall i, In i (insertions (trace st1)) -> isProcessed (dom st1) i = true)
  /\ NoDup (insertions (trace st1) ++ insertions (trace st2)).
Proof.
  cbv zeta.
  assert (H1 : Inv (pass doc)) by apply Inv_pass, Inv_empty.
  assert (H2 : Inv (pass (dom (pass doc)))) by apply Inv_pass, Inv_empty.
  destruct (pass_respects_markers (dom (pass doc))) as [_ Hnew].
  assert (A : forall i, isProcessed (dom (pass doc)) i = true ->
                        ~ In i (insertions (trace (pass (dom (pass doc)))))).
  { intros i Hi Hin. apply Hnew in Hin. congruence. }
  split; [exact A|]. split; [apply H1|].
  apply NoDup_app; [apply H1 | apply H2 |].
  intros i Hi. apply A. now apply H1.
Qed.

(** ** The bounded walk *)

Lemma ancestorChain_length doc fuel cur :
  (List.length (ancestorChain doc fuel cur) <= fuel)%nat.
Proof.
  revert cur. induction fuel as [|fuel IH]; intros [c|]; simpl; try lia.
  specialize (IH (parentElement doc (idOf c))). lia.
Qed.

Lemma walk_Found_in_chain doc price fuel cur data :
  walk doc price fuel cur = Found data ->
  In (container data) (map idOf (ancestorChain doc fuel cur)).
Proof.
  revert cur. induction fuel as [|fuel IH]; intros [cont|]; simpl; try discriminate.
  destruct (hasAttribute cont PROCESSED_ATTR); [discriminate|].
  destruct (resolveAt cont price) as [d|] eqn:E.
  - intros [= ->]. left. symmetry. now apply resolveAt_container with price.
  - intros H. right. now apply IH.
Qed.

Lemma walk_without_weight doc price fuel cur :
  (forall c, In c (ancestorChain doc fuel cur) -> weightMatches c = []) ->
  forall data, walk doc price fuel cur <> Found data.
Proof.
  revert cur. induction fuel as [|fuel IH]; intros [cont|] H data; simpl;
    try discriminate.
  destruct (hasAttribute cont PROCESSED_ATTR); [discriminate|].
  unfold resolveAt. rewrite (H cont) by (simpl; now left).
  apply IH. intros c Hc. apply H. simpl. now right.
Qed.

(** C4.  The walk from a price candidate looks at the candidate and its
    ancestors, 8 elements at most, and a container it finds is one of them;
    when none of them has a descendant whose text matches the weight
    pattern, the candidate is skipped: the state of the engine is the one
    before, with no marker set, nothing inserted and no warning. *)
Theorem bounded_walk (st : state) (i : nat) (price : node) :
  deref (dom st) i = Some price ->
  let chain := ancestorChain (dom st) 8 (Some price) in
  (List.length chain <= 8)%nat
  /\ (forall data, walk (dom st) price 8 (Some price) = Found data ->
                   In (container data) (map idOf chain))
  /\ ((forall c, In c chain -> weightMatches c = []) -> processPrice st i = st).
Proof.
  intros Hd chain. split; [apply ancestorChain_length|].
  split; [intros data; apply walk_Found_in_chain|].
  intros H. unfold processPrice. rewrite Hd.
  destruct (hasAttribute price PROCESSED_ATTR); [reflexivity|].
  pose proof (walk_without_weight (dom st) price 8 (Some price) H) as Hw.
  destruct (walk (dom st) price 8 (Some price)) as [data| |]; try reflexivity.
  now elim (Hw data).
Qed.

(** ** Abort on a processed ancestor *)

Lemma Visits_bound doc price k cont : Visits doc price k cont -> (k <= 7)%nat.
Proof. induction 1; lia. Qed.

Lemma Visits_walk doc price k cont :
  Visits doc price k cont ->
  walk doc price 8 (Some price) = walk doc price (8 - k) (Some cont).
Proof.
  induction 1 as [|k cont next Hv IH Hk Hm Hr Hp]; [reflexivity|].
  rewrite IH. replace (8 - k)%nat with (S (8 - S k)) by lia.
  cbn [walk]. now rewrite Hm, Hr, Hp.
Qed.

Lemma Visits_functional doc price k c1 :
  Visits doc price k c1 -> forall c2, Visits doc price k c2 -> c1 = c2.
Proof.
  induction 1 as [|k cont next Hv IH Hk Hm Hr Hp]; intros c2 H2.
  - now inversion H2.
  - inversion H2 as [|k' cont' next' Hv' Hk' Hm' Hr' Hp']; subst.
    apply IH in Hv'. subst cont'. congruence.
Qed.

(** C5.  When the walk from a price candidate comes to an element that
    bears the marker, it stops there: the result of the walk is the abort,
    no later round exists, and the candidate leaves the state of the engine
    as it was -- no block, no marker set, nothing inserted, no warning. *)
Theorem abort_on_processed (st : state) (i : nat) (price cont : node) (k : nat) :
  deref (dom st) i = Some price ->
  Visits (dom st) price k cont ->
  hasAttribute cont PROCESSED_ATTR = true ->
  walk (dom st) price 8 (Some price) = Aborted
  /\ (forall k' cont', Visits (dom st) price k' cont' -> (k' <= k)%nat)
  /\ processPrice st i = st.
Proof.
  intros Hd Hv Hm.
  assert (Hw : walk (dom st) price 8 (Some price) = Aborted).
  { rewrite (Visits_walk _ _ _ _ Hv). pose proof (Visits_bound _ _ _ _ Hv).
    replace (8 - k)%nat with (S (7 - k)) by lia. cbn [walk]. now rewrite Hm. }
  split; [exact Hw|]. split.
  - intros k' cont' Hv'.
    induction Hv' as [|k' c' next Hv' IH Hk' Hm' Hr' Hp']; [lia|].
    destruct (Nat.eq_dec k' k) as [->|Hne]; [|lia].
    pose proof (Visits_functional _ _ _ _ Hv _ Hv'). subst c'. congruence.
  - unfold processPrice. rewrite Hd, Hw.
    now destruct (hasAttribute price PROCESSED_ATTR).
Qed.

(** ** The filter of the observer *)

Lemma startProcessing_changes c : startProcessing c <> c.
Proof.
  destruct c as [t p l n]. unfold startProcessing. simpl.
  intros H. injection H as _ _ Hn. lia.
Qed.

Lemma hasSelfMutation_spec mutations :
  hasSelfMutation mutations = true
  <-> exists mutation n, In mutation mutations /\ In n (addedNodes mutation)
                         /\ selfGenerated n.
Proof.
  unfold hasSelfMutation, selfGenerated. rewrite existsb_exists. split.
  - intros (m & Hm & H). apply existsb_exists in H. destruct H as (n & Hn & H).
    exists m, n. split; [exact Hm|]. split; [exact Hn|].
    destruct n as [d|d|j t c a cs]; simpl in H; try discriminate.
    split; [reflexivity|]. apply orb_true_iff in H. destruct H as [H|H]; [now left|].
    right. unfold querySelector_class in H.
    destruct (find _ _) as [d|] eqn:E; [|discriminate].
    apply find_some in E. now exists d.
  - intros (m & n & Hm & Hn & He & H). exists m. split; [exact Hm|].
    apply existsb_exists. exists n. split; [exact Hn|].
    destruct n as [d|d|j t c a cs]; simpl in He; try discriminate.
    cbn [nodeType Nat.eqb]. apply orb_true_iff.
    destruct H as [H|(d & Hd & H)]; [now left|]. right.
    unfold querySelector_class.
    destruct (find _ _) as [x|] eqn:E; [reflexivity|].
    apply (find_none _ _ E) in Hd. congruence.
Qed.

(** C1 (amended).  The observer leaves the coordinator as it is, scheduling
    nothing, exactly when some added node of the batch is an element that
    is an annotation or has an annotation among its descendants; in every
    other case it calls [startProcessing], which sets a new timer. *)
Theorem observer_filter (mutations : list MutationRecord) (c : coordinator) :
  let self := exists mutation n, In mutation mutations
                                 /\ In n (addedNodes mutation) /\ selfGenerated n in
  (self -> observer mutations c = c)
  /\ (~ self -> observer mutations c = startProcessing c)
  /\ (observer mutations c = c <-> self).
Proof.
  cbv zeta. pose proof (hasSelfMutation_spec mutations) as H.
  unfold observer. destruct (hasSelfMutation mutations); simpl.
  - split; [reflexivity|]. split; [|tauto].
    intros Hn. elim Hn. now apply H.
  - assert (Hn : ~ (exists mutation n, In mutation mutations
                      /\ In n (addedNodes mutation) /\ selfGenerated n)).
    { intros Hs. apply H in Hs. discriminate. }
    split; [tauto|]. split; [reflexivity|].
    split; [|tauto]. intros E. now apply startProcessing_changes in E.
Qed.

(** ** The calculator *)

Lemma jsstring_eqb_eq a b : jsstring_eqb a b = true <-> a = b.
Proof.
  revert b. induction a as [|x a IH]; intros [|y b]; simpl; try (split; congruence).
  rewrite andb_true_iff, N.eqb_eq, IH. split; [intros [-> ->] | intros [= -> ->]]; auto.
Qed.

(** [toFixed] rounds to the nearest multiple of [10^-f], upwards on a tie:
    the integer [n] it prints has [n - 1/2 <= m * 2^e * 10^f < n + 1/2]. *)
Lemma scaled_round_nearest (m : positive) (e : Z) (f : nat) :
  let n := scaled_round m e f in
  let x10 := (Zpos m * 10 ^ Z.of_nat f)%Z in
  ((0 <= e)%Z -> n = (x10 * 2 ^ e)%Z)
  /\ ((e < 0)%Z ->
      (2 ^ (- e) * (2 * n - 1) <= 2 * x10 < 2 ^ (- e) * (2 * n + 1))%Z).
Proof.
  cbv zeta. unfold scaled_round. split; intros He.
  - destruct (Z.leb_spec 0 e); [reflexivity | lia].
  - destruct (Z.leb_spec 0 e); [lia|].
    set (x := (Z.pos m * 10 ^ Z.of_nat f)%Z).
    set (D := (2 ^ (- e))%Z).
    assert (HD : (0 < D)%Z) by (apply Z.pow_pos_nonneg; lia).
    replace (2 ^ (- e + 1))%Z with (2 * D)%Z
      by (unfold D; rewrite Z.pow_add_r by lia; lia).
    pose proof (Z.mul_div_le (2 * x + D) (2 * D) ltac:(lia)).
    pose proof (Z.mul_succ_div_gt (2 * x + D) (2 * D) ltac:(lia)).
    nia.
Qed.

Lemma calculator_examples :
  calculateAndFormatUnit (of_Z 99) (of_Z 500) (js "g") = js "~198.00 / kg"
  /\ calculateAndFormatUnit (of_Z 36) (of_Z 800) (js "g") = js "~45.00 / kg"
  /\ calculateAndFormatUnit (of_Z 20) (of_Z 2) (js "l") = js "~10.00 / L"
  /\ cleanNumber (js "15,5") = div (of_Z 31) (of_Z 2)
  /\ calculateAndFormatUnit (cleanNumber (js "15,5")) (of_Z 250) (js "ml")
     = js "~62.00 / L".
Proof. repeat split; vm_compute; reflexivity. Qed.

(** ** The text of an annotation is matched by neither pattern *)

(** A pattern reads characters of its classes only. *)
Lemma Lang_consumes (P : N -> Prop) r u s' :
  classesWithin P r -> Lang r u s' ->
  exists c, u = c ++ s' /\ Forall P c.
Proof.
  intros Hr Hl. induction Hl as [s|c x s Hc|p x s Hp|p s|p x s s' Hp Hl IH
                                 |r1 r2 s s1 s2 H1 IH1 H2 IH2|r1 r2 s s' Hl IH
                                 |r1 r2 s s' Hl IH|i r s s' Hl IH];
    cbn [classesWithin] in Hr.
  - now exists [].
  - exists [x]. split; [reflexivity|]. constructor; auto.
  - exists [x]. split; [reflexivity|]. constructor; auto.
  - now exists [].
  - destruct (IH Hr) as (c & -> & Hc). exists (x :: c).
    split; [reflexivity|]. constructor; auto.
  - destruct Hr as [Hr1 Hr2].
    destruct (IH1 Hr1) as (c1 & -> & Hc1). destruct (IH2 Hr2) as (c2 & -> & Hc2).
    exists (c1 ++ c2). split; [now rewrite app_assoc | now apply Forall_app].
  - apply IH, Hr.
  - apply IH, Hr.
  - apply IH, Hr.
Qed.

Lemma Lang_numericLiteral_consumes u s' :
  Lang numericLiteral u s' ->
  exists c, u = c ++ s' /\ Forall (fun x => isNumeric x = true) c.
Proof.
  apply Lang_consumes. unfold isNumeric. cbn [numericLiteral Plus classesWithin].
  repeat split; intros x ->; auto using orb_true_r.
Qed.

Lemma numeric_prefix_split a rest c s' :
  a ++ rest = c ++ s' ->
  Forall (fun x => isNumeric x = true) c ->
  (forall x r, rest = x :: r -> isNumeric x = false) ->
  exists a', a = c ++ a' /\ s' = a' ++ rest.
Proof.
  revert a. induction c as [|y c IH]; intros a E Hc Hr.
  - exists a. simpl in E. now split.
  - inversion Hc as [|? ? Hy Hc']; subst.
    destruct a as [|x a]; simpl in E.
    + destruct rest as [|x r]; [discriminate|].
      injection E as -> _. rewrite (Hr y r eq_refl) in Hy. discriminate.
    + injection E as -> E. destruct (IH a E Hc' Hr) as (a' & -> & ->).
      now exists a'.
Qed.

Section NoMatch.
Variable token : regex.

(** The token does not start with a character of a numeric literal. *)
Hypothesis token_not_numeric :
  forall c s caps (k : jsstring -> captures -> option captures),
    isNumeric c = true -> run (afterNumber token) (c :: s) caps k = None.

Lemma search_skip c s :
  isDigit c = false ->
  search (numberThenToken token) (c :: s) = search (numberThenToken token) s.
Proof.
  intros H. rewrite search_unfold.
  replace (match_here (numberThenToken token) (c :: s)) with (@None captures);
    [reflexivity|].
  unfold match_here, numberThenToken, numericLiteral, Plus. cbn [run]. now rewrite H.
Qed.

Lemma search_skip_all a s :
  Forall (fun c => isDigit c = false) a ->
  search (numberThenToken token) (a ++ s) = search (numberThenToken token) s.
Proof.
  induction 1 as [|c a Hc Ha IH]; [reflexivity|].
  rewrite <- app_comm_cons, search_skip by exact Hc. exact IH.
Qed.

(** A run of digits, dots and commas before a text at which the rest of
    the pattern fails holds no match. *)
Lemma search_numeric_block a rest :
  Forall (fun x => isNumeric x = true) a ->
  (forall x r, rest = x :: r -> isNumeric x = false) ->
  (forall caps (k : jsstring -> captures -> option captures),
      run (afterNumber token) rest caps k = None) ->
  search (numberThenToken token) (a ++ rest) = search (numberThenToken token) rest.
Proof.
  intros Ha Hhead Hrest. induction Ha as [|x a Hx Ha IH]; [reflexivity|].
  rewrite <- app_comm_cons, search_unfold.
  replace (match_here (numberThenToken token) (x :: a ++ rest)) with (@None captures);
    [exact IH|].
  symmetry. unfold match_here, numberThenToken. cbn [run].
  apply run_complete. intros s' caps' Hl.
  apply Lang_numericLiteral_consumes in Hl. destruct Hl as (c & E & Hc).
  destruct (numeric_prefix_split (x :: a) rest c s' E Hc Hhead) as (a' & Ea & ->).
  destruct a' as [|y a']; [apply Hrest|].
  apply token_not_numeric.
  assert (Hall : Forall (fun x => isNumeric x = true) (x :: a)) by now constructor.
  rewrite Ea in Hall. apply Forall_app in Hall. destruct Hall as [_ Hall].
  now inversion Hall.
Qed.

Hypothesis token_not_slash :
  forall label caps (k : jsstring -> captures -> option captures),
    run (afterNumber token) (js " / " ++ label) caps k = None.

Hypothesis token_not_exponent :
  forall s caps (k : jsstring -> captures -> option captures),
    run (afterNumber token) (101 :: 43 :: s) caps k = None.

Lemma search_fixed body sign label :
  FixedShape body ->
  sign = [] \/ sign = js "-" ->
  label = js "kg" \/ label = js "L" ->
  search (numberThenToken token) (js "- ~" ++ sign ++ body ++ js " / " ++ label) = None.
Proof.
  intros Hb Hs Hl.
  assert (Hend : search (numberThenToken token) (js " / " ++ label) = None).
  { destruct Hl as [-> | ->]; reflexivity. }
  assert (Hslash : forall x r, js " / " ++ label = x :: r -> isNumeric x = false).
  { intros x r [= <- _]. reflexivity. }
  rewrite (search_skip_all (js "- ~")) by (repeat constructor).
  rewrite (search_skip_all sign)
    by (destruct Hs as [-> | ->]; repeat constructor).
  destruct Hb as [a Ha|a ds Ha Hds| |].
  - rewrite search_numeric_block; auto.
  - rewrite <- !app_assoc. rewrite search_numeric_block; auto.
    + rewrite (search_skip_all (js "e+")) by (repeat constructor).
      rewrite search_numeric_block; auto.
      eapply Forall_impl; [|exact Hds]. intros c Hc. unfold isNumeric. now rewrite Hc.
    + intros x r [= <- _]. reflexivity.
    + intros caps k. apply token_not_exponent.
  - rewrite (search_skip_all (js "NaN")) by (repeat constructor). exact Hend.
  - rewrite (search_skip_all (js "Infinity")) by (repeat constructor). exact Hend.
Qed.
End NoMatch.

Lemma isNumeric_cases c :
  isNumeric c = true ->
  c = 44 \/ c = 46 \/ c = 48 \/ c = 49 \/ c = 50 \/ c = 51 \/ c = 52
  \/ c = 53 \/ c = 54 \/ c = 55 \/ c = 56 \/ c = 57.
Proof.
  unfold isNumeric, isDigit, isDotOrComma.
  rewrite !orb_true_iff, andb_true_iff, !N.leb_le, !N.eqb_eq. lia.
Qed.

Lemma currency_not_numeric c s caps (k : jsstring -> captures -> option captures) :
  isNumeric c = true -> run (afterNumber currencyTokens) (c :: s) caps k = None.
Proof.
  intros H. apply isNumeric_cases in H.
  repeat (destruct H as [->|H]; [reflexivity|]). subst c. reflexivity.
Qed.

Lemma weight_not_numeric c s caps (k : jsstring -> captures -> option captures) :
  isNumeric c = true -> run (afterNumber weightUnits) (c :: s) caps k = None.
Proof.
  intros H. apply isNumeric_cases in H.
  repeat (destruct H as [->|H]; [reflexivity|]). subst c. reflexivity.
Qed.

Lemma digits_of_uint_digits u :
  Forall (fun c => isDigit c = true) (digits_of_uint u).
Proof. induction u; simpl; constructor; auto. Qed.

Lemma decimal_digits n : Forall (fun c => isDigit c = true) (decimal n).
Proof. apply digits_of_uint_digits. Qed.

Lemma digits_numeric l :
  Forall (fun c => isDigit c = true) l -> Forall (fun c => isNumeric c = true) l.
Proof.
  intros H. eapply Forall_impl; [|exact H].
  intros c Hc. unfold isNumeric. now rewrite Hc.
Qed.

Lemma toString_large_shape m e : FixedShape (toString_large m e).
Proof.
  unfold toString_large.
  destruct (shortest (S754_finite false m e) (Z.shiftl (Z.pos m) e) 1 17) as [s n].
  pose proof (decimal_digits (Z.to_N s)) as Hd.
  pose proof (decimal_digits (Z.to_N (n - 1))) as He.
  destruct (decimal (Z.to_N s)) as [|d [|d' rest]].
  - apply (FixedShape_exponent [] _ (Forall_nil _) He).
  - apply (FixedShape_exponent [d] _ (digits_numeric _ Hd) He).
  - change (FixedShape ((d :: 46 :: d' :: rest) ++ js "e+" ++ decimal (Z.to_N (n - 1)))).
    apply FixedShape_exponent; [|exact He].
    inversion Hd; subst. constructor; [unfold isNumeric; now rewrite H1|].
    constructor; [reflexivity|]. now apply digits_numeric.
Qed.

(** The texts of [toFixed]: a sign and one of the shapes. *)
Lemma toFixed_shape x f :
  exists sign body, toFixed x f = sign ++ body
                    /\ (sign = [] \/ sign = js "-") /\ FixedShape body.
Proof.
  assert (Hsign : forall s : bool, (if s then js "-" else []) = [] \/
                                   (if s then js "-" else []) = js "-")
    by (intros []; auto).
  assert (Hzeros : forall n, Forall (fun c => isDigit c = true) (repeat 48 n)).
  { induction n; simpl; constructor; auto. }
  destruct x as [s|s| |s m e]; simpl.
  - exists [], (if Nat.eqb f 0 then js "0" else js "0." ++ repeat 48 f).
    split; [reflexivity|]. split; [now left|]. apply FixedShape_plain.
    destruct (Nat.eqb f 0); [repeat constructor|].
    simpl. constructor; [reflexivity|]. constructor; [reflexivity|].
    apply digits_numeric, Hzeros.
  - exists (if s then js "-" else []), (js "Infinity").
    split; [reflexivity|]. split; [apply Hsign | apply FixedShape_Infinity].
  - exists [], (js "NaN"). split; [reflexivity|].
    split; [now left | apply FixedShape_NaN].
  - destruct (atLeast1e21 m e).
    + exists (if s then js "-" else []), (toString_large m e).
      split; [reflexivity|]. split; [apply Hsign | apply toString_large_shape].
    + set (ds := repeat 48 (f + 1 - List.length (decimal (Z.to_N (scaled_round m e f))))
                   ++ decimal (Z.to_N (scaled_round m e f))).
      assert (Hds : Forall (fun c => isNumeric c = true) ds).
      { apply digits_numeric, Forall_app. split; [apply Hzeros | apply decimal_digits]. }
      destruct (Nat.eqb f 0).
      * exists (if s then js "-" else []), ds.
        split; [reflexivity|]. split; [apply Hsign | now constructor].
      * exists (if s then js "-" else []),
          (firstn (List.length ds - f) ds ++ 46 :: skipn (List.length ds - f) ds).
        split; [reflexivity|]. split; [apply Hsign|]. apply FixedShape_plain.
        rewrite <- (firstn_skipn (List.length ds - f) ds) in Hds at 1.
        apply Forall_app in Hds. destruct Hds as [Hfirst Hlast].
        apply Forall_app. split; [exact Hfirst|].
        constructor; [reflexivity | exact Hlast].
Qed.

Lemma displayUnit_cases unit : displayUnit unit = js "kg" \/ displayUnit unit = js "L".
Proof.
  unfold displayUnit.
  destruct (_ || _); destruct (jsstring_eqb _ _); auto;
    destruct (jsstring_eqb _ _); auto.
Qed.

Lemma annotation_text_shape price weight unit :
  exists sign body label,
    js "- " ++ calculateAndFormatUnit price weight unit
    = js "- ~" ++ sign ++ body ++ js " / " ++ label
    /\ (sign = [] \/ sign = js "-") /\ FixedShape body
    /\ (label = js "kg" \/ label = js "L").
Proof.
  unfold calculateAndFormatUnit.
  destruct (toFixed_shape (pricePerBaseUnit price weight unit) 2)
    as (sign & body & E & Hs & Hb).
  exists sign, body, (displayUnit unit). rewrite E.
  split; [|split; [exact Hs | split; [exact Hb | apply displayUnit_cases]]].
  rewrite <- !app_assoc. reflexivity.
Qed.

(** C10.  Whatever the price, the weight and the unit, the text of the
    injected element, ["- "] and the result of the calculator, matches
    neither the price pattern nor the weight pattern; so the injected
    element is never a price candidate and never the weight element of a
    walk. *)
Theorem annotation_text_not_rematched (price weight : number) (unit : jsstring) :
  let text := js "- " ++ calculateAndFormatUnit price weight unit in
  matches PRICE_REGEX text = false
  /\ matches WEIGHT_REGEX text = false
  /\ forall (i : nat) (doc : document),
       let span := unitPriceSpan i (calculateAndFormatUnit price weight unit) in
       textContent span = text
       /\ isPotentialPriceElement doc span = false
       /\ matches WEIGHT_REGEX (textContent span) = false.
Proof.
  cbv zeta.
  destruct (annotation_text_shape price weight unit)
    as (sign & body & label & E & Hs & Hb & Hl).
  assert (HP : matches PRICE_REGEX
                 (js "- " ++ calculateAndFormatUnit price weight unit) = false).
  { unfold matches, match_, PRICE_REGEX. rewrite E.
    rewrite (search_fixed currencyTokens currency_not_numeric
               (fun l caps k => eq_refl) (fun s caps k => eq_refl)
               body sign label Hb Hs Hl).
    reflexivity. }
  assert (HW : matches WEIGHT_REGEX
                 (js "- " ++ calculateAndFormatUnit price weight unit) = false).
  { unfold matches, match_, WEIGHT_REGEX. rewrite E.
    rewrite (search_fixed weightUnits weight_not_numeric
               (fun l caps k => eq_refl) (fun s caps k => eq_refl)
               body sign label Hb Hs Hl).
    reflexivity. }
  split; [exact HP|]. split; [exact HW|].
  intros i doc.
  assert (Et : textContent (unitPriceSpan i (calculateAndFormatUnit price weight unit))
               = js "- " ++ calculateAndFormatUnit price weight unit).
  { unfold unitPriceSpan. cbn [textContent flat_map]. now rewrite app_nil_r. }
  split; [exact Et|]. split; [|now rewrite Et].
  unfold isPotentialPriceElement. reflexivity.
Qed.

(** ** The theorems at concrete documents *)

Ltac distinct_ids :=
  vm_compute;
  repeat (apply NoDup_cons; [simpl; intuition discriminate|]);
  apply NoDup_nil.

Lemma splitWeightExample_wellFormed : wellFormed splitWeightExample.
Proof. split; [reflexivity | distinct_ids]. Qed.

(** C2, as stated, fails on [splitWeightExample].  The first pass skips the
    price ["7 kr"]: the first weight it finds, in the text of the [div], is
    ["0 g"]; it annotates ["5 kr 0"].  The annotation splits that text, the
    first weight the second pass finds is ["500 g"], and the second pass
    annotates ["7 kr"]. *)
Lemma second_pass_injects :
  wellFormed splitWeightExample
  /\ map idOf (potentialPriceElements splitWeightExample) = [3; 5]%nat
  /\ insertions (trace (pass splitWeightExample)) = [5%nat]
  /\ trace (pass (dom (pass splitWeightExample)))
     = [ConsoleLog;
        SetProcessed 2;
        Call {| container := 2; elPrice := 3;
                priceKr := of_Z 7; weightValue := of_Z 500;
                weightUnit := js "g" |};
        SetProcessed 3;
        InsertAfter 3 (unitPriceSpan 8 (js "~14.00 / kg"));
        ConsoleLog]
  /\ insertions (trace (pass (dom (pass splitWeightExample)))) = [3%nat].
Proof.
  split; [exact splitWeightExample_wellFormed|].
  repeat split; vm_compute; reflexivity.
Qed.

Lemma overflowExample_wellFormed : wellFormed overflowExample.
Proof. split; [reflexivity | distinct_ids]. Qed.

(** C6, as stated, fails on [overflowExample]: the price literal has the
    value [Infinity], which is not [NaN] and is above 0, so the pair is
    validated; the division gives [Infinity] and the annotation reads
    ["- ~Infinity / kg"]. *)
Lemma division_produces_infinity :
  wellFormed overflowExample
  /\ exists data,
       In (Call data) (trace (pass overflowExample))
       /\ validated data
       /\ priceKr data = cleanNumber (js "1" ++ repeat 48 309)
       /\ div (priceKr data) (weightValue data) = Infinity
       /\ In (InsertAfter (elPrice data) (unitPriceSpan 6 (js "~Infinity / kg")))
             (trace (pass overflowExample)).
Proof.
  split; [exact overflowExample_wellFormed|].
  exists {| container := 3; elPrice := 4; priceKr := Infinity;
            weightValue := of_Z 1; weightUnit := js "kg" |}.
  assert (E : trace (pass overflowExample)
              = [ConsoleLog; SetProcessed 3;
                 Call {| container := 3; elPrice := 4; priceKr := Infinity;
                         weightValue := of_Z 1; weightUnit := js "kg" |};
                 SetProcessed 4;
                 InsertAfter 4 (unitPriceSpan 6 (js "~Infinity / kg"));
                 ConsoleLog]) by (vm_compute; reflexivity).
  rewrite E. cbn [elPrice priceKr weightValue].
  split; [simpl; tauto|].
  split; [repeat split; vm_compute; reflexivity|].
  split; [vm_compute; reflexivity|].
  split; [vm_compute; reflexivity|].
  simpl. tauto.
Qed.

(** C1, as stated, fails on these two batches: the batch of an insertion
    by the engine and an insertion of unrelated content by the page
    schedules nothing, and a batch without added nodes, of which every
    added node is an annotation, schedules a pass. *)
Lemma observer_filter_counterexample :
  (In helloDiv (addedNodes pageRecord) /\ unrelated helloDiv
   /\ observer [annotationRecord; pageRecord] idle = idle
   /\ observer [pageRecord] idle = startProcessing idle
   /\ startProcessing idle <> idle)
  /\ ((forall n, In n (addedNodes removalRecord) -> selfGenerated n)
      /\ observer [removalRecord] idle = startProcessing idle
      /\ processingTimeout (observer [removalRecord] idle) = Some 0%nat).
Proof.
  split; [split; [|split; [|split; [|split]]] | split; [|split]].
  - simpl. tauto.
  - intros [_ [H|(d & Hd & H)]]; [discriminate|]. simpl in Hd. tauto.
  - reflexivity.
  - reflexivity.
  - discriminate.
  - simpl. tauto.
  - reflexivity.
  - reflexivity.
Qed.

(** [leaf_preference] at the [div] of [splitWeightExample] and its child
    ["5 kr 0"]. *)
Lemma leaf_preference_witness :
  let parent := el 4 "DIV" [el 5 "SPAN" [Text (js "5 kr 0")];
                            Text (js " g");
                            el 6 "SPAN" [Text (js "500 g")]] in
  let child := el 5 "SPAN" [Text (js "5 kr 0")] in
  In parent (allElements splitWeightExample)
  /\ In child (querySelectorAll parent)
  /\ matches PRICE_REGEX (textContent parent) = true
  /\ matches PRICE_REGEX (textContent child) = true
  /\ isPotentialPriceElement splitWeightExample parent = false
  /\ ~ In parent (potentialPriceElements splitWeightExample).
Proof.
  cbv zeta.
  split; [simpl; tauto|].
  split; [simpl; tauto|].
  split; [vm_compute; reflexivity|].
  split; [vm_compute; reflexivity|].
  apply (leaf_preference splitWeightExample
           (el 4 "DIV" [el 5 "SPAN" [Text (js "5 kr 0")];
                        Text (js " g");
                        el 6 "SPAN" [Text (js "500 g")]])
           (el 5 "SPAN" [Text (js "5 kr 0")])).
  - simpl. tauto.
  - vm_compute. reflexivity.
Defined.

(** [bounded_walk] at the price of [deepExample]: the weight is in the
    ninth element of the chain. *)
Lemma bounded_walk_witness :
  let st := {| dom := deepExample; trace := [] |} in
  deref deepExample 12 = Some deepPrice
  /\ map idOf (ancestorChain deepExample 8 (Some deepPrice))
     = [12; 11; 10; 9; 8; 7; 6; 5]%nat
  /\ (forall c, In c (ancestorChain deepExample 8 (Some deepPrice)) ->
                weightMatches c = [])
  /\ processPrice st 12 = st.
Proof.
  cbv zeta.
  assert (Hd : deref deepExample 12 = Some deepPrice) by reflexivity.
  assert (Hc : forall c, In c (ancestorChain deepExample 8 (Some deepPrice)) ->
                         weightMatches c = []).
  { intros c Hc. vm_compute in Hc.
    repeat (destruct Hc as [<-|Hc]; [vm_compute; reflexivity|]). destruct Hc. }
  split; [exact Hd|]. split; [reflexivity|]. split; [exact Hc|].
  apply (bounded_walk {| dom := deepExample; trace := [] |} 12 deepPrice Hd).
  exact Hc.
Defined.

(** [abort_on_processed] at the price of [markedExample]: the second round
    of the walk comes to the marked container. *)
Lemma abort_on_processed_witness :
  let st := {| dom := markedExample; trace := [] |} in
  deref markedExample 4 = Some markedPrice
  /\ Visits markedExample markedPrice 1 markedContainer
  /\ hasAttribute markedContainer PROCESSED_ATTR = true
  /\ walk markedExample markedPrice 8 (Some markedPrice) = Aborted
  /\ processPrice st 4 = st.
Proof.
  cbv zeta.
  assert (Hd : deref markedExample 4 = Some markedPrice) by reflexivity.
  assert (Hv : Visits markedExample markedPrice 1 markedContainer).
  { apply Visits_next with markedPrice.
    - apply Visits_first.
    - lia.
    - reflexivity.
    - reflexivity.
    - reflexivity. }
  assert (Hm : hasAttribute markedContainer PROCESSED_ATTR = true) by reflexivity.
  split; [exact Hd|]. split; [exact Hv|]. split; [exact Hm|].
  destruct (abort_on_processed {| dom := markedExample; trace := [] |} 4
              markedPrice markedContainer 1 Hd Hv Hm) as (Hw & _ & Hp).
  split; [exact Hw | exact Hp].
Defined.

(** [append_once] on [splitWeightExample] after two passes: each of the two
    prices has its one annotation, and a third pass adds none. *)
Lemma append_once_witness :
  let st := passes 2 {| dom := splitWeightExample; trace := [] |} in
  Reachable splitWeightExample st
  /\ insertions (trace st) = [5; 3]%nat
  /\ (count_occ Nat.eq_dec (insertions (trace st)) 3 <= 1)%nat
  /\ (count_occ Nat.eq_dec (insertions (trace (passes 1 st))) 3 <= 1)%nat.
Proof.
  cbv zeta.
  assert (Hr : Reachable splitWeightExample
                 (passes 2 {| dom := splitWeightExample; trace := [] |})).
  { apply Reachable_passes, Reachable_start. }
  split; [exact Hr|]. split; [vm_compute; reflexivity|].
  destruct (append_once splitWeightExample _ 3 Hr) as [H1 H2].
  split; [exact H1 | exact (H2 1%nat)].
Defined.

Lemma sharedExample_wellFormed : wellFormed sharedExample.
Proof. split; [reflexivity | distinct_ids]. Qed.


(* ===================================================================== *)
(** * Further properties of the script *)
(* ===================================================================== *)

(** ** What the two patterns match and capture *)

(** Without groups the captures reach the continuation unchanged. *)
Lemma run_noGroups {R : Type} r : forall s caps (k : jsstring -> captures -> option R) x,
  noGroups r ->
  run r s caps k = Some x ->
  exists s', Lang r s s' /\ k s' caps = Some x.
Proof.
  induction r; intros s caps k x Hn H; simpl in *.
  - exists s; split; [constructor | assumption].
  - destruct s as [|y s]; [discriminate|].
    destruct (canonicalize y =? canonicalize c) eqn:E; [|discriminate].
    apply N.eqb_eq in E. exists s; split; [constructor; assumption | assumption].
  - destruct s as [|y s]; [discriminate|].
    destruct (p y) eqn:E; [|discriminate].
    exists s; split; [constructor; assumption | assumption].
  - apply star_match_sound in H. exact H.
  - destruct Hn as [H1 H2].
    apply IHr1 in H; [|assumption]. destruct H as [s1 [L1 H]].
    apply IHr2 in H; [|assumption]. destruct H as [s2 [L2 H]].
    exists s2; split; [econstructor; eassumption | assumption].
  - destruct Hn as [H1 H2].
    destruct (run r1 s caps k) eqn:E.
    + injection H as ->. apply IHr1 in E; [|assumption].
      destruct E as [s' [L E]]. exists s'; split; [apply Lang_Alt_l; assumption | assumption].
    + apply IHr2 in H; [|assumption].
      destruct H as [s' [L E']]. exists s'; split; [apply Lang_Alt_r; assumption | assumption].
  - contradiction.
Qed.

(** A match is a match of the text it consumed. *)
Lemma Lang_exact r u s' :
  Lang r u s' -> exists c, u = c ++ s' /\ Lang r c [].
Proof.
  induction 1.
  - exists []; split; [reflexivity | constructor].
  - exists [x]; split; [reflexivity | constructor; assumption].
  - exists [x]; split; [reflexivity | constructor; assumption].
  - exists []; split; [reflexivity | constructor].
  - destruct IHLang as [c [-> L]]. exists (x :: c); split; [reflexivity|].
    apply Lang_Star_more; assumption.
  - destruct IHLang1 as [c1 [-> L1]]. destruct IHLang2 as [c2 [-> L2]].
    exists (c1 ++ c2); split; [rewrite app_assoc; reflexivity|].
    apply Lang_Seq with c2; [|assumption].
    apply (Lang_app _ _ _ c2) in L1. exact L1.
  - destruct IHLang as [c [-> L]]. exists c; split; [reflexivity | apply Lang_Alt_l; assumption].
  - destruct IHLang as [c [-> L]]. exists c; split; [reflexivity | apply Lang_Alt_r; assumption].
  - destruct IHLang as [c [-> L]]. exists c; split; [reflexivity | constructor; assumption].
Qed.

Lemma firstn_consumed (c s : jsstring) :
  firstn (List.length (c ++ s) - List.length s) (c ++ s) = c.
Proof.
  rewrite length_app.
  replace (List.length c + List.length s - List.length s)%nat with (List.length c + 0)%nat by lia.
  rewrite firstn_app_2. simpl. apply app_nil_r.
Qed.

Lemma search_Some_here r s c :
  search r s = Some c -> exists a u, s = a ++ u /\ match_here r u = Some c.
Proof.
  induction s as [|x s IH]; rewrite search_unfold.
  - destruct (match_here r []) eqn:E; [|discriminate].
    intros [= ->]. exists [], []; split; [reflexivity | assumption].
  - destruct (match_here r (x :: s)) eqn:E.
    + intros [= ->]. exists [], (x :: s); split; [reflexivity | assumption].
    + intros H. destruct (IH H) as [a [u [-> Hu]]].
      exists (x :: a), u; split; [reflexivity | assumption].
Qed.

(** What a match of [numberThenToken token] captures. *)
Lemma match_numberThenToken token text g1 g2 :
  noGroups token ->
  match_ (numberThenToken token) text = Some (g1, g2) ->
  exists a ws rest,
    text = a ++ g1 ++ ws ++ g2 ++ rest
    /\ Lang numericLiteral g1 []
    /\ Lang (Star isWhiteSpace) ws []
    /\ Lang token g2 [].
Proof.
  intros Hn H. unfold match_ in H.
  destruct (search (numberThenToken token) text) as [c|] eqn:E; [|discriminate].
  injection H as H1 H2.
  apply search_Some_here in E. destruct E as [a [u [-> E]]].
  unfold match_here, numberThenToken, afterNumber in E. cbn [run] in E.
  apply run_noGroups in E; [|simpl; tauto].
  destruct E as [s1 [L1 E]].
  apply star_match_sound in E. destruct E as [s2 [L2 E]].
  apply run_noGroups in E; [|assumption].
  destruct E as [s3 [L3 E]]. injection E as <-.
  apply Lang_exact in L1. destruct L1 as [c1 [-> L1]].
  apply Lang_exact in L2. destruct L2 as [c2 [-> L2]].
  apply Lang_exact in L3. destruct L3 as [c3 [-> L3]].
  unfold group in H1, H2. cbn [capture Nat.eqb] in H1, H2.
  rewrite firstn_consumed in H1, H2. subst g1 g2.
  exists a, c2, s3. repeat split; assumption.
Qed.

Lemma Lang_Star_Forall (p : N -> bool) c :
  Lang (Star p) c [] <-> Forall (fun x => p x = true) c.
Proof.
  split.
  - intros H. remember (Star p) as r eqn:Hr. remember (@nil N) as e eqn:He.
    induction H; try discriminate.
    + subst. constructor.
    + injection Hr as ->. constructor; [assumption | apply IHLang; auto].
  - induction 1.
    + constructor.
    + apply Lang_Star_more; assumption.
Qed.

Lemma Lang_Plus_text (p : N -> bool) c :
  Lang (Plus p) c [] <-> c <> [] /\ Forall (fun x => p x = true) c.
Proof.
  unfold Plus. split.
  - intros H. inversion H as [| | | | |r1 r2 s s1 s2 H1 H2| | |]; subst.
    inversion H1; subst. apply Lang_Star_Forall in H2.
    split; [discriminate | constructor; assumption].
  - intros [Hne H]. destruct H as [|x l Hx Hl]; [contradiction|].
    apply Lang_Seq with l; [constructor; assumption | apply Lang_Star_Forall; assumption].
Qed.

Lemma numericLiteral_text g :
  Lang numericLiteral g [] <-> NumericLiteralText g.
Proof.
  unfold numericLiteral, NumericLiteralText, isDigits. split.
  - intros H. inversion H as [| | | | | |r1 r2 s s' H1|r1 r2 s s' H1|]; subst.
    + right.
      inversion H1 as [| | | | |r1 r2 s s1 s2 Ha Hb| | |]; subst.
      inversion Hb as [| | | | |r1 r2 s s3 s2 Hc Hd| | |]; subst.
      inversion Hc; subst.
      apply Lang_exact in Ha. destruct Ha as [ip [-> Ha]].
      apply Lang_Plus_text in Ha. apply Lang_Plus_text in Hd.
      exists ip, x, s3. repeat split; tauto.
    + left. apply Lang_Plus_text in H1. exact H1.
  - intros [H | [ip [sep [fp [-> [Hi [Hs Hf]]]]]]].
    + apply Lang_Alt_r. apply Lang_Plus_text. exact H.
    + apply Lang_Alt_l.
      apply Lang_Seq with (sep :: fp).
      * apply Lang_Plus_text in Hi.
        apply (Lang_app _ _ _ (sep :: fp)) in Hi. exact Hi.
      * apply Lang_Seq with fp; [constructor; assumption|].
        apply Lang_Plus_text. exact Hf.
Qed.

Lemma lits_text w : forall u,
  Lang (lits w) u [] <-> sameLetters u w.
Proof.
  unfold sameLetters. induction w as [|c w IH]; intros u; simpl; split.
  - intros H. inversion H; subst. reflexivity.
  - destruct u; [constructor | discriminate].
  - intros H. inversion H as [| | | | |r1 r2 s s1 s2 H1 H2| | |]; subst.
    inversion H1; subst. simpl. f_equal; [assumption | apply IH; assumption].
  - destruct u as [|x u]; [discriminate|]. simpl. intros [= Hx Hu].
    apply Lang_Seq with u; [constructor; assumption | apply IH; assumption].
Qed.

Lemma Lang_numberThenToken token u s' :
  Lang (numberThenToken token) u s'
  <-> exists g1 ws g2,
        u = g1 ++ ws ++ g2 ++ s'
        /\ NumericLiteralText g1
        /\ Forall (fun x => isWhiteSpace x = true) ws
        /\ Lang token g2 [].
Proof.
  unfold numberThenToken, afterNumber. split.
  - intros H.
    inversion H as [| | | | |r1 r2 s s1 s2 H1 H2| | |]; subst.
    inversion H1 as [| | | | | | | |i r s s0 H1']; subst.
    inversion H2 as [| | | | |r1 r2 s s3 s2 H3 H4| | |]; subst.
    inversion H4 as [| | | | | | | |i r s s0 H4']; subst.
    apply Lang_exact in H1'. destruct H1' as [g1 [-> L1]].
    apply Lang_exact in H3. destruct H3 as [ws [-> L2]].
    apply Lang_exact in H4'. destruct H4' as [g2 [-> L3]].
    exists g1, ws, g2. repeat split.
    + apply numericLiteral_text; assumption.
    + apply Lang_Star_Forall; assumption.
    + assumption.
  - intros [g1 [ws [g2 [-> [H1 [H2 H3]]]]]].
    apply numericLiteral_text in H1. apply Lang_Star_Forall in H2.
    apply Lang_Seq with (ws ++ g2 ++ s').
    + constructor. apply (Lang_app _ _ _ (ws ++ g2 ++ s')) in H1. exact H1.
    + apply Lang_Seq with (g2 ++ s').
      * apply (Lang_app _ _ _ (g2 ++ s')) in H2. exact H2.
      * constructor. apply (Lang_app _ _ _ s') in H3. exact H3.
Qed.

Lemma isDigits_last g :
  isDigits g -> exists g' d, g = g' ++ [d] /\ isDigit d = true.
Proof.
  intros [Hne H]. destruct (exists_last Hne) as [g' [d ->]].
  exists g', d. split; [reflexivity|].
  apply Forall_app in H. destruct H as [_ H]. inversion H; assumption.
Qed.

Lemma NumericLiteralText_last g :
  NumericLiteralText g -> exists g' d, g = g' ++ [d] /\ isDigit d = true.
Proof.
  intros [H | [ip [sep [fp [-> [_ [_ H]]]]]]].
  - apply isDigits_last; assumption.
  - apply isDigits_last in H. destruct H as [g' [d [-> Hd]]].
    exists (ip ++ sep :: g'), d. split; [|assumption].
    rewrite <- app_assoc. reflexivity.
Qed.

Lemma digit_NumericLiteralText d : isDigit d = true -> NumericLiteralText [d].
Proof.
  intros H. left. split; [discriminate | constructor; [assumption | constructor]].
Qed.

(** A text has a match of [numberThenToken token] exactly when it holds a
    digit, then white space, then a token. *)
Lemma matches_numberThenToken token text :
  matches (numberThenToken token) text = true
  <-> exists a d ws u b,
        text = a ++ d :: ws ++ u ++ b
        /\ isDigit d = true
        /\ Forall (fun x => isWhiteSpace x = true) ws
        /\ Lang token u [].
Proof.
  rewrite matches_iff. unfold MatchesSomewhere. split.
  - intros [a [u [s' [-> H]]]].
    apply Lang_numberThenToken in H.
    destruct H as [g1 [ws [g2 [-> [H1 [H2 H3]]]]]].
    apply NumericLiteralText_last in H1. destruct H1 as [g' [d [-> Hd]]].
    exists (a ++ g'), d, ws, g2, s'. repeat split; try assumption.
    rewrite <- !app_assoc. reflexivity.
  - intros [a [d [ws [u [b [-> [Hd [Hws Hu]]]]]]]].
    exists a, (d :: ws ++ u ++ b), b. split; [reflexivity|].
    apply Lang_numberThenToken. exists [d], ws, u.
    repeat split; try assumption.
    apply digit_NumericLiteralText; assumption.
Qed.

Lemma Lang_Alt_inv r1 r2 s s' :
  Lang (Alt r1 r2) s s' -> Lang r1 s s' \/ Lang r2 s s'.
Proof. intros H. inversion H; subst; auto. Qed.

Lemma Lang_weightUnits u : Lang weightUnits u [] <-> isToken weightTokens u.
Proof.
  unfold weightUnits, isToken, weightTokens. split.
  - intros H.
    repeat (apply Lang_Alt_inv in H; destruct H as [H | H]);
      apply lits_text in H; eexists; (split; [|exact H]); simpl; tauto.
  - intros [w [Hw Hs]]. apply lits_text in Hs. simpl in Hw.
    destruct Hw as [<- | [<- | [<- | [<- | []]]]].
    + apply Lang_Alt_l; assumption.
    + apply Lang_Alt_r, Lang_Alt_l; assumption.
    + apply Lang_Alt_r, Lang_Alt_r, Lang_Alt_l; assumption.
    + apply Lang_Alt_r, Lang_Alt_r, Lang_Alt_r; assumption.
Qed.

Lemma Lang_currencyTokens u : Lang currencyTokens u [] <-> isToken currencyTokenList u.
Proof.
  unfold currencyTokens, isToken, currencyTokenList. split.
  - intros H.
    repeat (apply Lang_Alt_inv in H; destruct H as [H | H]);
      apply lits_text in H; eexists; (split; [|exact H]); simpl; tauto.
  - intros [w [Hw Hs]]. apply lits_text in Hs. simpl in Hw.
    destruct Hw as [<- | [<- | [<- | [<- | [<- | [<- | [<- | [<- | []]]]]]]]].
    + apply Lang_Alt_l; assumption.
    + do 1 apply Lang_Alt_r; apply Lang_Alt_l; assumption.
    + do 2 apply Lang_Alt_r; apply Lang_Alt_l; assumption.
    + do 3 apply Lang_Alt_r; apply Lang_Alt_l; assumption.
    + do 4 apply Lang_Alt_r; apply Lang_Alt_l; assumption.
    + do 5 apply Lang_Alt_r; apply Lang_Alt_l; assumption.
    + do 6 apply Lang_Alt_r; apply Lang_Alt_l; assumption.
    + do 7 apply Lang_Alt_r; assumption.
Qed.

(** The code units the [i] flag takes for a small letter: the letter and
    its capital. *)
Lemma canonicalize_small x c :
  97 <= c -> c <= 122 ->
  canonicalize x = canonicalize c -> x = c \/ x = c - 32.
Proof.
  intros H1 H2. unfold canonicalize.
  repeat match goal with
         | |- context [if ?b then _ else _] => destruct b eqn:?
         end;
    repeat match goal with
           | H : (_ && _) = true |- _ => apply andb_true_iff in H; destruct H
           | H : (_ && _) = false |- _ => apply andb_false_iff in H
           | H : _ \/ _ |- _ => destruct H
           | H : negb _ = true |- _ => apply negb_true_iff in H
           | H : negb _ = false |- _ => apply negb_false_iff in H
           | H : (_ <=? _) = true |- _ => apply N.leb_le in H
           | H : (_ <=? _) = false |- _ => apply N.leb_gt in H
           | H : (_ =? _) = true |- _ => apply N.eqb_eq in H
           | H : (_ =? _) = false |- _ => apply N.eqb_neq in H
           end;
    intros; try lia.
Qed.

(** For a code unit without a case the [i] flag takes it alone; for 194,
    itself and 226. *)
Lemma canonicalize_other x c :
  c = 36 \/ c = 163 \/ c = 194 ->
  canonicalize x = canonicalize c -> x = c \/ (c = 194 /\ x = 226).
Proof.
  intros Hc. unfold canonicalize.
  repeat match goal with
         | |- context [if ?b then _ else _] => destruct b eqn:?
         end;
    repeat match goal with
           | H : (_ && _) = true |- _ => apply andb_true_iff in H; destruct H
           | H : (_ && _) = false |- _ => apply andb_false_iff in H
           | H : _ \/ _ |- _ => destruct H
           | H : negb _ = true |- _ => apply negb_true_iff in H
           | H : negb _ = false |- _ => apply negb_false_iff in H
           | H : (_ <=? _) = true |- _ => apply N.leb_le in H
           | H : (_ <=? _) = false |- _ => apply N.leb_gt in H
           | H : (_ =? _) = true |- _ => apply N.eqb_eq in H
           | H : (_ =? _) = false |- _ => apply N.eqb_neq in H
           end;
    intros; try lia.
Qed.

Ltac letter_cases :=
  repeat match goal with
         | H : canonicalize ?x = canonicalize ?c |- _ =>
             first [ apply canonicalize_small in H; [|lia|lia];
                     destruct H as [-> | ->]
                   | apply canonicalize_other in H; [|lia];
                     destruct H as [-> | [? ->]]; try discriminate ]
         end.

Ltac in_list := simpl; repeat first [left; reflexivity | right].

Lemma isToken_weightUnitTexts u :
  isToken weightTokens u <-> In u weightUnitTexts.
Proof.
  unfold isToken, weightTokens, weightUnitTexts. split.
  - intros [w [Hw Hs]]. simpl in Hw.
    destruct Hw as [<- | [<- | [<- | [<- | []]]]];
      unfold sameLetters in Hs;
      destruct u as [|x1 [|x2 [|x3 u]]]; try discriminate Hs;
      injection Hs; intros; letter_cases; in_list.
  - intros H. simpl in H.
    repeat (destruct H as [<- | H]); try contradiction;
      first [ exists (js "g"); split; [in_list | reflexivity]
            | exists (js "kg"); split; [in_list | reflexivity]
            | exists (js "l"); split; [in_list | reflexivity]
            | exists (js "ml"); split; [in_list | reflexivity] ].
Qed.

Lemma isToken_currencyTexts u :
  isToken currencyTokenList u <-> In u currencyTexts.
Proof.
  unfold isToken, currencyTokenList, currencyTexts. split.
  - intros [w [Hw Hs]]. simpl in Hw.
    destruct Hw as [<- | [<- | [<- | [<- | [<- | [<- | [<- | [<- | []]]]]]]]];
      unfold sameLetters in Hs;
      destruct u as [|x1 [|x2 [|x3 [|x4 [|x5 u]]]]]; try discriminate Hs;
      injection Hs; intros; letter_cases; in_list.
  - intros H. simpl in H.
    repeat (destruct H as [<- | H]); try contradiction;
      first [ exists (js "kr"); split; [in_list | reflexivity]
            | exists (js "sek"); split; [in_list | reflexivity]
            | exists (js "eur"); split; [in_list | reflexivity]
            | exists (js "euro"); split; [in_list | reflexivity]
            | exists (js "$"); split; [in_list | reflexivity]
            | exists [194; 163]; split; [in_list | reflexivity]
            | exists (js "usd"); split; [in_list | reflexivity]
            | exists (js "gbp"); split; [in_list | reflexivity] ].
Qed.

Lemma pattern_examples :
  matches WEIGHT_REGEX (js "500 G") = true
  /\ matches WEIGHT_REGEX (js "0,5Kg") = true
  /\ matches WEIGHT_REGEX (js "2 ML") = true
  /\ matches WEIGHT_REGEX (js "3 large") = true
  /\ matches WEIGHT_REGEX (js "500 q") = false
  /\ matches PRICE_REGEX (js "99 KR") = true
  /\ matches PRICE_REGEX (js "12,50 Sek") = true
  /\ matches PRICE_REGEX (js "5 EURO") = true
  /\ matches PRICE_REGEX (js "5 $") = true
  /\ matches PRICE_REGEX (js "99 kg") = false.
Proof. repeat split; vm_compute; reflexivity. Qed.

(** X1.  A text has a match of [WEIGHT_REGEX] exactly when it holds a
    digit, then white space (maybe none), then [g], [kg], [l] or [ml],
    each letter small or capital: one of the twelve texts of
    [weightUnitTexts].  Nothing is asked of what comes before the digit or
    after the unit: the pattern has no word boundary, and ["3 large"]
    holds a weight, as ["500 G"], ["0,5Kg"] and ["2 ML"] do; ["500 q"]
    holds none. *)
Theorem weight_pattern_matches (text : jsstring) :
  (matches WEIGHT_REGEX text = true
   <-> exists a d ws u b,
         text = a ++ d :: ws ++ u ++ b
         /\ isDigit d = true
         /\ Forall (fun x => isWhiteSpace x = true) ws
         /\ In u weightUnitTexts)
  /\ matches WEIGHT_REGEX (js "500 G") = true
  /\ matches WEIGHT_REGEX (js "0,5Kg") = true
  /\ matches WEIGHT_REGEX (js "2 ML") = true
  /\ matches WEIGHT_REGEX (js "3 large") = true
  /\ matches WEIGHT_REGEX (js "500 q") = false.
Proof.
  split.
  - unfold WEIGHT_REGEX. rewrite matches_numberThenToken.
    split; intros (a & d & ws & u & b & H1 & H2 & H3 & H4);
      exists a, d, ws, u, b; repeat split; try assumption.
    + apply isToken_weightUnitTexts, Lang_weightUnits. assumption.
    + apply Lang_weightUnits, isToken_weightUnitTexts. assumption.
  - destruct pattern_examples as (E1 & E2 & E3 & E4 & E5 & _).
    repeat split; assumption.
Qed.

(** X2.  A text has a match of [PRICE_REGEX] exactly when it holds a
    digit, then white space (maybe none), then one of the currency tokens,
    each letter small or capital: one of the texts of [currencyTexts];
    again whatever surrounds them.  So ["99 KR"], ["12,50 Sek"],
    ["5 EURO"] and ["5 $"] hold a price, and ["99 kg"] holds none. *)
Theorem price_pattern_matches (text : jsstring) :
  (matches PRICE_REGEX text = true
   <-> exists a d ws u b,
         text = a ++ d :: ws ++ u ++ b
         /\ isDigit d = true
         /\ Forall (fun x => isWhiteSpace x = true) ws
         /\ In u currencyTexts)
  /\ matches PRICE_REGEX (js "99 KR") = true
  /\ matches PRICE_REGEX (js "12,50 Sek") = true
  /\ matches PRICE_REGEX (js "5 EURO") = true
  /\ matches PRICE_REGEX (js "5 $") = true
  /\ matches PRICE_REGEX (js "99 kg") = false.
Proof.
  split.
  - unfold PRICE_REGEX. rewrite matches_numberThenToken.
    split; intros (a & d & ws & u & b & H1 & H2 & H3 & H4);
      exists a, d, ws, u, b; repeat split; try assumption.
    + apply isToken_currencyTexts, Lang_currencyTokens. assumption.
    + apply Lang_currencyTokens, isToken_currencyTexts. assumption.
  - destruct pattern_examples as (_ & _ & _ & _ & _ & E1 & E2 & E3 & E4 & E5).
    repeat split; assumption.
Qed.

(** ** The unit of a block, in lower case *)

(** The code units the [i] flag takes for a small letter have this letter
    as their lower case. *)
Lemma canonicalize_letter x c :
  97 <= c -> c <= 122 ->
  canonicalize x = canonicalize c -> toLowerCase_unit x = c.
Proof.
  intros H1 H2. unfold canonicalize, toLowerCase_unit.
  repeat match goal with
         | |- context [if ?b then _ else _] => destruct b eqn:?
         end;
    repeat match goal with
           | H : (_ && _) = true |- _ => apply andb_true_iff in H; destruct H
           | H : (_ && _) = false |- _ => apply andb_false_iff in H
           | H : _ \/ _ |- _ => destruct H
           | H : negb _ = true |- _ => apply negb_true_iff in H
           | H : negb _ = false |- _ => apply negb_false_iff in H
           | H : (_ <=? _) = true |- _ => apply N.leb_le in H
           | H : (_ <=? _) = false |- _ => apply N.leb_gt in H
           | H : (_ =? _) = true |- _ => apply N.eqb_eq in H
           | H : (_ =? _) = false |- _ => apply N.eqb_neq in H
           end;
    intros; try lia.
Qed.

Lemma sameLetters_lower w : forall u,
  Forall (fun c => 97 <= c /\ c <= 122) w ->
  sameLetters u w -> toLowerCase u = w.
Proof.
  unfold sameLetters, toLowerCase.
  induction w as [|c w IH]; intros [|x u] Hw H; simpl in *; try discriminate.
  - reflexivity.
  - inversion Hw as [|? ? [H1 H2] Hw']; subst. injection H as Hx Hu.
    f_equal; [apply canonicalize_letter; assumption | apply IH; assumption].
Qed.

Lemma weightToken_lower u :
  isToken weightTokens u -> In (toLowerCase u) weightTokens.
Proof.
  intros [w [Hw Hs]].
  assert (Hl : Forall (fun c => 97 <= c /\ c <= 122) w).
  { simpl in Hw. destruct Hw as [<- | [<- | [<- | [<- | []]]]];
      repeat constructor; simpl; lia. }
  rewrite (sameLetters_lower w u Hl Hs). exact Hw.
Qed.

(** ** [cleanNumber] on a numeric literal *)

Lemma isDigit_not_comma c : isDigit c = true -> (c =? 44) = false.
Proof.
  unfold isDigit. intros H. apply andb_true_iff in H. destruct H as [H _].
  apply N.leb_le in H. apply N.eqb_neq. lia.
Qed.

Lemma replace_first_digits ds rest :
  Forall (fun c => isDigit c = true) ds ->
  replace_first 44 46 (ds ++ rest) = ds ++ replace_first 44 46 rest.
Proof.
  induction 1 as [|c ds Hc _ IH]; simpl; [reflexivity|].
  rewrite (isDigit_not_comma c Hc), IH. reflexivity.
Qed.

Lemma span_digits ds rest :
  Forall (fun c => isDigit c = true) ds ->
  (forall x r, rest = x :: r -> isDigit x = false) ->
  span isDigit (ds ++ rest) = (ds, rest).
Proof.
  intros H Hrest. induction H as [|c ds Hc _ IH]; simpl.
  - destruct rest as [|x r]; [reflexivity|].
    simpl. rewrite (Hrest x r eq_refl). reflexivity.
  - rewrite Hc, IH. reflexivity.
Qed.

Lemma parseFloat_digit_first c s :
  isDigit c = true ->
  parseFloat (c :: s)
  = let '(ip, r1) := span isDigit (c :: s) in
    let '(fp, r2) :=
      match r1 with
      | 46%N :: r => span isDigit r
      | _ => ([], r1)
      end in
    match ip ++ fp with
    | [] => NaN
    | ds => of_decimal false (digitsValue 0 ds)
                       (readExponent r2 - Z.of_nat (List.length fp))
    end.
Proof.
  intros H. unfold isDigit in H. apply andb_true_iff in H. destruct H as [H1 H2].
  apply N.leb_le in H1. apply N.leb_le in H2.
  unfold parseFloat.
  assert (Hw : skipWhiteSpace (c :: s) = c :: s).
  { simpl. replace (isWhiteSpace c) with false; [reflexivity|].
    symmetry. unfold isWhiteSpace.
    repeat (apply orb_false_iff; split); try (apply N.eqb_neq; lia).
    apply andb_false_iff. left. apply N.leb_gt. lia. }
  rewrite Hw.
  assert (Hs : readSign (c :: s) = (false, c :: s)).
  { unfold readSign.
    destruct c as [|p]; [reflexivity|].
    do 6 (destruct p as [p|p|]; try reflexivity); lia. }
  rewrite Hs.
  assert (Hi : startsWith (js "Infinity") (c :: s) = false).
  { change (startsWith (js "Infinity") (c :: s))
      with ((73 =? c) && startsWith (js "nfinity") s).
    replace (73 =? c) with false; [reflexivity|].
    symmetry. apply N.eqb_neq. lia. }
  rewrite Hi. reflexivity.
Qed.

(** Rounding a mantissa that is not negative gives no [NaN] and no
    negative Number. *)
Lemma shr_1_nonneg mrs : (0 <= shr_m mrs)%Z -> (0 <= shr_m (shr_1 mrs))%Z.
Proof.
  destruct mrs as [m r s]. simpl.
  destruct m as [|[p|p|]|[p|p|]]; simpl; lia.
Qed.

Lemma iter_pos_nonneg n : forall mrs,
  (0 <= shr_m mrs)%Z -> (0 <= shr_m (iter_pos shr_1 n mrs))%Z.
Proof.
  induction n as [n IH|n IH|]; intros mrs H; simpl.
  - apply IH, IH, shr_1_nonneg, H.
  - apply IH, IH, H.
  - apply shr_1_nonneg, H.
Qed.

Lemma shr_fexp_nonneg m e l :
  (0 <= m)%Z -> (0 <= shr_m (fst (shr_fexp prec emax m e l)))%Z.
Proof.
  intros H. unfold shr_fexp, shr.
  assert (H0 : (0 <= shr_m (shr_record_of_loc m l))%Z).
  { destruct l as [|[]]; simpl; exact H. }
  destruct (fexp prec emax (Zdigits2 m + e) - e)%Z; simpl; try exact H0.
  apply iter_pos_nonneg, H0.
Qed.

Lemma round_nearest_even_nonneg m l :
  (0 <= m)%Z -> (0 <= round_nearest_even m l)%Z.
Proof.
  intros H. unfold round_nearest_even.
  destruct l as [|[]]; try lia. destruct (Z.even m); lia.
Qed.

Lemma binary_round_aux_nonNegative m e l :
  (0 <= m)%Z -> nonNegative (binary_round_aux prec emax false m e l).
Proof.
  intros H. unfold binary_round_aux.
  pose proof (shr_fexp_nonneg m e l H) as H1.
  destruct (shr_fexp prec emax m e l) as [mrs' e']. simpl in H1.
  pose proof (shr_fexp_nonneg
                (round_nearest_even (shr_m mrs') (loc_of_shr_record mrs')) e' loc_Exact
                (round_nearest_even_nonneg _ _ H1)) as H2.
  destruct (shr_fexp prec emax _ e' loc_Exact) as [mrs'' e'']. simpl in H2.
  destruct (shr_m mrs'') as [|p|p]; simpl.
  - exact I.
  - destruct (_ <=? _)%Z; simpl; reflexivity.
  - lia.
Qed.

Lemma binary_round_nonNegative m e :
  nonNegative (binary_round prec emax false m e).
Proof.
  unfold binary_round.
  destruct (shl_align _ _ _) as [mz ez].
  apply binary_round_aux_nonNegative. lia.
Qed.

Lemma of_decimal_nonNegative m e : nonNegative (of_decimal false m e).
Proof.
  unfold of_decimal. destruct m as [|p]; [exact I|].
  destruct (0 <=? e)%Z eqn:He.
  - apply binary_round_nonNegative.
  - apply Z.leb_gt in He. cbv zeta.
    set (d := (10 ^ (- e))%Z).
    set (s := Z.max 0 (prec + 2 + Zdigits2 d - Zdigits2 (Z.pos p))%Z).
    assert (Hd : (0 < d)%Z) by (apply Z.pow_pos_nonneg; lia).
    pose proof (Z_div_mod (Z.shiftl (Z.pos p) s) d ltac:(lia)) as Hdm.
    destruct (Z.div_eucl (Z.shiftl (Z.pos p) s) d) as [q r].
    apply binary_round_aux_nonNegative.
    destruct Hdm as [Hq Hr].
    assert (Hs : (0 <= Z.shiftl (Z.pos p) s)%Z) by (apply Z.shiftl_nonneg; lia).
    nia.
Qed.

Lemma nonNegative_spec x :
  nonNegative x <-> isNaN x = false /\ gt zero x = false.
Proof.
  unfold gt, zero, SFltb.
  destruct x as [s|[]| |[] m e]; simpl; intuition discriminate.
Qed.

Lemma digits_not_nil (ds : jsstring) : ds <> [] -> exists c r, ds = c :: r.
Proof. destruct ds as [|c r]; [contradiction | eauto]. Qed.

Lemma cleanNumber_digits g :
  isDigits g -> cleanNumber g = of_decimal false (digitsValue 0 g) 0.
Proof.
  intros [Hne H]. unfold cleanNumber.
  rewrite <- (app_nil_r g) at 1. rewrite replace_first_digits by exact H.
  simpl replace_first. rewrite app_nil_r.
  destruct g as [|c r]; [contradiction|].
  rewrite parseFloat_digit_first by (inversion H; assumption).
  rewrite <- (app_nil_r (c :: r)) at 1.
  rewrite span_digits; [|exact H|discriminate].
  cbv zeta iota. rewrite app_nil_r. reflexivity.
Qed.

Lemma cleanNumber_separator ip sep fp :
  isDigits ip -> isDotOrComma sep = true -> isDigits fp ->
  cleanNumber (ip ++ sep :: fp)
  = of_decimal false (digitsValue 0 (ip ++ fp)) (- Z.of_nat (List.length fp)).
Proof.
  intros [Hne Hi] Hs [Hnf Hf]. unfold cleanNumber.
  rewrite replace_first_digits by exact Hi.
  assert (E : replace_first 44 46 (sep :: fp) = 46 :: fp).
  { unfold isDotOrComma in Hs. apply orb_true_iff in Hs.
    simpl. destruct Hs as [Hs | Hs].
    - apply N.eqb_eq in Hs. subst sep. simpl.
      rewrite <- (app_nil_r fp) at 1. rewrite replace_first_digits by exact Hf.
      simpl. now rewrite app_nil_r.
    - rewrite Hs. reflexivity. }
  rewrite E.
  destruct ip as [|c r]; [contradiction|].
  rewrite <- app_comm_cons.
  rewrite parseFloat_digit_first by (inversion Hi; assumption).
  rewrite app_comm_cons.
  rewrite span_digits; [|exact Hi|intros x r' [= <- _]; reflexivity].
  cbv zeta iota.
  rewrite <- (app_nil_r fp) at 1.
  rewrite span_digits; [|exact Hf|discriminate].
  cbv zeta iota.
  destruct ((c :: r) ++ fp) eqn:E'; [discriminate|].
  reflexivity.
Qed.

Lemma digitsValue_decimalValue g : forall acc,
  Forall (fun c => isDigit c = true) g ->
  Z.of_N (digitsValue acc g)
  = fold_left (fun a c => (10 * a + (Z.of_N c - 48))%Z) g (Z.of_N acc).
Proof.
  induction g as [|c g IH]; intros acc H; [reflexivity|].
  inversion H as [|? ? Hc Hg]; subst. cbn [digitsValue fold_left].
  rewrite IH by exact Hg. f_equal.
  unfold isDigit in Hc. apply andb_true_iff in Hc. destruct Hc as [H1 H2].
  apply N.leb_le in H1. lia.
Qed.

Lemma digits2_pos_bounds p :
  (2 ^ (Z.pos (digits2_pos p) - 1) <= Z.pos p < 2 ^ Z.pos (digits2_pos p))%Z.
Proof.
  induction p as [p IH|p IH|]; cbn [digits2_pos]; [| |simpl; lia].
  - rewrite Pos2Z.inj_succ.
    replace (Z.succ (Z.pos (digits2_pos p)) - 1)%Z
      with (Z.succ (Z.pos (digits2_pos p) - 1)) by lia.
    rewrite !Z.pow_succ_r by lia. lia.
  - rewrite Pos2Z.inj_succ.
    replace (Z.succ (Z.pos (digits2_pos p)) - 1)%Z
      with (Z.succ (Z.pos (digits2_pos p) - 1)) by lia.
    rewrite !Z.pow_succ_r by lia. lia.
Qed.

Lemma iter_xO_value k : forall p,
  Z.pos (Pos.iter xO p k) = (Z.pos p * 2 ^ Z.pos k)%Z
  /\ digits2_pos (Pos.iter xO p k) = (digits2_pos p + k)%positive.
Proof.
  induction k as [|k IH] using Pos.peano_ind; intros p.
  - simpl. split; lia.
  - rewrite Pos.iter_succ. destruct (IH p) as [E1 E2].
    cbn [digits2_pos]. rewrite E2. split; [|lia].
    rewrite Pos2Z.inj_xO, E1, Pos2Z.inj_succ, Z.pow_succ_r by lia. lia.
Qed.

(** A positive integer below [2^53] is a Number. *)
Lemma binary_round_integer p :
  (Z.pos p < 2 ^ 53)%Z ->
  isInteger (binary_round prec emax false p 0) (Z.pos p).
Proof.
  intros Hp.
  pose proof (digits2_pos_bounds p) as Hd.
  assert (Hd53 : (Z.pos (digits2_pos p) <= 53)%Z).
  { destruct (Z.le_gt_cases (Z.pos (digits2_pos p)) 53) as [H|H]; [exact H|].
    assert (2 ^ 53 <= 2 ^ (Z.pos (digits2_pos p) - 1))%Z
      by (apply Z.pow_le_mono_r; lia).
    lia. }
  assert (Haux : forall mz ez,
             Z.pos (digits2_pos mz) = 53%Z -> (-52 <= ez <= 0)%Z ->
             binary_round_aux prec emax false (Z.pos mz) ez loc_Exact
             = S754_finite false mz ez).
  { intros mz ez Hm He. unfold binary_round_aux, shr_fexp.
    cbn [Zdigits2 shr_record_of_loc]. rewrite Hm.
    assert (E : (fexp prec emax (53 + ez) - ez = 0)%Z).
    { unfold fexp, SpecFloat.emin, emax, prec. lia. }
    rewrite E. cbn [shr shr_m loc_of_shr_record round_nearest_even Zdigits2].
    rewrite Hm, E. cbn [shr shr_m].
    unfold emax, prec. destruct (Z.leb_spec ez (1024 - 53)); [reflexivity | lia]. }
  unfold binary_round, shl_align.
  assert (Ef : fexp prec emax (Z.pos (digits2_pos p) + 0)
               = (Z.pos (digits2_pos p) - 53)%Z).
  { unfold fexp, SpecFloat.emin, emax, prec. lia. }
  rewrite Ef.
  clear Hd Hp Ef.
  destruct (Z.pos (digits2_pos p) - 53 - 0)%Z as [|k|k] eqn:Ek; [|lia|].
  - rewrite Haux; [|lia|lia]. split; [lia|]. simpl. lia.
  - destruct (iter_xO_value k p) as [E1 E2].
    rewrite Haux; [|rewrite E2; lia|lia].
    split; [lia|]. rewrite E1. f_equal. f_equal. lia.
Qed.

Lemma cleanNumber_integer g :
  isDigits g -> (decimalValue g < 2 ^ 53)%Z ->
  isInteger (cleanNumber g) (decimalValue g).
Proof.
  intros Hg Hv. rewrite cleanNumber_digits by exact Hg.
  unfold decimalValue in *.
  pose proof (digitsValue_decimalValue g 0 (proj2 Hg)) as E.
  change (Z.of_N 0) with 0%Z in E. rewrite <- E in *. clear E.
  unfold of_decimal. destruct (digitsValue 0 g) as [|p]; [reflexivity|].
  cbn [Z.leb Z.compare]. change (Z.to_pos (10 ^ 0)) with 1%positive.
  rewrite Pos.mul_1_r. apply binary_round_integer. exact Hv.
Qed.

Lemma cleanNumber_comma ip fp :
  isDigits ip -> isDigits fp ->
  cleanNumber (ip ++ 44 :: fp) = cleanNumber (ip ++ 46 :: fp).
Proof.
  intros Hi Hf.
  rewrite !cleanNumber_separator by (assumption || reflexivity). reflexivity.
Qed.

(** X3.  On a numeric literal as the two patterns capture it -- digits,
    or digits, a dot or a comma, and digits -- [cleanNumber] is never [NaN]
    and never below zero; it reads a comma as a dot; and on digits that
    write an integer below [2^53] it gives this integer, exactly. *)
Theorem cleanNumber_literal (g : jsstring) :
  NumericLiteralText g ->
  isNaN (cleanNumber g) = false
  /\ gt zero (cleanNumber g) = false
  /\ (forall ip fp, g = ip ++ 44 :: fp -> isDigits ip -> isDigits fp ->
        cleanNumber g = cleanNumber (ip ++ 46 :: fp))
  /\ (isDigits g -> (decimalValue g < 2 ^ 53)%Z ->
        isInteger (cleanNumber g) (decimalValue g)).
Proof.
  intros H.
  assert (Hn : nonNegative (cleanNumber g)).
  { destruct H as [H | (ip & sep & fp & -> & Hi & Hs & Hf)].
    - rewrite cleanNumber_digits by exact H. apply of_decimal_nonNegative.
    - rewrite cleanNumber_separator by assumption. apply of_decimal_nonNegative. }
  apply nonNegative_spec in Hn. destruct Hn as [Hn1 Hn2].
  split; [exact Hn1|]. split; [exact Hn2|]. split.
  - intros ip fp -> Hi Hf. apply cleanNumber_comma; assumption.
  - apply cleanNumber_integer.
Qed.

(** ** The rate of a validated pair *)

Lemma gt_zero_cases x :
  gt x zero = true -> x = Infinity \/ exists m e, x = S754_finite false m e.
Proof.
  unfold gt, zero, SFltb, Infinity.
  destruct x as [s|[]| |[] m e]; simpl; try discriminate; eauto.
Qed.

Lemma div_finite_nonNegative m1 e1 m2 e2 :
  nonNegative (div (S754_finite false m1 e1) (S754_finite false m2 e2)).
Proof.
  unfold div, SFdiv, SFdiv_core_binary. cbv zeta.
  set (e' := Z.min _ _).
  set (m' := match (e1 - e2 - e')%Z with
             | 0%Z => Z.pos m1
             | Z.pos _ => Z.shiftl (Z.pos m1) (e1 - e2 - e')
             | Z.neg _ => 0%Z
             end).
  assert (Hm : (0 <= m')%Z).
  { unfold m'. destruct (e1 - e2 - e')%Z eqn:E; try lia.
    apply Z.shiftl_nonneg. lia. }
  pose proof (Z_div_mod m' (Z.pos m2) ltac:(lia)) as Hdm.
  destruct (Z.div_eucl m' (Z.pos m2)) as [q r].
  apply binary_round_aux_nonNegative. destruct Hdm as [Hq Hr]. nia.
Qed.

Lemma mul_finite_nonNegative m1 e1 m2 e2 :
  nonNegative (mul (S754_finite false m1 e1) (S754_finite false m2 e2)).
Proof.
  unfold mul, SFmul. apply binary_round_aux_nonNegative. lia.
Qed.

Lemma of_Z_1000 : exists m e, of_Z 1000 = S754_finite false m e.
Proof. eexists. eexists. vm_compute. reflexivity. Qed.

Lemma mul_1000_nonNegative x : nonNegative x -> nonNegative (mul x (of_Z 1000)).
Proof.
  destruct of_Z_1000 as (m & e & ->).
  destruct x as [s|s| |s mx ex]; simpl; intros H; try contradiction.
  - exact I.
  - subst s. reflexivity.
  - subst s. apply mul_finite_nonNegative.
Qed.

Lemma toFixed_nonNegative x f :
  nonNegative x \/ x = NaN -> FixedShape (toFixed x f).
Proof.
  assert (Hzeros : forall n, Forall (fun c => isDigit c = true) (repeat 48 n)).
  { induction n; simpl; constructor; auto. }
  intros [H | ->]; [|apply FixedShape_NaN].
  destruct x as [s|s| |s m e]; simpl in H; try contradiction; try subst s.
  - simpl. apply FixedShape_plain.
    destruct (Nat.eqb f 0); [repeat constructor|].
    simpl. constructor; [reflexivity|]. constructor; [reflexivity|].
    apply digits_numeric, Hzeros.
  - apply FixedShape_Infinity.
  - unfold toFixed. cbv zeta. destruct (atLeast1e21 m e).
    + apply toString_large_shape.
    + set (ds := repeat 48 (f + 1 - List.length (decimal (Z.to_N (scaled_round m e f))))
                   ++ decimal (Z.to_N (scaled_round m e f))).
      assert (Hds : Forall (fun c => isNumeric c = true) ds).
      { apply digits_numeric, Forall_app. split; [apply Hzeros | apply decimal_digits]. }
      destruct (Nat.eqb f 0).
      * apply FixedShape_plain. exact Hds.
      * change (FixedShape (firstn (List.length ds - f) ds
                              ++ 46 :: skipn (List.length ds - f) ds)).
        apply FixedShape_plain.
        rewrite <- (firstn_skipn (List.length ds - f) ds) in Hds at 1.
        apply Forall_app in Hds. destruct Hds as [Hfirst Hlast].
        apply Forall_app. split; [exact Hfirst|].
        constructor; [reflexivity | exact Hlast].
Qed.

(** X4.  For a price and a weight that passed the validation (both above
    0), the rate [calculateAndFormatUnit] computes is [NaN] exactly when
    both are [Infinity]; it is never below zero, and the number printed for
    it has no minus sign. *)
Theorem rate_of_validated_pair (p w : number) (u : jsstring) :
  gt p zero = true -> gt w zero = true ->
  let r := pricePerBaseUnit p w u in
  (isNaN r = true <-> p = Infinity /\ w = Infinity)
  /\ gt zero r = false
  /\ FixedShape (toFixed r 2).
Proof.
  intros Hp Hw r.
  assert (Hd : (p = Infinity /\ w = Infinity /\ div p w = NaN)
               \/ (~ (p = Infinity /\ w = Infinity) /\ nonNegative (div p w))).
  { apply gt_zero_cases in Hp. apply gt_zero_cases in Hw.
    destruct Hp as [-> | (m1 & e1 & ->)]; destruct Hw as [-> | (m2 & e2 & ->)].
    - left. repeat split.
    - right. split; [intros [_ H]; discriminate | reflexivity].
    - right. split; [intros [H _]; discriminate | exact I].
    - right. split; [intros [H _]; discriminate | apply div_finite_nonNegative]. }
  assert (Hr : (p = Infinity /\ w = Infinity /\ r = NaN)
               \/ (~ (p = Infinity /\ w = Infinity) /\ nonNegative r)).
  { unfold r, pricePerBaseUnit. cbv zeta.
    destruct (_ || _).
    - destruct Hd as [(-> & -> & E) | [Hn E]].
      + left. split; [reflexivity|]. split; [reflexivity|]. rewrite E. reflexivity.
      + right. split; [exact Hn | apply mul_1000_nonNegative, E].
    - destruct Hd as [(-> & -> & E) | [Hn E]]; [left | right]; auto. }
  destruct Hr as [(-> & -> & E) | [Hn E]].
  - rewrite E. repeat split. apply FixedShape_NaN.
  - pose proof E as E'. apply nonNegative_spec in E'. destruct E' as [E1 E2].
    split; [|split; [exact E2 | apply toFixed_nonNegative; now left]].
    rewrite E1. split; [discriminate | intros H; contradiction].
Qed.

(** ** The digits of the rate *)

Lemma digitsValue_of_uint_acc u : forall acc,
  digitsValue (N.pos acc) (digits_of_uint u) = N.pos (Pos.of_uint_acc u acc).
Proof.
  induction u; intros acc; cbn [digits_of_uint digitsValue Pos.of_uint_acc];
    try reflexivity; rewrite <- IHu; f_equal; lia.
Qed.

Lemma digitsValue_of_uint u : digitsValue 0 (digits_of_uint u) = N.of_uint u.
Proof.
  unfold N.of_uint.
  induction u; cbn [digits_of_uint digitsValue Pos.of_uint]; try reflexivity;
    try exact IHu; rewrite <- digitsValue_of_uint_acc; f_equal.
Qed.

Lemma digitsValue_decimal n : digitsValue 0 (decimal n) = n.
Proof.
  unfold decimal. rewrite digitsValue_of_uint. apply DecimalN.Unsigned.of_to.
Qed.

Lemma digitsValue_zeros k l : digitsValue 0 (repeat 48 k ++ l) = digitsValue 0 l.
Proof. induction k as [|k IH]; [reflexivity | exact IH]. Qed.

Lemma scaled_round_nonneg m e f : (0 <= scaled_round m e f)%Z.
Proof.
  unfold scaled_round. cbv zeta.
  assert (H10 : (0 < 10 ^ Z.of_nat f)%Z) by (apply Z.pow_pos_nonneg; lia).
  destruct (0 <=? e)%Z eqn:E.
  - apply Z.leb_le in E. apply Z.mul_nonneg_nonneg; [nia|].
    apply Z.pow_nonneg. lia.
  - apply Z.leb_gt in E. apply Z.div_pos.
    + assert (0 < 2 ^ (- e))%Z by (apply Z.pow_pos_nonneg; lia). nia.
    + apply Z.pow_pos_nonneg; lia.
Qed.

(** [toFixed(2)] on a finite value below [10^21]. *)
Lemma toFixed_two_decimals s m e :
  atLeast1e21 m e = false ->
  exists ip fp,
    toFixed (S754_finite s m e) 2
    = (if s then js "-" else []) ++ ip ++ 46 :: fp
    /\ ip <> [] /\ List.length fp = 2%nat
    /\ Forall (fun c => isDigit c = true) (ip ++ fp)
    /\ Z.of_N (digitsValue 0 (ip ++ fp)) = scaled_round m e 2.
Proof.
  intros H. unfold toFixed. rewrite H. cbv zeta. cbn [Nat.eqb].
  set (ds0 := decimal (Z.to_N (scaled_round m e 2))).
  set (ds := repeat 48 (2 + 1 - List.length ds0) ++ ds0).
  assert (Hlen : (3 <= List.length ds)%nat).
  { unfold ds. rewrite length_app, repeat_length. lia. }
  exists (firstn (List.length ds - 2) ds), (skipn (List.length ds - 2) ds).
  split; [reflexivity|]. split.
  { intros E. apply (f_equal (@List.length N)) in E.
    rewrite length_firstn in E. simpl in E. lia. }
  split; [rewrite length_skipn; lia|].
  rewrite firstn_skipn. split.
  - unfold ds. apply Forall_app. split; [|apply decimal_digits].
    clear. induction (2 + 1 - List.length ds0)%nat; simpl; constructor; auto.
  - unfold ds. rewrite digitsValue_zeros. unfold ds0. rewrite digitsValue_decimal.
    apply Z2N.id, scaled_round_nonneg.
Qed.

(** X5.  The digits of the rate.  For a finite rate below [10^21] the
    calculator prints ["~"], digits, a dot, two digits, [" / "] and the
    label; the digits, read as an integer [n], are the rate times 100
    rounded to the nearest integer, the larger one on a tie: [n] is no
    more than one half away from [100 * m * 2^e]. *)
Theorem displayed_rate_rounded (p w : number) (u : jsstring) (m : positive) (e : Z) :
  pricePerBaseUnit p w u = S754_finite false m e ->
  atLeast1e21 m e = false ->
  exists ip fp,
    calculateAndFormatUnit p w u
    = js "~" ++ ip ++ 46 :: fp ++ js " / " ++ displayUnit u
    /\ ip <> [] /\ List.length fp = 2%nat
    /\ Forall (fun c => isDigit c = true) (ip ++ fp)
    /\ (let n := Z.of_N (digitsValue 0 (ip ++ fp)) in
        let x100 := (Z.pos m * 100)%Z in
        ((0 <= e)%Z -> n = (x100 * 2 ^ e)%Z)
        /\ ((e < 0)%Z ->
            (2 ^ (- e) * (2 * n - 1) <= 2 * x100 < 2 ^ (- e) * (2 * n + 1))%Z)).
Proof.
  intros Hr Hs.
  destruct (toFixed_two_decimals false m e Hs) as (ip & fp & E & Hip & Hfp & Hd & Hv).
  exists ip, fp. unfold calculateAndFormatUnit. rewrite Hr, E.
  split; [cbn [app]; rewrite <- !app_assoc; reflexivity|].
  split; [exact Hip|]. split; [exact Hfp|]. split; [exact Hd|].
  cbv zeta. rewrite Hv. exact (scaled_round_nearest m e 2).
Qed.

(** ** The calculator on a validated pair *)

(** The code units whose lower case is a given small letter. *)
Lemma toLowerCase_unit_small x c :
  97 <= c -> c <= 122 ->
  (toLowerCase_unit x = c <-> x = c \/ x = c - 32 \/ (c = 107 /\ x = 8490)).
Proof.
  intros H1 H2. unfold toLowerCase_unit.
  destruct ((65 <=? x) && (x <=? 90)) eqn:E1.
  - apply andb_true_iff in E1. destruct E1 as [Ea Eb].
    apply N.leb_le in Ea, Eb. lia.
  - apply andb_false_iff in E1.
    destruct (N.eqb_spec x 8490) as [->|E2].
    + lia.
    + destruct E1 as [E1|E1]; apply N.leb_gt in E1; lia.
Qed.

Ltac lower_cases H :=
  match type of H with
  | toLowerCase ?u = _ =>
      unfold toLowerCase in H;
      destruct u as [|? [|? [|? ?]]]; try discriminate H;
      cbn [map js N_of_ascii] in H; injection H as H; intros;
      repeat match goal with
             | H' : toLowerCase_unit _ = _ |- _ =>
                 apply toLowerCase_unit_small in H'; [|lia|lia];
                 destruct H' as [-> | [-> | [? ->]]]; try discriminate
             end
  end.

Lemma perThousandUnits_spec unit :
  jsstring_eqb (toLowerCase unit) (js "g")
  || jsstring_eqb (toLowerCase unit) (js "ml") = true
  <-> In unit perThousandUnits.
Proof.
  rewrite orb_true_iff, !jsstring_eqb_eq. unfold perThousandUnits. split.
  - intros [H | H]; lower_cases H; simpl; repeat first [left; reflexivity | right].
  - intros H. simpl in H.
    repeat (destruct H as [<- | H]); try contradiction;
      first [left; reflexivity | right; reflexivity].
Qed.

Lemma kilogramUnits_spec unit :
  displayUnit unit = js "kg" <-> In unit kilogramUnits.
Proof.
  unfold displayUnit, kilogramUnits. cbv zeta.
  pose proof (jsstring_eqb_eq (toLowerCase unit) (js "g")) as Hg.
  pose proof (jsstring_eqb_eq (toLowerCase unit) (js "kg")) as Hkg.
  pose proof (jsstring_eqb_eq (toLowerCase unit) (js "ml")) as Hml.
  split.
  - intros H.
    assert (Hc : toLowerCase unit = js "g" \/ toLowerCase unit = js "kg").
    { destruct (jsstring_eqb (toLowerCase unit) (js "g")); [left; now apply Hg|].
      destruct (jsstring_eqb (toLowerCase unit) (js "kg")); [right; now apply Hkg|].
      destruct (jsstring_eqb (toLowerCase unit) (js "ml")); discriminate. }
    destruct Hc as [Hc | Hc]; lower_cases Hc; simpl;
      repeat first [left; reflexivity | right].
  - intros H. simpl in H.
    repeat (destruct H as [<- | H]); try contradiction; reflexivity.
Qed.

(** The rate of a validated pair: [NaN] for two infinities, otherwise not
    negative. *)
Lemma rate_cases p w u :
  gt p zero = true -> gt w zero = true ->
  (p = Infinity /\ w = Infinity /\ pricePerBaseUnit p w u = NaN)
  \/ nonNegative (pricePerBaseUnit p w u).
Proof.
  intros Hp Hw.
  assert (Hd : (p = Infinity /\ w = Infinity /\ div p w = NaN)
               \/ nonNegative (div p w)).
  { apply gt_zero_cases in Hp. apply gt_zero_cases in Hw.
    destruct Hp as [-> | (m1 & e1 & ->)]; destruct Hw as [-> | (m2 & e2 & ->)].
    - left. repeat split.
    - right. reflexivity.
    - right. exact I.
    - right. apply div_finite_nonNegative. }
  unfold pricePerBaseUnit. cbv zeta.
  destruct (_ || _).
  - destruct Hd as [(-> & -> & E) | E].
    + left. split; [reflexivity|]. split; [reflexivity|]. rewrite E. reflexivity.
    + right. apply mul_1000_nonNegative, E.
  - destruct Hd as [(-> & -> & E) | E]; [left | right]; auto.
Qed.

Lemma decimal_nonempty n : decimal n <> [].
Proof.
  unfold decimal. destruct n as [|p]; [discriminate|].
  simpl. pose proof (DecimalPos.Unsigned.to_uint_nonnil p) as H.
  destruct (Pos.to_uint p); [contradiction | discriminate ..].
Qed.

(** Number::toString on a value of at least [10^21] writes an exponent. *)
Lemma toString_large_text m e : ExponentText (toString_large m e).
Proof.
  unfold toString_large, ExponentText.
  destruct (shortest (S754_finite false m e) (Z.shiftl (Z.pos m) e) 1 17) as [s n].
  pose proof (decimal_digits (Z.to_N s)) as Hd.
  pose proof (decimal_nonempty (Z.to_N s)) as Hn.
  pose proof (decimal_digits (Z.to_N (n - 1))) as He.
  pose proof (decimal_nonempty (Z.to_N (n - 1))) as Hne.
  destruct (decimal (Z.to_N s)) as [|d [|d' rest]]; [contradiction | |].
  - exists d, [], (decimal (Z.to_N (n - 1))).
    inversion Hd; subst. repeat split; auto.
  - exists d, (d' :: rest), (decimal (Z.to_N (n - 1))).
    inversion Hd; subst. repeat split; auto.
Qed.

Lemma large_rate_example :
  gt (cleanNumber (js "1000000000000000000000")) zero = true
  /\ gt (cleanNumber (js "1")) zero = true
  /\ isNaN (cleanNumber (js "1000000000000000000000")) = false
  /\ isNaN (cleanNumber (js "1")) = false
  /\ pricePerBaseUnit (cleanNumber (js "1000000000000000000000"))
       (cleanNumber (js "1")) (js "kg") = of_Z (10 ^ 21)
  /\ calculateAndFormatUnit (cleanNumber (js "1000000000000000000000"))
       (cleanNumber (js "1")) (js "kg") = js "~1e+21 / kg".
Proof. repeat split; vm_compute; reflexivity. Qed.

Lemma large_rate_examples :
  calculateAndFormatUnit (cleanNumber (js "2500000000000000000000"))
    (of_Z 1) (js "kg") = js "~2.5e+21 / kg"
  /\ calculateAndFormatUnit (cleanNumber (js "123456789012345678901234"))
       (of_Z 1) (js "l") = js "~1.2345678901234569e+23 / L"
  /\ calculateAndFormatUnit (cleanNumber (js "3000000000000000000"))
       (of_Z 1) (js "g") = js "~3e+21 / kg"
  /\ calculateAndFormatUnit (cleanNumber (js "999999999999999900000"))
       (of_Z 1) (js "kg") = js "~999999999999999868928.00 / kg".
Proof. repeat split; vm_compute; reflexivity. Qed.

Lemma capital_unit_examples :
  calculateAndFormatUnit (of_Z 99) (of_Z 500) (js "G") = js "~198.00 / kg"
  /\ calculateAndFormatUnit (of_Z 36) (of_Z 2) (js "KG") = js "~18.00 / kg"
  /\ calculateAndFormatUnit (of_Z 20) (of_Z 500) (js "Ml") = js "~40.00 / L"
  /\ calculateAndFormatUnit (of_Z 20) (of_Z 2) (js "L") = js "~10.00 / L".
Proof. repeat split; vm_compute; reflexivity. Qed.

(** C7.  For a price and a weight above 0: the rate is
    [(price / weight) * 1000] when the unit is [g] or [ml], in small or
    capital letters, and [price / weight] otherwise; the label is ["kg"]
    for [g] and [kg] and ["L"] otherwise; the text is ["~"], the number,
    [" / "] and the label, where the number is the rate rounded to two
    decimals when the rate is finite and below [10^21], an exponent
    notation from [10^21] on, ["Infinity"] for an infinite rate and
    ["NaN"] when price and weight are both [Infinity].  With the four
    examples of the specification, the value 15.5 of the literal ["15,5"],
    units in capital letters, and rates around [10^21]. *)
Theorem unit_price_calculation (price weight : number) (unit : jsstring) :
  gt price zero = true -> gt weight zero = true ->
  let rate := pricePerBaseUnit price weight unit in
  let label := displayUnit unit in
  (In unit perThousandUnits -> rate = mul (div price weight) (of_Z 1000))
  /\ (~ In unit perThousandUnits -> rate = div price weight)
  /\ (In unit kilogramUnits -> label = js "kg")
  /\ (~ In unit kilogramUnits -> label = js "L")
  /\ (exists number,
        calculateAndFormatUnit price weight unit
        = js "~" ++ number ++ js " / " ++ label
        /\ match rate with
           | S754_finite s m e =>
               s = false
               /\ (atLeast1e21 m e = false -> TwoDecimalsText m e number)
               /\ (atLeast1e21 m e = true -> ExponentText number)
           | S754_zero _ => number = js "0.00"
           | S754_infinity s => s = false /\ number = js "Infinity"
           | S754_nan =>
               price = Infinity /\ weight = Infinity /\ number = js "NaN"
           end)
  /\ calculateAndFormatUnit (of_Z 99) (of_Z 500) (js "g") = js "~198.00 / kg"
  /\ calculateAndFormatUnit (of_Z 36) (of_Z 800) (js "g") = js "~45.00 / kg"
  /\ calculateAndFormatUnit (of_Z 20) (of_Z 2) (js "l") = js "~10.00 / L"
  /\ cleanNumber (js "15,5") = div (of_Z 31) (of_Z 2)
  /\ calculateAndFormatUnit (cleanNumber (js "15,5")) (of_Z 250) (js "ml")
     = js "~62.00 / L"
  /\ calculateAndFormatUnit (of_Z 99) (of_Z 500) (js "G") = js "~198.00 / kg"
  /\ calculateAndFormatUnit (of_Z 36) (of_Z 2) (js "KG") = js "~18.00 / kg"
  /\ calculateAndFormatUnit (of_Z 20) (of_Z 500) (js "Ml") = js "~40.00 / L"
  /\ calculateAndFormatUnit (of_Z 20) (of_Z 2) (js "L") = js "~10.00 / L"
  /\ calculateAndFormatUnit (cleanNumber (js "2500000000000000000000"))
       (of_Z 1) (js "kg") = js "~2.5e+21 / kg"
  /\ calculateAndFormatUnit (cleanNumber (js "123456789012345678901234"))
       (of_Z 1) (js "l") = js "~1.2345678901234569e+23 / L"
  /\ calculateAndFormatUnit (cleanNumber (js "3000000000000000000"))
       (of_Z 1) (js "g") = js "~3e+21 / kg"
  /\ calculateAndFormatUnit (cleanNumber (js "999999999999999900000"))
       (of_Z 1) (js "kg") = js "~999999999999999868928.00 / kg".
Proof.
  intros Hp Hw. cbv zeta.
  pose proof (perThousandUnits_spec unit) as Ht.
  pose proof (kilogramUnits_spec unit) as Hk.
  split; [|split; [|split; [|split; [|split]]]].
  - intros H. apply Ht in H. unfold pricePerBaseUnit. cbv zeta.
    rewrite H. reflexivity.
  - intros H. unfold pricePerBaseUnit. cbv zeta.
    destruct (_ || _); [elim H; now apply Ht | reflexivity].
  - intros H. now apply Hk.
  - intros H. destruct (displayUnit_cases unit) as [E | E]; [|exact E].
    elim H. now apply Hk.
  - exists (toFixed (pricePerBaseUnit price weight unit) 2).
    split; [reflexivity|].
    destruct (rate_cases price weight unit Hp Hw) as [(-> & -> & E) | E].
    + rewrite E. repeat split.
    + destruct (pricePerBaseUnit price weight unit) as [s|s| |s m e];
        simpl in E; try contradiction.
      * reflexivity.
      * subst s. split; reflexivity.
      * subst s. split; [reflexivity|]. split; intros Hs.
        -- destruct (toFixed_two_decimals false m e Hs)
             as (ip & fp & Ef & Hip & Hfp & Hd & Hv).
           exists ip, fp. split; [exact Ef|].
           split; [exact Hip|]. split; [exact Hfp|]. split; [exact Hd|].
           cbv zeta. rewrite Hv. exact (scaled_round_nearest m e 2).
        -- unfold toFixed. rewrite Hs. apply toString_large_text.
  - destruct calculator_examples as (E1 & E2 & E3 & E4 & E5).
    destruct capital_unit_examples as (E6 & E7 & E8 & E9).
    destruct large_rate_examples as (E10 & E11 & E12 & E13).
    repeat split; assumption.
Qed.

(** The claim at the validated pair of ["1000000000000000000000"] and
    ["1"] with the unit ["kg"]: the rate is [10^21], and the text is not
    this rate with two decimals. *)
Lemma unit_price_not_two_decimals :
  gt (cleanNumber (js "1000000000000000000000")) zero = true
  /\ gt (cleanNumber (js "1")) zero = true
  /\ isNaN (cleanNumber (js "1000000000000000000000")) = false
  /\ isNaN (cleanNumber (js "1")) = false
  /\ pricePerBaseUnit (cleanNumber (js "1000000000000000000000"))
       (cleanNumber (js "1")) (js "kg") = of_Z (10 ^ 21)
  /\ calculateAndFormatUnit (cleanNumber (js "1000000000000000000000"))
       (cleanNumber (js "1")) (js "kg") = js "~1e+21 / kg"
  /\ calculateAndFormatUnit (cleanNumber (js "1000000000000000000000"))
       (cleanNumber (js "1")) (js "kg")
     <> js "~1000000000000000000000.00 / kg".
Proof.
  destruct large_rate_example as (H1 & H2 & H3 & H4 & H5 & H6).
  repeat split; try assumption.
  rewrite H6. discriminate.
Qed.

Lemma unit_price_calculation_witness :
  gt (of_Z 99) zero = true /\ gt (of_Z 500) zero = true
  /\ pricePerBaseUnit (of_Z 99) (of_Z 500) (js "g")
     = mul (div (of_Z 99) (of_Z 500)) (of_Z 1000)
  /\ displayUnit (js "g") = js "kg".
Proof.
  split; [reflexivity|]. split; [reflexivity|].
  pose proof (unit_price_calculation (of_Z 99) (of_Z 500) (js "g")
                eq_refl eq_refl) as H.
  cbv zeta in H. destruct H as (H1 & _ & H3 & _).
  split; [apply H1 | apply H3]; simpl; auto.
Defined.

(** ** The walk, round by round *)

Lemma walk_from_visit doc price data fuel : forall k cont,
  Visits doc price k cont -> (k + fuel = 8)%nat ->
  walk doc price fuel (Some cont) = Found data ->
  exists k' cont', Visits doc price k' cont'
                   /\ hasAttribute cont' PROCESSED_ATTR = false
                   /\ resolveAt cont' price = Some data.
Proof.
  induction fuel as [|fuel IH]; intros k cont Hv Hk H; [discriminate|].
  cbn [walk] in H.
  destruct (hasAttribute cont PROCESSED_ATTR) eqn:Hm; [discriminate|].
  destruct (resolveAt cont price) as [d|] eqn:Er.
  - injection H as ->. eauto.
  - destruct (parentElement doc (idOf cont)) as [next|] eqn:Hp.
    + destruct fuel as [|fuel']; [discriminate|].
      apply (IH (S k) next); [|lia|exact H].
      apply Visits_next with cont; auto. lia.
    + destruct fuel; discriminate.
Qed.

Lemma walk_aborted_from_visit doc price fuel : forall k cont,
  Visits doc price k cont -> (k + fuel = 8)%nat ->
  walk doc price fuel (Some cont) = Aborted ->
  exists k' cont', Visits doc price k' cont'
                   /\ hasAttribute cont' PROCESSED_ATTR = true.
Proof.
  induction fuel as [|fuel IH]; intros k cont Hv Hk H; [discriminate|].
  cbn [walk] in H.
  destruct (hasAttribute cont PROCESSED_ATTR) eqn:Hm; [eauto|].
  destruct (resolveAt cont price) as [d|] eqn:Er; [discriminate|].
  destruct (parentElement doc (idOf cont)) as [next|] eqn:Hp.
  - destruct fuel as [|fuel']; [discriminate|].
    apply (IH (S k) next); [|lia|exact H].
    apply Visits_next with cont; auto. lia.
  - destruct fuel; discriminate.
Qed.

(** X6.  The walk ends with a block exactly when some round of the loop
    finds its container unmarked and a valid pair in it, the rounds before
    having found no marker and no valid pair; it is given up exactly when
    some round comes to a marked container. *)
Theorem walk_decided_by_first_round (doc : document) (price : node) :
  (forall data,
      walk doc price 8 (Some price) = Found data
      <-> exists k cont, Visits doc price k cont
                         /\ hasAttribute cont PROCESSED_ATTR = false
                         /\ resolveAt cont price = Some data)
  /\ (walk doc price 8 (Some price) = Aborted
      <-> exists k cont, Visits doc price k cont
                         /\ hasAttribute cont PROCESSED_ATTR = true).
Proof.
  split; [intros data|]; split.
  - apply (walk_from_visit doc price data 8 0 price); [constructor | reflexivity].
  - intros (k & cont & Hv & Hm & Hr).
    rewrite (Visits_walk _ _ _ _ Hv). pose proof (Visits_bound _ _ _ _ Hv) as Hk.
    destruct (8 - k)%nat as [|fuel] eqn:E; [lia|].
    cbn [walk]. rewrite Hm, Hr. reflexivity.
  - apply (walk_aborted_from_visit doc price 8 0 price); [constructor | reflexivity].
  - intros (k & cont & Hv & Hm).
    rewrite (Visits_walk _ _ _ _ Hv). pose proof (Visits_bound _ _ _ _ Hv) as Hk.
    destruct (8 - k)%nat as [|fuel] eqn:E; [lia|].
    cbn [walk]. rewrite Hm. reflexivity.
Qed.

(** ** The next element sibling, and the two writes *)

Lemma elementAfter_skip i pre l :
  Forall (fun x => hasId i x = false) pre ->
  elementAfter i (pre ++ l) = elementAfter i l.
Proof.
  induction 1 as [|x pre Hx _ IH]; simpl; [reflexivity|].
  rewrite Hx. exact IH.
Qed.

Lemma siblingAfter_nextElementSibling i n :
  (parentIn i n = None <-> siblingAfter i n = None)
  /\ match parentIn i n with
     | Some p => elementAfter i (childNodes p)
     | None => None
     end
     = match siblingAfter i n with
       | Some r => r
       | None => None
       end.
Proof.
  induction n as [d|d|j t c a cs IH] using node_ind'; try (split; [tauto | reflexivity]).
  cbn [parentIn siblingAfter].
  set (N := Element j t c a cs).
  assert (G : forall pre l,
             cs = pre ++ l ->
             Forall (fun x => hasId i x = false) pre ->
             Forall (fun n => (parentIn i n = None <-> siblingAfter i n = None)
                              /\ match parentIn i n with
                                 | Some p => elementAfter i (childNodes p)
                                 | None => None
                                 end
                                 = match siblingAfter i n with
                                   | Some r => r
                                   | None => None
                                   end) l ->
             let P := findFirst (fun c => if hasId i c then Some N else parentIn i c) l in
             let S := findWithRest
                        (fun c rest => if hasId i c then Some (find isElement rest)
                                       else siblingAfter i c) l in
             (P = None <-> S = None)
             /\ match P with
                | Some p => elementAfter i (childNodes p)
                | None => None
                end
                = match S with Some r => r | None => None end).
  { intros pre l. revert pre.
    induction l as [|x l IHl]; intros pre E Hpre Hl; cbv zeta.
    - split; [tauto | reflexivity].
    - cbn [findFirst findWithRest].
      inversion Hl as [|? ? [Hx1 Hx2] Hl']; subst.
      destruct (hasId i x) eqn:Hi.
      + split; [split; discriminate|].
        unfold N. cbn [childNodes].
        rewrite elementAfter_skip by exact Hpre.
        simpl. rewrite Hi. reflexivity.
      + destruct (parentIn i x) as [p|] eqn:Ep.
        * destruct (siblingAfter i x) as [r|] eqn:Es.
          -- split; [split; discriminate | exact Hx2].
          -- exfalso. destruct Hx1 as [_ Hx1]. discriminate (Hx1 eq_refl).
        * destruct (siblingAfter i x) as [r|] eqn:Es.
          -- exfalso. destruct Hx1 as [Hx1 _]. discriminate (Hx1 eq_refl).
          -- apply (IHl (pre ++ [x])).
             ++ rewrite <- app_assoc. reflexivity.
             ++ apply Forall_app. split; [exact Hpre | constructor; [exact Hi | constructor]].
             ++ exact Hl'. }
  apply (G [] cs eq_refl (Forall_nil _) IH).
Qed.

Lemma nextElementSibling_siblingAfter doc i :
  nextElementSibling doc i
  = match siblingAfter i doc with
    | Some r => r
    | None => None
    end.
Proof. apply siblingAfter_nextElementSibling. Qed.

Lemma parentElement_siblingAfter doc i :
  parentElement doc i = None <-> siblingAfter i doc = None.
Proof. apply siblingAfter_nextElementSibling. Qed.

Lemma sameHead_hasId x' x i : sameHead x' x -> hasId i x' = hasId i x.
Proof.
  intros (_ & H & _). destruct x', x; simpl in *; try discriminate; try reflexivity.
  injection H as ->. reflexivity.
Qed.

Lemma sameHead_setAttributeIn i name value n n' :
  setAttributeIn i name value n = Some n' -> sameHead n' n.
Proof.
  destruct n as [d|d|j t c a cs]; simpl; try discriminate.
  destruct (Nat.eqb i j).
  - intros [= <-]. repeat split.
  - destruct (rewriteFirst _ cs); simpl; [|discriminate].
    intros [= <-]. repeat split.
Qed.

Lemma sameHead_insertAfterIn i new n n' :
  insertAfterIn i new n = Some n' -> sameHead n' n.
Proof.
  destruct n as [d|d|j t c a cs]; simpl; try discriminate.
  destruct (rewriteFirst _ cs); simpl; [|discriminate].
  intros [= <-]. repeat split.
Qed.

Section RewriteOne.
Variable i : nat.
Variable new : node.
Variable f : node -> option (list node).

Hypothesis new_inert : hasId i new = false /\ siblingAfter i new = None.

Lemma annotated_first_rewriteFirst l l' :
  Forall (fun x => forall ys, f x = Some ys ->
                     (exists x', ys = [x'] /\ sameHead x' x)
                     \/ (ys = [x; new] /\ isElement x = true)) l ->
  rewriteFirst f l = Some l' ->
  annotated (find isElement l') = annotated (find isElement l).
Proof.
  intros H. revert l'. induction H as [|x l Hx _ IH]; intros l' E; simpl in E.
  - discriminate.
  - destruct (f x) as [ys|] eqn:Ef.
    + injection E as <-.
      destruct (Hx ys eq_refl) as [(x' & -> & Hh) | [-> Hel]].
      * simpl. destruct Hh as (H1 & _ & _ & H4). rewrite H1.
        destruct (isElement x); [|reflexivity].
        simpl. unfold classList_contains. rewrite H4. reflexivity.
      * simpl. rewrite Hel. reflexivity.
    + destruct (rewriteFirst f l) as [l0|]; [|discriminate].
      injection E as <-. simpl. destruct (isElement x); [reflexivity|].
      apply IH. reflexivity.
Qed.

Lemma siblingAfter_rewriteFirst l l' :
  Forall (fun x => forall ys, f x = Some ys ->
                     (exists x', ys = [x'] /\ sameHead x' x
                                 /\ option_map annotated (siblingAfter i x')
                                    = option_map annotated (siblingAfter i x))
                     \/ (ys = [x; new] /\ isElement x = true /\ hasId i x = false)) l ->
  rewriteFirst f l = Some l' ->
  option_map annotated (siblingAmong i l') = option_map annotated (siblingAmong i l).
Proof.
  intros H. revert l'. induction H as [|x l Hx Hl IH]; intros l' E; simpl in E.
  - discriminate.
  - destruct (f x) as [ys|] eqn:Ef.
    + injection E as <-.
      destruct (Hx ys eq_refl) as [(x' & -> & Hh & Hs) | (-> & Hel & Hi)].
      * unfold siblingAmong. change ([x'] ++ l) with (x' :: l). cbn [findWithRest].
        rewrite (sameHead_hasId _ _ i Hh).
        destruct (hasId i x); [reflexivity|].
        destruct (siblingAfter i x') as [r'|], (siblingAfter i x) as [r|];
          simpl in Hs; try discriminate; [exact Hs | reflexivity].
      * unfold siblingAmong. change ([x; new] ++ l) with (x :: new :: l).
        cbn [findWithRest]. rewrite Hi.
        destruct (siblingAfter i x) as [r|]; [reflexivity|].
        destruct new_inert as [Hn1 Hn2]. rewrite Hn1, Hn2. reflexivity.
    + destruct (rewriteFirst f l) as [l0|] eqn:El; [|discriminate].
      injection E as <-. unfold siblingAmong. cbn [findWithRest].
      destruct (hasId i x).
      * simpl. f_equal. apply annotated_first_rewriteFirst; [|exact El].
        eapply Forall_impl; [|exact Hl].
        intros y Hy ys Hys. destruct (Hy ys Hys) as [(x' & -> & Hh & _) | (-> & Hel & _)];
          [left; eauto | right; auto].
      * destruct (siblingAfter i x) as [r|]; [reflexivity|].
        apply IH. reflexivity.
Qed.
End RewriteOne.

Lemma siblingAfter_setAttributeIn i j name value n : forall n',
  setAttributeIn j name value n = Some n' ->
  option_map annotated (siblingAfter i n') = option_map annotated (siblingAfter i n).
Proof.
  induction n as [d|d|k t c a cs IH] using node_ind'; intros n' E;
    try discriminate.
  cbn [setAttributeIn] in E. destruct (Nat.eqb j k).
  - injection E as <-. reflexivity.
  - destruct (rewriteFirst _ cs) as [cs'|] eqn:Ecs; [|discriminate].
    injection E as <-. cbn [siblingAfter].
    apply (siblingAfter_rewriteFirst i (Text [])
             (fun x => single (setAttributeIn j name value x)));
      [split; reflexivity| |exact Ecs].
    eapply Forall_impl; [|exact IH].
    intros x Hx ys Hys. left.
    destruct (setAttributeIn j name value x) as [x'|] eqn:Ex; [|discriminate].
    injection Hys as <-. exists x'. split; [reflexivity|].
    split; [eapply sameHead_setAttributeIn; exact Ex | exact (Hx x' Ex)].
Qed.

Lemma siblingAfter_insertAfterIn_other i j new n : forall n',
  i <> j -> hasId i new = false -> siblingAfter i new = None ->
  insertAfterIn j new n = Some n' ->
  option_map annotated (siblingAfter i n') = option_map annotated (siblingAfter i n).
Proof.
  induction n as [d|d|k t c a cs IH] using node_ind'; intros n' Hij Hn1 Hn2 E;
    try discriminate.
  cbn [insertAfterIn] in E.
  destruct (rewriteFirst _ cs) as [cs'|] eqn:Ecs; [|discriminate].
  injection E as <-. cbn [siblingAfter].
  apply (siblingAfter_rewriteFirst i new
           (fun x => if hasId j x then Some [x; new]
                     else single (insertAfterIn j new x)));
    [split; assumption| |exact Ecs].
  eapply Forall_impl; [|exact IH].
  intros x Hx ys Hys. destruct (hasId j x) eqn:Hj.
  - injection Hys as <-. right. split; [reflexivity|].
    destruct x as [d|d|k' t' c' a' cs'']; try discriminate.
    split; [reflexivity|]. simpl in *. apply Nat.eqb_eq in Hj. subst k'.
    apply Nat.eqb_neq. exact Hij.
  - left. destruct (insertAfterIn j new x) as [x'|] eqn:Ex; [|discriminate].
    injection Hys as <-. exists x'. split; [reflexivity|].
    split; [eapply sameHead_insertAfterIn; exact Ex | apply Hx; auto].
Qed.

Lemma insertAfterIn_None i new n :
  insertAfterIn i new n = None <-> siblingAfter i n = None.
Proof.
  induction n as [d|d|k t c a cs IH] using node_ind'; try tauto.
  cbn [insertAfterIn siblingAfter].
  induction IH as [|x l Hx _ IHl]; [simpl; tauto|].
  cbn [rewriteFirst findWithRest].
  destruct (hasId i x); [simpl; split; discriminate|].
  destruct (insertAfterIn i new x) as [x'|] eqn:Ex.
  - simpl. destruct (siblingAfter i x) as [r|]; [split; discriminate|].
    destruct Hx as [_ Hx]. discriminate (Hx eq_refl).
  - cbn [single option_map]. destruct (siblingAfter i x) as [r|].
    + destruct Hx as [Hx _]. discriminate (Hx eq_refl).
    + destruct (rewriteFirst _ l); simpl in *;
        [split; [discriminate | intros H; apply IHl in H; discriminate] | exact IHl].
Qed.

Lemma siblingAfter_insertAfterIn_same i new n : forall n',
  isElement new = true ->
  insertAfterIn i new n = Some n' ->
  siblingAfter i n' = Some (Some new).
Proof.
  induction n as [d|d|k t c a cs IH] using node_ind'; intros n' Hnew E;
    try discriminate.
  cbn [insertAfterIn] in E.
  destruct (rewriteFirst _ cs) as [cs'|] eqn:Ecs; [|discriminate].
  injection E as <-. cbn [siblingAfter].
  revert cs' Ecs. induction IH as [|x l Hx _ IHl]; intros cs' Ecs; [discriminate|].
  cbn [rewriteFirst] in Ecs. destruct (hasId i x) eqn:Hi.
  - injection Ecs as <-. change ([x; new] ++ l) with (x :: new :: l).
    cbn [findWithRest]. rewrite Hi. simpl. rewrite Hnew. reflexivity.
  - destruct (insertAfterIn i new x) as [x'|] eqn:Ex.
    + injection Ecs as <-. change ([x'] ++ l) with (x' :: l).
      cbn [findWithRest].
      rewrite (sameHead_hasId _ _ i (sameHead_insertAfterIn _ _ _ _ Ex)), Hi.
      rewrite (Hx x' Hnew eq_refl). reflexivity.
    + cbn [single option_map] in Ecs.
      destruct (rewriteFirst _ l) as [l'|] eqn:El; [|discriminate].
      injection Ecs as <-. cbn [findWithRest]. rewrite Hi.
      apply insertAfterIn_None in Ex. rewrite Ex.
      apply IHl. reflexivity.
Qed.

(** The reads of [processProductBlock] after the two writes of the engine. *)
Lemma nextAnnotated_setAttribute doc j name value i :
  nextAnnotated (setAttribute doc j name value) i = nextAnnotated doc i.
Proof.
  unfold nextAnnotated, setAttribute.
  destruct (setAttributeIn j name value doc) as [doc'|] eqn:E; [|reflexivity].
  rewrite !nextElementSibling_siblingAfter.
  pose proof (siblingAfter_setAttributeIn i j name value doc doc' E) as H.
  destruct (siblingAfter i doc') as [r'|], (siblingAfter i doc) as [r|];
    simpl in H; try discriminate; [injection H as H; exact H | reflexivity].
Qed.

Lemma parentElement_setAttribute doc j name value i :
  parentElement (setAttribute doc j name value) i = None
  <-> parentElement doc i = None.
Proof.
  unfold setAttribute.
  destruct (setAttributeIn j name value doc) as [doc'|] eqn:E; [|tauto].
  rewrite !parentElement_siblingAfter.
  pose proof (siblingAfter_setAttributeIn i j name value doc doc' E) as H.
  destruct (siblingAfter i doc') as [r'|], (siblingAfter i doc) as [r|];
    simpl in H; try discriminate; split; intros; (discriminate || reflexivity).
Qed.

Lemma nextAnnotated_insertAfter_other doc j new i :
  i <> j -> hasId i new = false -> siblingAfter i new = None ->
  nextAnnotated (insertAfter doc j new) i = nextAnnotated doc i.
Proof.
  intros Hij Hn1 Hn2. unfold nextAnnotated, insertAfter.
  destruct (insertAfterIn j new doc) as [doc'|] eqn:E; [|reflexivity].
  rewrite !nextElementSibling_siblingAfter.
  pose proof (siblingAfter_insertAfterIn_other i j new doc doc' Hij Hn1 Hn2 E) as H.
  destruct (siblingAfter i doc') as [r'|], (siblingAfter i doc) as [r|];
    simpl in H; try discriminate; [injection H as H; exact H | reflexivity].
Qed.

Lemma nextElementSibling_insertAfter doc i new p :
  parentElement doc i = Some p -> isElement new = true ->
  nextElementSibling (insertAfter doc i new) i = Some new.
Proof.
  intros Hp Hnew. unfold insertAfter.
  destruct (insertAfterIn i new doc) as [doc'|] eqn:E.
  - rewrite nextElementSibling_siblingAfter.
    rewrite (siblingAfter_insertAfterIn_same i new doc doc' Hnew E). reflexivity.
  - apply insertAfterIn_None in E. apply parentElement_siblingAfter in E.
    rewrite E in Hp. discriminate.
Qed.

(** ** The safety check *)

Lemma siblingAfter_None_ids i n :
  siblingAfter i n = None <-> ~ In i (map idOf (querySelectorAll n)).
Proof.
  induction n as [d|d|k t c a cs IH] using node_ind'; try (simpl; tauto).
  unfold querySelectorAll. cbn [siblingAfter childNodes].
  induction IH as [|x l Hx _ IHl]; [simpl; tauto|].
  cbn [findWithRest flat_map]. rewrite map_app, in_app_iff.
  destruct x as [d|d|k' t' c' a' cs'].
  - simpl in *. tauto.
  - simpl in *. tauto.
  - cbn [hasId]. destruct (Nat.eqb i k') eqn:E.
    + apply Nat.eqb_eq in E. subst k'. split; [discriminate|].
      intros H. exfalso. apply H. left. left. reflexivity.
    + apply Nat.eqb_neq in E.
      change (inclusiveDescendants (Element k' t' c' a' cs'))
        with (Element k' t' c' a' cs' :: querySelectorAll (Element k' t' c' a' cs')).
      cbn [map idOf node_id In].
      destruct (siblingAfter i (Element k' t' c' a' cs')) as [r|].
      * split; [discriminate|]. intros H. exfalso.
        assert (Hn : ~ In i (map idOf (querySelectorAll (Element k' t' c' a' cs')))) by tauto.
        apply Hx in Hn. discriminate.
      * assert (Hn : ~ In i (map idOf (querySelectorAll (Element k' t' c' a' cs'))))
          by (apply Hx; reflexivity).
        rewrite IHl. split; intros H; [intros [[H1 | H1] | H1]|]; try tauto.
        -- congruence.
Qed.

Lemma parentElement_Some_ids doc i :
  In i (ids doc) -> isDocumentElement doc i = false ->
  parentElement doc i <> None.
Proof.
  intros Hin Hroot Hp. apply parentElement_siblingAfter in Hp.
  apply siblingAfter_None_ids in Hp. apply Hp.
  unfold ids, allElements in Hin. unfold isDocumentElement in Hroot.
  destruct doc as [d|d|k t c a cs]; simpl in Hin; try contradiction.
  destruct Hin as [<- | Hin].
  - simpl in Hroot. rewrite Nat.eqb_refl in Hroot. discriminate.
  - exact Hin.
Qed.

Lemma parentElement_ids doc i p :
  parentElement doc i = Some p -> In i (ids doc).
Proof.
  intros Hp.
  assert (H : siblingAfter i doc <> None).
  { intros H. apply parentElement_siblingAfter in H. congruence. }
  rewrite siblingAfter_None_ids in H.
  destruct (in_dec Nat.eq_dec i (map idOf (querySelectorAll doc))) as [Hin | Hn];
    [|contradiction].
  unfold ids, allElements. destruct doc as [d|d|k t c a cs]; try contradiction.
  right. exact Hin.
Qed.

(** The body of the document after a rewrite of one child of the root. *)
Lemma isBody_rewriteFirst (f : node -> option (list node)) new i l l' :
  String.eqb (tagName new) "BODY" || String.eqb (tagName new) "FRAMESET" = false ->
  Forall (fun x => forall ys, f x = Some ys ->
                     (exists x', ys = [x'] /\ sameHead x' x)
                     \/ (ys = [x; new] /\ isElement x = true)) l ->
  rewriteFirst f l = Some l' ->
  match find (fun c => String.eqb (tagName c) "BODY" || String.eqb (tagName c) "FRAMESET")
             (filter isElement l') with
  | Some b => hasId i b
  | None => false
  end
  = match find (fun c => String.eqb (tagName c) "BODY" || String.eqb (tagName c) "FRAMESET")
               (filter isElement l) with
    | Some b => hasId i b
    | None => false
    end.
Proof.
  intros Hnew H. revert l'. induction H as [|x l Hx _ IH]; intros l' E; simpl in E.
  - discriminate.
  - destruct (f x) as [ys|] eqn:Ef.
    + injection E as <-.
      destruct (Hx ys eq_refl) as [(x' & -> & Hh) | [-> Hel]].
      * change ([x'] ++ l) with (x' :: l). cbn [filter].
        pose proof (sameHead_hasId _ _ i Hh) as Hi.
        destruct Hh as (H1 & _ & H3 & _). rewrite H1.
        destruct (isElement x); [|reflexivity].
        cbn [find]. rewrite H3.
        destruct (String.eqb (tagName x) "BODY" || String.eqb (tagName x) "FRAMESET");
          [exact Hi | reflexivity].
      * change ([x; new] ++ l) with (x :: new :: l). cbn [filter]. rewrite Hel.
        cbn [find]. destruct (String.eqb (tagName x) "BODY" || String.eqb (tagName x) "FRAMESET");
          [reflexivity|].
        destruct (isElement new); [|reflexivity].
        cbn [find]. rewrite Hnew. reflexivity.
    + destruct (rewriteFirst f l) as [l0|]; [|discriminate].
      injection E as <-. cbn [filter]. destruct (isElement x); [|apply IH; reflexivity].
      cbn [find].
      destruct (String.eqb (tagName x) "BODY" || String.eqb (tagName x) "FRAMESET");
        [reflexivity | apply IH; reflexivity].
Qed.

Lemma isBody_setAttribute doc j name value i :
  isBody (setAttribute doc j name value) i = isBody doc i.
Proof.
  unfold setAttribute.
  destruct (setAttributeIn j name value doc) as [doc'|] eqn:E; [|reflexivity].
  destruct doc as [d|d|k t c a cs]; try discriminate.
  cbn [setAttributeIn] in E. destruct (Nat.eqb j k).
  - injection E as <-. reflexivity.
  - destruct (rewriteFirst _ cs) as [cs'|] eqn:Ecs; [|discriminate].
    injection E as <-. unfold isBody, body, children. cbn [tagName childNodes].
    destruct (String.eqb t "HTML"); [|reflexivity].
    apply (isBody_rewriteFirst
             (fun x => single (setAttributeIn j name value x))
             (Text []) i cs cs' eq_refl); [|exact Ecs].
    apply Forall_forall. intros x _ ys Hys. left.
    destruct (setAttributeIn j name value x) as [x'|] eqn:Ex; [|discriminate].
    injection Hys as <-. exists x'. split; [reflexivity|].
    eapply sameHead_setAttributeIn; exact Ex.
Qed.

Lemma isBody_insertAfter doc j new i :
  String.eqb (tagName new) "BODY" || String.eqb (tagName new) "FRAMESET" = false ->
  isBody (insertAfter doc j new) i = isBody doc i.
Proof.
  intros Hnew. unfold insertAfter.
  destruct (insertAfterIn j new doc) as [doc'|] eqn:E; [|reflexivity].
  destruct doc as [d|d|k t c a cs]; try discriminate.
  cbn [insertAfterIn] in E.
  destruct (rewriteFirst _ cs) as [cs'|] eqn:Ecs; [|discriminate].
  injection E as <-. unfold isBody, body, children. cbn [tagName childNodes].
  destruct (String.eqb t "HTML"); [|reflexivity].
  apply (isBody_rewriteFirst
           (fun x => if hasId j x then Some [x; new]
                     else single (insertAfterIn j new x))
           new i cs cs' Hnew); [|exact Ecs].
  apply Forall_forall. intros x _ ys Hys.
  destruct (hasId j x) eqn:Hj.
  - injection Hys as <-. right. split; [reflexivity|].
    destruct x; try discriminate; reflexivity.
  - left. destruct (insertAfterIn j new x) as [x'|] eqn:Ex; [|discriminate].
    injection Hys as <-. exists x'. split; [reflexivity|].
    eapply sameHead_insertAfterIn; exact Ex.
Qed.

Lemma isDocumentElement_setAttribute doc j name value i :
  isDocumentElement (setAttribute doc j name value) i = isDocumentElement doc i.
Proof.
  unfold setAttribute, isDocumentElement.
  destruct (setAttributeIn j name value doc) as [doc'|] eqn:E; [|reflexivity].
  apply sameHead_hasId. eapply sameHead_setAttributeIn; exact E.
Qed.

Lemma isDocumentElement_insertAfter doc j new i :
  isDocumentElement (insertAfter doc j new) i = isDocumentElement doc i.
Proof.
  unfold insertAfter, isDocumentElement.
  destruct (insertAfterIn j new doc) as [doc'|] eqn:E; [|reflexivity].
  apply sameHead_hasId. eapply sameHead_insertAfterIn; exact E.
Qed.

Lemma tooHigh_setAttribute doc j name value i :
  tooHigh (setAttribute doc j name value) i = tooHigh doc i.
Proof.
  unfold tooHigh.
  rewrite isDocumentElement_setAttribute, isBody_setAttribute.
  pose proof (parentElement_setAttribute doc j name value i) as H.
  destruct (parentElement (setAttribute doc j name value) i) as [p'|],
           (parentElement doc i) as [p|]; try reflexivity.
  - destruct H as [_ H]. discriminate (H eq_refl).
  - destruct H as [H _]. discriminate (H eq_refl).
Qed.

Lemma siblingAfter_unitPriceSpan i f text : siblingAfter i (unitPriceSpan f text) = None.
Proof. reflexivity. Qed.

Lemma tooHigh_insertAfter_span doc j text i :
  tooHigh doc i = false ->
  tooHigh (insertAfter doc j (unitPriceSpan (freshId doc) text)) i = false.
Proof.
  unfold tooHigh. intros H.
  rewrite isDocumentElement_insertAfter, isBody_insertAfter by reflexivity.
  destruct (parentElement doc i) as [p|] eqn:Hp; [|discriminate].
  rewrite H.
  destruct (parentElement (insertAfter doc j _) i) as [p'|] eqn:Hp'; [reflexivity|].
  exfalso. unfold insertAfter in Hp'.
  destruct (insertAfterIn j _ doc) as [doc'|] eqn:E; [|congruence].
  apply parentElement_siblingAfter in Hp'.
  destruct (Nat.eq_dec i j) as [<- | Hij].
  - rewrite (siblingAfter_insertAfterIn_same
               i (unitPriceSpan (freshId doc) text) doc doc' eq_refl E) in Hp'.
    discriminate.
  - assert (Hf : hasId i (unitPriceSpan (freshId doc) text) = false).
    { simpl. apply Nat.eqb_neq. intros ->.
      apply (freshId_fresh doc). eapply parentElement_ids; exact Hp. }
    pose proof (siblingAfter_insertAfterIn_other
                  i j (unitPriceSpan (freshId doc) text) doc doc' Hij Hf eq_refl E) as Hs.
    rewrite Hp' in Hs.
    destruct (siblingAfter i doc) as [r|] eqn:Es; [discriminate|].
    apply parentElement_siblingAfter in Es. congruence.
Qed.

(** ** One candidate, by cases *)

(** [processProductBlock], by the result of its two checks. *)
Lemma processProductBlock_cases data st :
  let i := elPrice data in
  let d2 := setAttribute (dom st) i PROCESSED_ATTR "true" in
  let tr2 := trace st ++ [Call data; SetProcessed i] in
  processProductBlock data st
  = if tooHigh d2 i then {| dom := d2; trace := tr2 ++ [ConsoleWarn] |}
    else if nextAnnotated d2 i then {| dom := d2; trace := tr2 |}
    else {| dom := insertAfter d2 i (annotationFor data (freshId d2));
            trace := tr2 ++ [InsertAfter i (annotationFor data (freshId d2));
                             ConsoleLog] |}.
Proof.
  cbv zeta.
  unfold processProductBlock, markProcessed, inject, emit, tooHigh, nextAnnotated,
    annotated, annotationFor.
  cbn [dom trace].
  destruct (parentElement _ (elPrice data));
    [|rewrite <- !app_assoc; reflexivity].
  destruct (isDocumentElement _ _ || isBody _ _);
    [rewrite <- !app_assoc; reflexivity|].
  destruct (nextElementSibling _ _) as [sib|];
    [destruct (classList_contains sib APPENDED_CLASS)|];
    rewrite <- !app_assoc; reflexivity.
Qed.

(** The body of the [forEach], by the result of its checks. *)
Lemma processPrice_cases st i :
  processPrice st i = st
  \/ exists price data,
       deref (dom st) i = Some price
       /\ hasAttribute price PROCESSED_ATTR = false
       /\ walk (dom st) price 8 (Some price) = Found data
       /\ isProcessed (dom st) (container data) = false
       /\ elPrice data = i
       /\ processPrice st i
          = processProductBlock data (markProcessed (container data) st).
Proof.
  unfold processPrice.
  destruct (deref (dom st) i) as [price|] eqn:Ed; [|now left].
  destruct (hasAttribute price PROCESSED_ATTR) eqn:Hp; [now left|].
  destruct (walk (dom st) price 8 (Some price)) as [data| |] eqn:Ew;
    try (now left).
  destruct (negb (isProcessed (dom st) (container data))) eqn:Hc; [|now left].
  apply negb_true_iff in Hc. right. exists price, data.
  destruct (deref_Some _ _ _ Ed) as [Hin Hid].
  apply walk_Found in Ew as Hw; [|intros c [= <-]; exact Hin].
  destruct Hw as (_ & Hel & _).
  repeat split; try assumption; congruence.
Qed.

(** What one candidate changes, in the terms of the two lemmas above. *)
Lemma processPrice_effect st i :
  processPrice st i = st
  \/ exists data d2,
       elPrice data = i
       /\ d2 = setAttribute
                 (setAttribute (dom st) (container data) PROCESSED_ATTR "true")
                 i PROCESSED_ATTR "true"
       /\ ((tooHigh (dom st) i = true
            /\ dom (processPrice st i) = d2
            /\ trace (processPrice st i)
               = trace st ++ [SetProcessed (container data); Call data;
                              SetProcessed i; ConsoleWarn])
           \/ (tooHigh (dom st) i = false /\ nextAnnotated (dom st) i = true
               /\ dom (processPrice st i) = d2
               /\ trace (processPrice st i)
                  = trace st ++ [SetProcessed (container data); Call data;
                                 SetProcessed i])
           \/ (tooHigh (dom st) i = false /\ nextAnnotated (dom st) i = false
               /\ dom (processPrice st i)
                  = insertAfter d2 i (annotationFor data (freshId d2))
               /\ trace (processPrice st i)
                  = trace st ++ [SetProcessed (container data); Call data;
                                 SetProcessed i;
                                 InsertAfter i (annotationFor data (freshId d2));
                                 ConsoleLog])).
Proof.
  destruct (processPrice_cases st i)
    as [E | (price & data & _ & _ & _ & _ & Hel & E)]; [now left|].
  right. exists data. eexists. split; [exact Hel|]. split; [reflexivity|].
  rewrite E, processProductBlock_cases. cbv zeta.
  unfold markProcessed, emit. cbn [dom trace]. rewrite Hel.
  rewrite !tooHigh_setAttribute, !nextAnnotated_setAttribute.
  destruct (tooHigh (dom st) i).
  - left. cbn [dom trace]. rewrite <- !app_assoc. repeat split.
  - destruct (nextAnnotated (dom st) i).
    + right. left. cbn [dom trace]. rewrite <- !app_assoc. repeat split.
    + right. right. cbn [dom trace]. rewrite <- !app_assoc. repeat split.
Qed.

(** ** The blocks of a pass *)

Lemma validate_provenance cont price w data :
  validate cont price w = Some data ->
  exists gp up gw,
    match_ PRICE_REGEX (textContent price) = Some (gp, up)
    /\ match_ WEIGHT_REGEX (textContent w) = Some (gw, weightUnit data)
    /\ NumericLiteralText gp /\ NumericLiteralText gw
    /\ priceKr data = cleanNumber gp /\ weightValue data = cleanNumber gw
    /\ isToken weightTokens (weightUnit data)
    /\ idOf cont = container data /\ idOf price = elPrice data.
Proof.
  unfold validate.
  destruct (match_ PRICE_REGEX (textContent price)) as [[gp up]|] eqn:Ep; [|discriminate].
  destruct (match_ WEIGHT_REGEX (textContent w)) as [[gw uw]|] eqn:Ew; [|discriminate].
  cbn [fst snd]. destruct (_ && _); [|discriminate].
  intros [= <-]. cbn [priceKr weightValue weightUnit container elPrice].
  exists gp, up, gw.
  split; [reflexivity|]. split; [reflexivity|].
  apply match_numberThenToken in Ep; [|simpl; tauto].
  apply match_numberThenToken in Ew; [|simpl; tauto].
  destruct Ep as (_ & _ & _ & _ & Hp & _).
  destruct Ew as (_ & _ & _ & _ & Hw & _ & Hu).
  repeat split.
  - apply numericLiteral_text, Hp.
  - apply numericLiteral_text, Hw.
  - apply Lang_weightUnits, Hu.
Qed.

(** Every block in the trace of a run of candidates was found by the walk
    of one of them, in the tree of its turn. *)
Lemma calls_fold_origin l : forall s0 d,
  In d (calls (trace (fold_left processPrice l s0))) ->
  In d (calls (trace s0))
  \/ exists k price,
       nth_error l k = Some (elPrice d)
       /\ deref (dom (fold_left processPrice (firstn k l) s0)) (elPrice d)
          = Some price
       /\ hasAttribute price PROCESSED_ATTR = false
       /\ walk (dom (fold_left processPrice (firstn k l) s0)) price 8 (Some price)
          = Found d.
Proof.
  induction l as [|i l IH]; intros s0 d Hd; [now left|].
  cbn [fold_left] in Hd. destruct (IH _ _ Hd) as [H | (k & price & H1 & H2 & H3 & H4)].
  - destruct (processPrice_cases s0 i)
      as [E | (price & data & Hde & Hp & Hw & _ & Hel & E)];
      [rewrite E in H; now left|].
    rewrite E, processProductBlock_cases in H. cbv zeta in H.
    unfold markProcessed, emit in H. cbn [dom trace] in H.
    assert (H' : In d (calls (trace s0)) \/ d = data).
    { repeat match type of H with
             | context [if ?b then _ else _] => destruct b
             end;
        cbn [trace] in H; rewrite !calls_app in H; simpl in H;
        rewrite ?app_nil_r in H; apply in_app_iff in H; simpl in H;
        intuition auto. }
    destruct H' as [H' | ->]; [now left|].
    right. exists 0%nat, price. cbn [nth_error firstn fold_left].
    rewrite Hel. auto.
  - right. exists (S k), price. cbn [nth_error firstn fold_left]. auto.
Qed.

Lemma ancestorChain_allElements doc fuel : forall cur x,
  (forall c, cur = Some c -> In c (allElements doc)) ->
  In x (ancestorChain doc fuel cur) -> In x (allElements doc).
Proof.
  induction fuel as [|fuel IH]; intros [c|] x Hc Hx; try destruct Hx.
  - subst x. now apply Hc.
  - eapply IH; [|exact H]. intros p Hp. now apply parentIn_descendant in Hp.
Qed.

(** The container of a block the walk finds is one of the elements the
    walk looks at, and the block is what the round on it gives. *)
Lemma walk_Found_round doc price fuel : forall cur data,
  walk doc price fuel cur = Found data ->
  exists cont, In cont (ancestorChain doc fuel cur)
               /\ resolveAt cont price = Some data.
Proof.
  induction fuel as [|fuel IH]; intros cur data H; [discriminate|].
  destruct cur as [cont|]; [|discriminate]. cbn [walk] in H.
  destruct (hasAttribute cont PROCESSED_ATTR); [discriminate|].
  destruct (resolveAt cont price) as [d|] eqn:Er.
  - injection H as ->. exists cont. split; [now left | exact Er].
  - destruct (IH _ _ H) as (c & Hc & Hr). exists c. split; [now right | exact Hr].
Qed.

Lemma resolveAt_first cont price data :
  resolveAt cont price = Some data ->
  exists w rest, weightMatches cont = w :: rest
                 /\ validate cont price w = Some data.
Proof.
  unfold resolveAt.
  destruct (weightMatches cont) as [|w ws]; [discriminate|]. eauto.
Qed.

(** X7.  Every block a pass hands to [processProductBlock] comes from
    texts of the tree.  Its price element is a candidate, number [k] say;
    in the tree as it is when the turn of this candidate comes, the
    reference to the price element gives an element [price] without
    marker, the walk from it finds the block, the container [cont] of the
    block is [price] or one of its ancestors, 8 elements at most, and [w]
    is the first element below [cont], in document order, whose text
    matches the weight pattern.  The price of the block is what
    [cleanNumber] reads from the first group of the price match in the
    text of [price], its weight and its unit are the two groups of the
    weight match in the text of [w].  Both numbers are read from numeric
    literals, and the unit is [g], [kg], [l] or [ml] in small or capital
    letters, so the [else] branch of the calculator only meets [kg] and
    [l]. *)
Theorem block_provenance (doc : document) (data : ProductBlock) :
  In (Call data) (trace (pass doc)) ->
  exists k price cont w rest gp up gw,
    let tree := dom (atTurn doc k) in
    nth_error (map idOf (potentialPriceElements doc)) k = Some (elPrice data)
    /\ deref tree (elPrice data) = Some price
    /\ hasAttribute price PROCESSED_ATTR = false
    /\ walk tree price 8 (Some price) = Found data
    /\ In cont (ancestorChain tree 8 (Some price))
    /\ In cont (allElements tree)
    /\ idOf cont = container data
    /\ weightMatches cont = w :: rest
    /\ In w (querySelectorAll cont)
    /\ match_ PRICE_REGEX (textContent price) = Some (gp, up)
    /\ match_ WEIGHT_REGEX (textContent w) = Some (gw, weightUnit data)
    /\ NumericLiteralText gp /\ NumericLiteralText gw
    /\ priceKr data = cleanNumber gp /\ weightValue data = cleanNumber gw
    /\ In (weightUnit data) weightUnitTexts
    /\ In (toLowerCase (weightUnit data)) weightTokens.
Proof.
  intros Hd. apply calls_In in Hd. unfold pass, findAndProcessPrices in Hd.
  cbn [dom] in Hd. apply calls_fold_origin in Hd.
  destruct Hd as [Hd | (k & price & Hk & Hde & Hp & Hw)]; [destruct Hd|].
  destruct (walk_Found_round _ _ _ _ _ Hw) as (cont & Hc & Hr).
  destruct (resolveAt_first _ _ _ Hr) as (w & rest & Ew & Hv).
  destruct (validate_provenance _ _ _ _ Hv)
    as (gp & up & gw & H1 & H2 & H3 & H4 & H5 & H6 & H7 & H8 & H9).
  exists k, price, cont, w, rest, gp, up, gw. cbv zeta. unfold atTurn.
  split; [exact Hk|]. split; [exact Hde|]. split; [exact Hp|].
  split; [exact Hw|]. split; [exact Hc|].
  split.
  { eapply ancestorChain_allElements; [|exact Hc].
    intros c [= <-]. now apply deref_Some in Hde. }
  split; [exact H8|]. split; [exact Ew|].
  split.
  { assert (Hin : In w (weightMatches cont)) by (rewrite Ew; now left).
    unfold weightMatches in Hin. apply filter_In in Hin. tauto. }
  repeat split; try assumption.
  - apply isToken_weightUnitTexts, H7.
  - apply weightToken_lower, H7.
Qed.

(** ** The candidate that gets its annotation *)

Lemma freshId_setAttribute doc i value :
  freshId (setAttribute doc i PROCESSED_ATTR value) = freshId doc.
Proof. unfold freshId. rewrite ids_setAttribute. reflexivity. Qed.

(** X8.  The candidate that gets its annotation: when the walk from an
    unmarked price element finds a block, and the element has a parent
    element, is neither the root nor the body and has no annotation as its
    next element sibling, the body of the [forEach] marks the container,
    enters [processProductBlock], marks the price element and inserts one
    new [span]; this [span] is then the next element sibling of the price
    element, its text is ["- "] and the result of the calculator, and its
    identity is new in the tree. *)
Theorem annotation_placed (st : state) (i : nat) (price : node) (data : ProductBlock) :
  wellFormed (dom st) ->
  deref (dom st) i = Some price ->
  hasAttribute price PROCESSED_ATTR = false ->
  walk (dom st) price 8 (Some price) = Found data ->
  tooHigh (dom st) i = false ->
  nextAnnotated (dom st) i = false ->
  let st' := processPrice st i in
  let span := annotationFor data (freshId (dom st)) in
  trace st' = trace st ++ [SetProcessed (container data); Call data; SetProcessed i;
                           InsertAfter i span; ConsoleLog]
  /\ nextElementSibling (dom st') i = Some span
  /\ textContent span
     = js "- " ++ calculateAndFormatUnit (priceKr data) (weightValue data)
                    (weightUnit data)
  /\ ~ In (idOf span) (ids (dom st))
  /\ isProcessed (dom st') i = true
  /\ isProcessed (dom st') (container data) = true.
Proof.
  intros Hwf Hd Hp Hw Ht Hn. cbv zeta.
  destruct (deref_Some _ _ _ Hd) as [Hin Hid].
  assert (Hcur : forall c, Some price = Some c -> In c (allElements (dom st)))
    by (intros c [= <-]; exact Hin).
  destruct (walk_Found_unmarked _ _ _ _ _ Hcur Hw) as (cont & Hc & Ec & Hm).
  destruct (walk_Found _ _ _ _ _ Hcur Hw) as (Hcin & Hel & _).
  assert (Hnp : isProcessed (dom st) (container data) = false).
  { unfold isProcessed. rewrite Ec, (deref_wellFormed _ _ Hwf Hc). exact Hm. }
  assert (Eel : elPrice data = i) by congruence.
  assert (Hi : In i (ids (dom st))) by (rewrite <- Hid; now apply In_allElements_ids).
  set (d1 := setAttribute (dom st) (container data) PROCESSED_ATTR "true").
  set (d2 := setAttribute d1 i PROCESSED_ATTR "true").
  assert (E : processPrice st i
              = {| dom := insertAfter d2 i (annotationFor data (freshId d2));
                   trace := trace st ++ [SetProcessed (container data); Call data;
                                         SetProcessed i;
                                         InsertAfter i (annotationFor data (freshId d2));
                                         ConsoleLog] |}).
  { unfold processPrice. rewrite Hd, Hp, Hw, Hnp. cbn [negb].
    rewrite processProductBlock_cases. cbv zeta.
    unfold markProcessed, emit. cbn [dom trace]. rewrite Eel.
    rewrite !tooHigh_setAttribute, Ht. rewrite !nextAnnotated_setAttribute, Hn.
    rewrite <- !app_assoc. reflexivity. }
  assert (Ef : freshId d2 = freshId (dom st)).
  { unfold d2, d1. rewrite !freshId_setAttribute. reflexivity. }
  rewrite E. cbn [dom trace]. rewrite Ef.
  assert (Hp2 : exists p, parentElement d2 i = Some p).
  { assert (Ht2 : tooHigh d2 i = false)
      by (unfold d2, d1; rewrite !tooHigh_setAttribute; exact Ht).
    unfold tooHigh in Ht2. destruct (parentElement d2 i) as [p|]; [eauto | discriminate]. }
  destruct Hp2 as [p Hp2].
  split; [reflexivity|]. split.
  { apply (nextElementSibling_insertAfter d2 i _ p Hp2). reflexivity. }
  split.
  { unfold annotationFor, unitPriceSpan. cbn [textContent flat_map].
    now rewrite app_nil_r. }
  split; [apply freshId_fresh|].
  assert (P2 : isProcessed d2 i = true).
  { unfold d2. apply isProcessed_setAttribute_same.
    unfold d1. now rewrite ids_setAttribute. }
  assert (C2 : isProcessed d2 (container data) = true).
  { unfold d2. apply isProcessed_setAttribute_mono.
    now apply isProcessed_setAttribute_same. }
  unfold annotationFor. rewrite <- Ef.
  split; now apply isProcessed_insertAfter_span.
Qed.

(** ** A pass never warns *)

Lemma fold_processPrice_ind (P : state -> Prop) (C : nat -> Prop) l : forall st,
  (forall s i, C i -> P s -> P (processPrice s i)) ->
  Forall C l -> P st -> P (fold_left processPrice l st).
Proof.
  induction l as [|i l IH]; intros st Hstep Hl H; simpl; [exact H|].
  inversion Hl; subst. apply IH; auto.
Qed.

Lemma candidate_not_tooHigh doc el :
  In el (potentialPriceElements doc) -> tooHigh doc (idOf el) = false.
Proof.
  unfold potentialPriceElements. intros H. apply filter_In in H.
  destruct H as [Hin H]. unfold isPotentialPriceElement in H.
  destruct (existsb _ ignoredTags); [discriminate|].
  destruct (classList_contains el APPENDED_CLASS); [discriminate|].
  destruct (isBody doc (idOf el) || isDocumentElement doc (idOf el)) eqn:Hb;
    [discriminate|].
  apply orb_false_iff in Hb. destruct Hb as [Hb Hr].
  unfold tooHigh. rewrite Hb, Hr.
  destruct (parentElement doc (idOf el)) eqn:Hp; [reflexivity|].
  exfalso. revert Hp. apply parentElement_Some_ids; [|exact Hr].
  apply In_allElements_ids. exact Hin.
Qed.

(** X9.  A pass never takes the branch of [processProductBlock] for
    elements too high in the tree: no warning is logged.  The filter
    leaves out the root and the body, every other element of the document
    has a parent element, and the writes of the pass keep it so. *)
Theorem pass_never_warns (doc : document) :
  Forall (fun e => e <> ConsoleWarn) (trace (pass doc)).
Proof.
  unfold pass, findAndProcessPrices. cbn [dom].
  set (P := fun s : state =>
              (forall i, tooHigh doc i = false -> tooHigh (dom s) i = false)
              /\ Forall (fun e => e <> ConsoleWarn) (trace s)).
  assert (H : P (fold_left processPrice (map idOf (potentialPriceElements doc))
                   (emit ConsoleLog {| dom := doc; trace := [] |}))).
  { apply fold_processPrice_ind with (C := fun i => tooHigh doc i = false).
    - intros s i Hi [Hs Htr].
      destruct (processPrice_effect s i)
        as [E | (data & d2 & Hel & Ed & Hcase)]; [rewrite E; split; assumption|].
      assert (Hd2 : forall j, tooHigh doc j = false -> tooHigh d2 j = false).
      { intros j Hj. rewrite Ed, !tooHigh_setAttribute. apply Hs, Hj. }
      unfold P.
      destruct Hcase as [(Ht & _) | [(_ & _ & -> & ->) | (_ & _ & -> & ->)]].
      + rewrite (Hs i Hi) in Ht. discriminate.
      + split; [exact Hd2|]. apply Forall_app. split; [exact Htr|].
        repeat constructor; discriminate.
      + split.
        * intros j Hj. apply tooHigh_insertAfter_span, Hd2, Hj.
        * apply Forall_app. split; [exact Htr|]. repeat constructor; discriminate.
    - apply Forall_forall. intros i Hi. apply in_map_iff in Hi.
      destruct Hi as (el & <- & Hel). apply candidate_not_tooHigh, Hel.
    - split; [auto|]. simpl. repeat constructor. discriminate. }
  exact (proj2 H).
Qed.

(** ** The guard on the next element sibling *)

Lemma nextAnnotated_true_ids doc i : nextAnnotated doc i = true -> In i (ids doc).
Proof.
  unfold nextAnnotated, nextElementSibling.
  destruct (parentIn i doc) as [p|] eqn:Hp; [|discriminate].
  intros _. eapply parentElement_ids. exact Hp.
Qed.

Lemma nextAnnotated_insertAfter_span doc j text i :
  nextAnnotated doc i = true -> i <> j ->
  nextAnnotated (insertAfter doc j (unitPriceSpan (freshId doc) text)) i = true.
Proof.
  intros H Hij. rewrite nextAnnotated_insertAfter_other; [exact H | exact Hij | | reflexivity].
  simpl. apply Nat.eqb_neq. intros ->.
  apply (freshId_fresh doc), nextAnnotated_true_ids, H.
Qed.

(** One candidate leaves an annotated next sibling in place, and inserts
    nothing after an element that has one. *)
Lemma sibling_guard_step st k i :
  nextAnnotated (dom st) i = true ->
  nextAnnotated (dom (processPrice st k)) i = true
  /\ (In i (insertions (trace (processPrice st k))) -> In i (insertions (trace st))).
Proof.
  intros Hi.
  destruct (processPrice_effect st k)
    as [-> | (data & d2 & Hel & Ed & Hcase)]; [split; auto|].
  assert (Hd2 : nextAnnotated d2 i = true).
  { rewrite Ed, !nextAnnotated_setAttribute. exact Hi. }
  destruct Hcase as [(_ & -> & ->) | [(_ & _ & -> & ->) | (_ & Hk & -> & ->)]].
  - split; [exact Hd2|]. rewrite insertions_app. simpl. rewrite app_nil_r. auto.
  - split; [exact Hd2|]. rewrite insertions_app. simpl. rewrite app_nil_r. auto.
  - assert (Hik : i <> k) by congruence.
    split; [apply nextAnnotated_insertAfter_span; assumption|].
    rewrite insertions_app. simpl. rewrite in_app_iff. simpl.
    intros [H | [H | []]]; [exact H | congruence].
Qed.

Lemma sibling_guard_pass doc i :
  nextAnnotated doc i = true ->
  nextAnnotated (dom (pass doc)) i = true
  /\ ~ In i (insertions (trace (pass doc))).
Proof.
  intros Hi. unfold pass.
  apply (findAndProcessPrices_ind
           (fun s => nextAnnotated (dom s) i = true
                     /\ ~ In i (insertions (trace s)))).
  - intros s [H1 H2]. split; [exact H1|].
    unfold emit. cbn [trace]. rewrite insertions_app. simpl. rewrite app_nil_r. exact H2.
  - intros s k [H1 H2]. destruct (sibling_guard_step s k i H1) as [H3 H4].
    split; [exact H3 | auto].
  - split; [exact Hi | simpl; auto].
Qed.

Lemma insertions_adjacent_step st k :
  (forall i, In i (insertions (trace st)) -> nextAnnotated (dom st) i = true) ->
  forall i, In i (insertions (trace (processPrice st k))) ->
            nextAnnotated (dom (processPrice st k)) i = true.
Proof.
  intros H i Hi.
  destruct (in_dec Nat.eq_dec i (insertions (trace st))) as [Hold | Hnew].
  - apply sibling_guard_step, H, Hold.
  - destruct (processPrice_effect st k)
      as [E | (data & d2 & Hel & Ed & Hcase)]; [rewrite E in Hi; contradiction|].
    destruct Hcase as [(_ & _ & E) | [(_ & _ & _ & E) | (Ht & Hk & Edom & E)]];
      rewrite E, insertions_app in Hi; simpl in Hi; rewrite ?app_nil_r in Hi;
      try contradiction.
    apply in_app_iff in Hi. destruct Hi as [Hi | [<- | []]]; [contradiction|].
    rewrite Edom. unfold nextAnnotated.
    assert (Hp : exists p, parentElement d2 k = Some p).
    { assert (Ht2 : tooHigh d2 k = false)
        by (rewrite Ed, !tooHigh_setAttribute; exact Ht).
      unfold tooHigh in Ht2. destruct (parentElement d2 k) as [p|]; [eauto | discriminate]. }
    destruct Hp as [p Hp].
    rewrite (nextElementSibling_insertAfter
               d2 k (annotationFor data (freshId d2)) p Hp eq_refl).
    reflexivity.
Qed.

Lemma insertions_adjacent_pass doc i :
  In i (insertions (trace (pass doc))) -> nextAnnotated (dom (pass doc)) i = true.
Proof.
  revert i. unfold pass.
  apply (findAndProcessPrices_ind
           (fun s => forall i, In i (insertions (trace s)) ->
                               nextAnnotated (dom s) i = true)).
  - intros s H i. unfold emit. cbn [dom trace]. rewrite insertions_app. simpl.
    rewrite app_nil_r. apply H.
  - intros s k H. apply insertions_adjacent_step, H.
  - simpl. contradiction.
Qed.

Lemma withoutMarkers_head n :
  isElement (withoutMarkers n) = isElement n
  /\ (forall i, hasId i (withoutMarkers n) = hasId i n)
  /\ (forall c, classList_contains (withoutMarkers n) c = classList_contains n c).
Proof. destruct n; repeat split. Qed.

Lemma annotated_first_withoutMarkers l :
  annotated (find isElement (map withoutMarkers l)) = annotated (find isElement l).
Proof.
  induction l as [|x l IH]; [reflexivity|].
  cbn [map find]. destruct (withoutMarkers_head x) as (H1 & _ & H3). rewrite H1.
  destruct (isElement x); [apply H3 | exact IH].
Qed.

Lemma siblingAfter_withoutMarkers i n :
  option_map annotated (siblingAfter i (withoutMarkers n))
  = option_map annotated (siblingAfter i n).
Proof.
  induction n as [d|d|k t c a cs IH] using node_ind'; try reflexivity.
  cbn [withoutMarkers siblingAfter].
  induction IH as [|x l Hx _ IHl]; [reflexivity|].
  cbn [map findWithRest].
  destruct (withoutMarkers_head x) as (_ & H2 & _). rewrite H2.
  destruct (hasId i x).
  - simpl. f_equal. apply annotated_first_withoutMarkers.
  - destruct (siblingAfter i (withoutMarkers x)) as [r'|],
             (siblingAfter i x) as [r|]; simpl in Hx; try discriminate;
      [exact Hx | exact IHl].
Qed.

Lemma nextAnnotated_withoutMarkers doc i :
  nextAnnotated (withoutMarkers doc) i = nextAnnotated doc i.
Proof.
  unfold nextAnnotated. rewrite !nextElementSibling_siblingAfter.
  pose proof (siblingAfter_withoutMarkers i doc) as H.
  destruct (siblingAfter i (withoutMarkers doc)) as [r'|],
           (siblingAfter i doc) as [r|]; simpl in H; try discriminate;
    [injection H as H; exact H | reflexivity].
Qed.

(** X10.  A pass inserts nothing after an element whose next element
    sibling is an annotation, with or without a marker on it, and the
    annotation is still its next element sibling when the pass ends. *)
Theorem annotated_sibling_guard (doc : document) (i : nat) :
  nextAnnotated doc i = true ->
  ~ In i (insertions (trace (pass doc)))
  /\ nextAnnotated (dom (pass doc)) i = true.
Proof.
  intros H. destruct (sibling_guard_pass doc i H) as [H1 H2]. split; assumption.
Qed.

(** X11.  Every price element a pass annotates has an annotation as its
    next element sibling when the pass ends; so a pass on the resulting
    tree inserts no second annotation after it, even with every marker
    removed from the tree. *)
Theorem annotations_adjacent (doc : document) (i : nat) :
  In i (insertions (trace (pass doc))) ->
  nextAnnotated (dom (pass doc)) i = true
  /\ ~ In i (insertions (trace (pass (withoutMarkers (dom (pass doc)))))).
Proof.
  intros H. pose proof (insertions_adjacent_pass doc i H) as Ha.
  split; [exact Ha|].
  apply sibling_guard_pass. rewrite nextAnnotated_withoutMarkers. exact Ha.
Qed.

(** ** The frame of a pass *)

Lemma filter_setAttr name value a :
  filter (fun p => negb (String.eqb name (fst p))) (setAttr name value a)
  = filter (fun p => negb (String.eqb name (fst p))) a.
Proof.
  unfold setAttr. destruct (existsb _ a).
  - induction a as [|[n v] a IH]; [reflexivity|].
    cbn [map filter fst]. destruct (String.eqb name n) eqn:E.
    + cbn [fst]. rewrite E. exact IH.
    + cbn [fst]. rewrite E. cbn [negb]. f_equal. exact IH.
  - rewrite filter_app. simpl. rewrite String.eqb_refl. simpl. apply app_nil_r.
Qed.

Lemma withoutMarkers_setAttributeIn i value n : forall n',
  setAttributeIn i PROCESSED_ATTR value n = Some n' ->
  withoutMarkers n' = withoutMarkers n.
Proof.
  induction n as [d|d|k t c a cs IH] using node_ind'; intros n' E; try discriminate.
  cbn [setAttributeIn] in E. destruct (Nat.eqb i k).
  - injection E as <-. cbn [withoutMarkers]. rewrite filter_setAttr. reflexivity.
  - destruct (rewriteFirst _ cs) as [cs'|] eqn:Ecs; [|discriminate].
    injection E as <-. cbn [withoutMarkers]. f_equal.
    revert cs' Ecs. induction IH as [|x l Hx _ IHl]; intros cs' Ecs; [discriminate|].
    cbn [rewriteFirst] in Ecs.
    destruct (setAttributeIn i PROCESSED_ATTR value x) as [x'|] eqn:Ex.
    + injection Ecs as <-. cbn [map app]. rewrite (Hx x' eq_refl). reflexivity.
    + cbn [single option_map] in Ecs.
      destruct (rewriteFirst _ l) as [l'|] eqn:El; [|discriminate].
      injection Ecs as <-. cbn [map]. f_equal. apply IHl. reflexivity.
Qed.

Lemma withoutMarkers_setAttribute doc i value :
  withoutMarkers (setAttribute doc i PROCESSED_ATTR value) = withoutMarkers doc.
Proof.
  unfold setAttribute.
  destruct (setAttributeIn i PROCESSED_ATTR value doc) as [doc'|] eqn:E; [|reflexivity].
  eapply withoutMarkers_setAttributeIn. exact E.
Qed.

Lemma withoutElements_withoutMarkers S n :
  withoutMarkers (withoutElements S n) = withoutElements S (withoutMarkers n).
Proof.
  induction n as [d|d|k t c a cs IH] using node_ind'; try reflexivity.
  cbn [withoutMarkers withoutElements]. f_equal.
  induction IH as [|x l Hx _ IHl]; [reflexivity|].
  cbn [flat_map map]. rewrite map_app, IHl. f_equal.
  assert (E : isOneOf S (withoutMarkers x) = isOneOf S x) by (destruct x; reflexivity).
  rewrite E. destruct (isOneOf S x); [reflexivity|].
  cbn [map]. rewrite Hx. reflexivity.
Qed.

Lemma withoutElements_nil n : withoutElements [] n = n.
Proof.
  induction n as [d|d|k t c a cs IH] using node_ind'; try reflexivity.
  cbn [withoutElements]. f_equal.
  induction IH as [|x l Hx _ IHl]; [reflexivity|].
  cbn [flat_map]. rewrite IHl.
  assert (E : isOneOf [] x = false) by (destruct x; reflexivity).
  rewrite E, Hx. reflexivity.
Qed.

Lemma isOneOf_fresh S f x :
  ~ In f (map idOf (inclusiveDescendants x)) ->
  isOneOf (S ++ [f]) x = isOneOf S x.
Proof.
  destruct x as [d|d|k t c a cs]; try reflexivity.
  intros H. unfold isOneOf. cbn [node_id]. rewrite existsb_app. simpl.
  replace (Nat.eqb k f) with false; [now rewrite !orb_false_r|].
  symmetry. apply Nat.eqb_neq. intros ->. apply H. left. reflexivity.
Qed.

Lemma withoutElements_fresh S f n :
  ~ In f (map idOf (inclusiveDescendants n)) ->
  withoutElements (S ++ [f]) n = withoutElements S n.
Proof.
  induction n as [d|d|k t c a cs IH] using node_ind'; try reflexivity.
  intros H. cbn [withoutElements]. f_equal.
  assert (Hcs : ~ In f (map idOf (flat_map inclusiveDescendants cs))).
  { intros Hin. apply H. right. exact Hin. }
  clear H. induction IH as [|x l Hx _ IHl]; [reflexivity|].
  cbn [flat_map] in *. rewrite map_app, in_app_iff in Hcs.
  rewrite IHl by tauto. rewrite isOneOf_fresh by tauto.
  rewrite Hx by tauto. reflexivity.
Qed.

Lemma withoutElements_insertAfterIn S f i text n : forall n',
  ~ In f (map idOf (inclusiveDescendants n)) ->
  insertAfterIn i (unitPriceSpan f text) n = Some n' ->
  withoutElements (S ++ [f]) n' = withoutElements S n.
Proof.
  induction n as [d|d|k t c a cs IH] using node_ind'; intros n' H E; try discriminate.
  cbn [insertAfterIn] in E.
  destruct (rewriteFirst _ cs) as [cs'|] eqn:Ecs; [|discriminate].
  injection E as <-. cbn [withoutElements]. f_equal.
  assert (Hcs : ~ In f (map idOf (flat_map inclusiveDescendants cs))).
  { intros Hin. apply H. right. exact Hin. }
  clear H. revert cs' Ecs.
  induction IH as [|x l Hx _ IHl]; intros cs' Ecs; [discriminate|].
  cbn [flat_map] in Hcs. rewrite map_app, in_app_iff in Hcs.
  assert (Hl : flat_map (fun x => if isOneOf (S ++ [f]) x then []
                                  else [withoutElements (S ++ [f]) x]) l
               = flat_map (fun x => if isOneOf S x then []
                                    else [withoutElements S x]) l).
  { assert (Hl' : ~ In f (map idOf (flat_map inclusiveDescendants l))) by tauto.
    clear - Hl'. induction l as [|y l IH]; [reflexivity|].
    cbn [flat_map] in *. rewrite map_app, in_app_iff in Hl'.
    rewrite IH by tauto. rewrite isOneOf_fresh by tauto.
    rewrite withoutElements_fresh by tauto. reflexivity. }
  cbn [rewriteFirst] in Ecs. destruct (hasId i x) eqn:Hi.
  - injection Ecs as <-. change ([x; unitPriceSpan f text] ++ l)
      with (x :: unitPriceSpan f text :: l).
    cbn [flat_map]. rewrite Hl.
    rewrite isOneOf_fresh by tauto. rewrite withoutElements_fresh by tauto.
    assert (Ef : isOneOf (S ++ [f]) (unitPriceSpan f text) = true).
    { unfold isOneOf, unitPriceSpan. cbn [node_id]. rewrite existsb_app. simpl.
      rewrite Nat.eqb_refl. now rewrite orb_true_r. }
    rewrite Ef. reflexivity.
  - destruct (insertAfterIn i (unitPriceSpan f text) x) as [x'|] eqn:Ex.
    + injection Ecs as <-. change ([x'] ++ l) with (x' :: l).
      cbn [flat_map]. rewrite Hl.
      assert (E1 : isOneOf (S ++ [f]) x' = isOneOf S x).
      { destruct (sameHead_insertAfterIn _ _ _ _ Ex) as (_ & Hid & _).
        rewrite <- (isOneOf_fresh S f x) by tauto.
        unfold isOneOf. rewrite Hid. reflexivity. }
      rewrite E1. rewrite (Hx x') by tauto. reflexivity.
    + cbn [single option_map] in Ecs.
      destruct (rewriteFirst _ l) as [l'|] eqn:El; [|discriminate].
      injection Ecs as <-. cbn [flat_map].
      rewrite isOneOf_fresh by tauto. rewrite withoutElements_fresh by tauto.
      f_equal. apply IHl; [tauto | reflexivity].
Qed.

Lemma withoutElements_insertAfter S doc i text :
  withoutElements (S ++ [freshId doc])
    (insertAfter doc i (unitPriceSpan (freshId doc) text))
  = withoutElements S doc.
Proof.
  unfold insertAfter.
  destruct (insertAfterIn i _ doc) as [doc'|] eqn:E.
  - eapply withoutElements_insertAfterIn; [|exact E]. apply freshId_fresh.
  - apply withoutElements_fresh. apply freshId_fresh.
Qed.

Lemma added_app a b : added (a ++ b) = added a ++ added b.
Proof. apply flat_map_app. Qed.

(** X12.  A pass changes the tree by markers and by inserted elements
    only: without the markers and without the elements it inserted, the
    tree after the pass is the tree before the pass without its markers.
    The inserted elements have identities the tree did not have, one for
    each insertion, and no element of the tree is removed. *)
Theorem pass_frame (doc : document) :
  let st := pass doc in
  withoutMarkers (withoutElements (added (trace st)) (dom st)) = withoutMarkers doc
  /\ Forall (fun f => ~ In f (ids doc)) (added (trace st))
  /\ List.length (added (trace st)) = List.length (insertions (trace st))
  /\ (forall j, In j (ids doc) -> In j (ids (dom st))).
Proof.
  cbv zeta. unfold pass.
  apply (findAndProcessPrices_ind
           (fun s =>
              withoutMarkers (withoutElements (added (trace s)) (dom s))
              = withoutMarkers doc
              /\ Forall (fun f => ~ In f (ids doc)) (added (trace s))
              /\ List.length (added (trace s)) = List.length (insertions (trace s))
              /\ (forall j, In j (ids doc) -> In j (ids (dom s))))).
  - intros s (H1 & H2 & H3 & H4). unfold emit. cbn [dom trace].
    rewrite added_app, insertions_app. simpl. rewrite !app_nil_r. auto.
  - intros s i (H1 & H2 & H3 & H4).
    destruct (processPrice_effect s i)
      as [-> | (data & d2 & Hel & Ed & Hcase)]; [auto|].
    assert (W2 : forall S, withoutMarkers (withoutElements S d2)
                           = withoutMarkers (withoutElements S (dom s))).
    { intros S. rewrite !withoutElements_withoutMarkers, Ed.
      rewrite !withoutMarkers_setAttribute. reflexivity. }
    assert (I2 : ids d2 = ids (dom s)).
    { rewrite Ed, !ids_setAttribute. reflexivity. }
    destruct Hcase as [(_ & -> & ->) | [(_ & _ & -> & ->) | (_ & _ & -> & ->)]];
      rewrite added_app, insertions_app; simpl; rewrite ?app_nil_r.
    + rewrite W2, I2. auto.
    + rewrite W2, I2. auto.
    + change (idOf (annotationFor data (freshId d2))) with (freshId d2).
      unfold annotationFor.
      rewrite withoutElements_insertAfter, W2.
      split; [exact H1|]. split; [|split].
      * apply Forall_app. split; [exact H2|]. constructor; [|constructor].
        intros Hin. apply (freshId_fresh d2). rewrite I2. apply H4, Hin.
      * rewrite !length_app, H3. reflexivity.
      * intros j Hj. apply ids_insertAfter. rewrite I2. apply H4, Hj.
  - simpl. rewrite withoutElements_nil. auto.
Qed.

(** ** Where the markers are after a pass *)

Lemma isProcessed_setAttribute_inv doc i value j :
  isProcessed (setAttribute doc i PROCESSED_ATTR value) j = true ->
  j = i \/ isProcessed doc j = true.
Proof.
  rewrite !isProcessed_lookupMark. unfold setAttribute.
  pose proof (marks_setAttributeIn i value doc) as H.
  destruct (setAttributeIn i PROCESSED_ATTR value doc) as [doc'|]; [|auto].
  destruct H as [-> _]. rewrite lookupMark_markFirst.
  destruct (Nat.eqb i j) eqn:E.
  - apply Nat.eqb_eq in E. auto.
  - simpl. auto.
Qed.

Lemma lookupMark_fresh f l1 l2 :
  ~ In f (map fst l1) -> lookupMark f (l1 ++ (f, false) :: l2) = false.
Proof.
  unfold lookupMark. induction l1 as [|[k b] l1 IH]; intros H; simpl.
  - rewrite Nat.eqb_refl. reflexivity.
  - simpl in H. destruct (Nat.eqb f k) eqn:E.
    + apply Nat.eqb_eq in E. subst k. exfalso. apply H. now left.
    + apply IH. tauto.
Qed.

Lemma isProcessed_insertAfter_span_inv doc i text j :
  isProcessed (insertAfter doc i (unitPriceSpan (freshId doc) text)) j = true ->
  isProcessed doc j = true.
Proof.
  rewrite !isProcessed_lookupMark. unfold insertAfter.
  destruct (insertAfterIn i _ doc) as [doc'|] eqn:E; [|auto].
  destruct (marks_insertAfterIn _ _ _ _ E) as (l1 & l2 & E1 & E2).
  rewrite E2, E1, marks_unitPriceSpan.
  destruct (Nat.eq_dec j (freshId doc)) as [-> | Hj].
  - simpl. rewrite lookupMark_fresh; [discriminate|].
    intros Hin. apply (freshId_fresh doc). rewrite ids_marks, E1, map_app.
    apply in_app_iff. now left.
  - rewrite lookupMark_insert; [auto|]. simpl. intros [H | []]. congruence.
Qed.

Lemma markers_pass doc :
  (forall j, isProcessed (dom (pass doc)) j = true ->
             isProcessed doc j = true
             \/ exists d, In d (calls (trace (pass doc)))
                          /\ (j = container d \/ j = elPrice d))
  /\ (forall d, In d (calls (trace (pass doc))) ->
                isProcessed (dom (pass doc)) (container d) = true
                /\ isProcessed (dom (pass doc)) (elPrice d) = true).
Proof.
  unfold pass.
  apply (findAndProcessPrices_ind
           (fun s =>
              (forall j, isProcessed (dom s) j = true ->
                         isProcessed doc j = true
                         \/ exists d, In d (calls (trace s))
                                      /\ (j = container d \/ j = elPrice d))
              /\ (forall d, In d (calls (trace s)) ->
                            isProcessed (dom s) (container d) = true
                            /\ isProcessed (dom s) (elPrice d) = true))).
  - intros s [H1 H2]. unfold emit. cbn [dom trace]. rewrite calls_app. simpl.
    rewrite app_nil_r. auto.
  - intros s i [H1 H2].
    destruct (processPrice_outcome s i)
      as [-> | data tail Hpi Hpc Hin Hel Hv Htr Htail Hmono Hids Hmi Hmc]; [auto|].
    assert (Ec : calls (trace (processPrice s i)) = calls (trace s) ++ [data]).
    { rewrite Htr, calls_app. simpl.
      destruct Htail as [-> | [-> | [f ->]]]; reflexivity. }
    assert (Hinv : forall j, isProcessed (dom (processPrice s i)) j = true ->
                             j = container data \/ j = i
                             \/ isProcessed (dom s) j = true).
    { intros j Hj.
      destruct (processPrice_effect s i)
        as [E | (data' & d2 & Hel' & Ed & Hcase)].
      - rewrite E in Hj. auto.
      - assert (Edata : data' = data).
        { destruct Hcase as [(_ & _ & E) | [(_ & _ & _ & E) | (_ & _ & _ & E)]];
            rewrite E in Htr; apply app_inv_head in Htr; congruence. }
        subst data'.
        assert (H2' : isProcessed d2 j = true ->
                      j = container data \/ j = i \/ isProcessed (dom s) j = true).
        { rewrite Ed. intros H. apply isProcessed_setAttribute_inv in H.
          destruct H as [-> | H]; [auto|].
          apply isProcessed_setAttribute_inv in H. tauto. }
        destruct Hcase as [(_ & E & _) | [(_ & _ & E & _) | (_ & _ & E & _)]];
          rewrite E in Hj; [auto | auto |].
        apply H2'. unfold annotationFor in Hj.
        eapply isProcessed_insertAfter_span_inv. exact Hj. }
    split.
    + intros j Hj. rewrite Ec.
      destruct (Hinv j Hj) as [-> | [-> | Hold]].
      * right. exists data. split; [apply in_app_iff; right; now left | now left].
      * right. exists data. split; [apply in_app_iff; right; now left | right; auto].
      * destruct (H1 j Hold) as [H | (d & Hd & Hj')]; [now left|].
        right. exists d. split; [apply in_app_iff; now left | exact Hj'].
    + intros d Hd. rewrite Ec in Hd. apply in_app_iff in Hd.
      destruct Hd as [Hd | [<- | []]].
      * destruct (H2 d Hd) as [Ha Hb]. split; apply Hmono; assumption.
      * rewrite Hel. split; assumption.
  - simpl. split; [auto | contradiction].
Qed.

(** X13.  After a pass an element bears the marker exactly when it bore
    it before the pass, or it is the container or the price element of a
    block the pass handed to [processProductBlock]. *)
Theorem markers_after_pass (doc : document) (j : nat) :
  isProcessed (dom (pass doc)) j = true
  <-> isProcessed doc j = true
      \/ exists d, In (Call d) (trace (pass doc))
                   /\ (j = container d \/ j = elPrice d).
Proof.
  destruct (markers_pass doc) as [H1 H2]. split.
  - intros H. destruct (H1 j H) as [Ho | (d & Hd & Hj)]; [now left|].
    right. exists d. split; [apply calls_In; exact Hd | exact Hj].
  - intros [H | (d & Hd & Hj)].
    + apply pass_respects_markers. exact H.
    + apply calls_In in Hd. destruct (H2 d Hd) as [Ha Hb].
      destruct Hj as [-> | ->]; assumption.
Qed.

(** ** A page without a price or without a weight *)

Lemma no_match_below re doc e :
  matches re (textContent doc) = false ->
  In e (allElements doc) -> matches re (textContent e) = false.
Proof.
  intros H Hin. destruct (matches re (textContent e)) eqn:E; [|reflexivity].
  rewrite (matches_descendant re doc e Hin E) in H. discriminate.
Qed.

Lemma filter_none {A : Type} (f : A -> bool) l :
  (forall x, In x l -> f x = false) -> filter f l = [].
Proof.
  induction l as [|x l IH]; intros H; [reflexivity|].
  simpl. rewrite (H x (or_introl eq_refl)). apply IH. intros y Hy. apply H. now right.
Qed.

Lemma weightMatches_none doc c :
  matches WEIGHT_REGEX (textContent doc) = false ->
  In c (allElements doc) -> weightMatches c = [].
Proof.
  intros H Hc. unfold weightMatches. apply filter_none. intros e He.
  destruct (matches WEIGHT_REGEX (textContent e)) eqn:E; [|reflexivity].
  assert (Hin : In e (inclusiveDescendants c)).
  { unfold querySelectorAll in He. destruct c as [d|d|k t cl a cs]; try contradiction.
    right. exact He. }
  pose proof (matches_descendant WEIGHT_REGEX c e Hin E) as Hm.
  rewrite (no_match_below _ _ _ H Hc) in Hm. discriminate.
Qed.

Lemma walk_no_weight doc price fuel : forall cur,
  matches WEIGHT_REGEX (textContent doc) = false ->
  (forall c, cur = Some c -> In c (allElements doc)) ->
  forall data, walk doc price fuel cur <> Found data.
Proof.
  induction fuel as [|fuel IH]; intros cur H Hcur data; [discriminate|].
  destruct cur as [cont|]; [|discriminate]. cbn [walk].
  destruct (hasAttribute cont PROCESSED_ATTR); [discriminate|].
  unfold resolveAt. rewrite (weightMatches_none doc cont H (Hcur cont eq_refl)).
  apply IH; [exact H|]. intros c Hc.
  apply parentIn_descendant in Hc. exact Hc.
Qed.

Lemma processPrice_no_weight st i :
  matches WEIGHT_REGEX (textContent (dom st)) = false -> processPrice st i = st.
Proof.
  intros H. unfold processPrice.
  destruct (deref (dom st) i) as [price|] eqn:Ed; [|reflexivity].
  destruct (hasAttribute price PROCESSED_ATTR); [reflexivity|].
  destruct (walk (dom st) price 8 (Some price)) as [data| |] eqn:Ew; try reflexivity.
  exfalso. revert Ew. apply walk_no_weight; [exact H|].
  intros c [= <-]. apply (deref_Some _ _ _ Ed).
Qed.

(** X14.  On a page whose text has no match of the price pattern, or no
    match of the weight pattern, a pass logs its count of candidates and
    changes nothing: no marker, no insertion. *)
Theorem pass_without_match (doc : document) :
  matches PRICE_REGEX (textContent doc) = false
  \/ matches WEIGHT_REGEX (textContent doc) = false ->
  pass doc = {| dom := doc; trace := [ConsoleLog] |}.
Proof.
  intros [H | H]; unfold pass, findAndProcessPrices; cbn [dom].
  - assert (E : potentialPriceElements doc = []).
    { unfold potentialPriceElements. apply filter_none. intros e He.
      unfold isPotentialPriceElement. rewrite (no_match_below _ _ _ H He).
      destruct (existsb _ ignoredTags); [reflexivity|].
      destruct (classList_contains e APPENDED_CLASS); [reflexivity|].
      destruct (_ || _); reflexivity. }
    rewrite E. reflexivity.
  - generalize (map idOf (potentialPriceElements doc)). intros l.
    unfold emit. cbn [dom trace app].
    induction l as [|i l IH]; [reflexivity|].
    cbn [fold_left]. rewrite processPrice_no_weight by exact H. exact IH.
Qed.

(** ** The engine does not trigger itself *)

(** X15.  What a pass inserts is an annotation for the observer: a batch
    with a record that adds an element inserted by a pass is filtered, and
    the callback leaves the coordinator as it is. *)
Theorem no_self_trigger (doc : document) (i : nat) (span : node)
        (mutations : list MutationRecord) (record : MutationRecord) (c : coordinator) :
  In (InsertAfter i span) (trace (pass doc)) ->
  In record mutations -> In span (addedNodes record) ->
  classList_contains span APPENDED_CLASS = true
  /\ hasSelfMutation mutations = true
  /\ observer mutations c = c.
Proof.
  intros Hi Hr Hs.
  pose proof (Inv_pass _ (Inv_empty doc)) as HI.
  destruct (inv_insertion_called _ HI i span Hi) as (d & f & _ & _ & ->).
  assert (Hh : hasSelfMutation mutations = true).
  { apply hasSelfMutation_spec. exists record, (unitPriceSpan f
      (calculateAndFormatUnit (priceKr d) (weightValue d) (weightUnit d))).
    split; [exact Hr|]. split; [exact Hs|]. split; [reflexivity | left; reflexivity]. }
  split; [reflexivity|]. split; [exact Hh|].
  unfold observer. rewrite Hh. reflexivity.
Qed.

(** ** The debounce *)

Lemma clearTimeout_settled c :
  settled c -> clearTimeout (processingTimeout c) (pendingTimers c) = [].
Proof.
  intros [_ [E | (h & E & Eh)]]; rewrite E.
  - destruct (processingTimeout c); reflexivity.
  - rewrite Eh. simpl. rewrite Nat.eqb_refl. reflexivity.
Qed.

Lemma startProcessing_settled c :
  settled c ->
  settled (startProcessing c)
  /\ pendingTimers (startProcessing c) = [nextTimer c]
  /\ processingTimeout (startProcessing c) = Some (nextTimer c).
Proof.
  intros H. pose proof (clearTimeout_settled c H) as E.
  unfold startProcessing, settled. cbn [isProcessing pendingTimers processingTimeout].
  rewrite E. destruct H as [Hp _]. repeat split; eauto.
Qed.

Lemma burst_settled c n :
  settled c ->
  let c' := Nat.iter (S n) startProcessing c in
  settled c' /\ pendingTimers c' = [(nextTimer c + n)%nat]
  /\ nextTimer c' = (nextTimer c + S n)%nat.
Proof.
  intros H. induction n as [|n IH]; cbv zeta.
  - cbn [Nat.iter nat_rect]. destruct (startProcessing_settled c H) as (H1 & H2 & _).
    split; [exact H1|]. split; [now rewrite H2, Nat.add_0_r|].
    simpl. lia.
  - cbv zeta in IH. destruct IH as (H1 & H2 & H3).
    change (Nat.iter (S (S n)) startProcessing c)
      with (startProcessing (Nat.iter (S n) startProcessing c)).
    destruct (startProcessing_settled _ H1) as (H4 & H5 & _).
    split; [exact H4|]. split.
    + rewrite H5, H3. reflexivity.
    + cbn [startProcessing nextTimer]. rewrite H3. lia.
Qed.

Lemma timerFires_settled h c st :
  settled c -> settled (fst (timerFires h c st)).
Proof.
  intros H. pose proof H as [Hp Hs]. unfold timerFires.
  destruct (existsb (Nat.eqb h) (pendingTimers c)) eqn:E; [|exact H].
  rewrite Hp. cbn [negb fst]. split; [reflexivity|].
  cbn [pendingTimers processingTimeout].
  destruct Hs as [E' | (h' & E' & Eh)]; rewrite E' in *; [discriminate|].
  simpl in E. rewrite orb_false_r in E. simpl. rewrite E. simpl. now left.
Qed.

Lemma settled_idle : settled idle.
Proof. split; [reflexivity | now left]. Qed.

Lemma runPage_settled inputs st : settled (fst (runPage inputs st)).
Proof.
  unfold runPage. generalize (initializeProcessor st). intros s.
  assert (H : settled (fst (idle, s))) by apply settled_idle.
  revert H. generalize (idle, s). induction inputs as [|e inputs IH]; intros cs H.
  - exact H.
  - simpl. apply IH. destruct e as [ms | h]; simpl.
    + unfold observer. destruct (negb (hasSelfMutation ms)); [|exact H].
      apply startProcessing_settled, H.
    + apply timerFires_settled, H.
Qed.

(** X16.  Debounce.  At any point of a run of the page -- the initial
    run, then notifications and timers in any order -- [isProcessing] is
    not set and at most one timer is pending.  After [n + 1] further calls
    of [startProcessing] the only pending timer is the last one set: any
    other handle fires without effect, and the last one runs one pass and
    leaves no timer pending. *)
Theorem debounce (inputs : list input) (st0 st : state) (n : nat) :
  let c := fst (runPage inputs st0) in
  let c' := Nat.iter (S n) startProcessing c in
  let last := (nextTimer c + n)%nat in
  isProcessing c = false
  /\ (List.length (pendingTimers c) <= 1)%nat
  /\ pendingTimers c' = [last]
  /\ (forall h, h <> last -> timerFires h c' st = (c', st))
  /\ snd (timerFires last c' st) = findAndProcessPrices st
  /\ pendingTimers (fst (timerFires last c' st)) = [].
Proof.
  cbv zeta. pose proof (runPage_settled inputs st0) as H.
  destruct (burst_settled _ n H) as ([Hp _] & Hl & _). cbv zeta in Hp, Hl.
  set (c := fst (runPage inputs st0)) in *.
  set (c' := Nat.iter (S n) startProcessing c) in *.
  split; [apply H|]. split.
  { destruct H as [_ [E | (h & E & _)]]; rewrite E; simpl; lia. }
  split; [exact Hl|]. split.
  { intros h Hh. unfold timerFires. rewrite Hl. cbn [existsb].
    replace (Nat.eqb h (nextTimer c + n)) with false; [reflexivity|].
    symmetry. apply Nat.eqb_neq. exact Hh. }
  unfold timerFires. rewrite Hl. cbn [existsb]. rewrite Nat.eqb_refl.
  cbn [orb]. rewrite Hp. cbn [negb fst snd pendingTimers clearTimeout filter].
  rewrite Nat.eqb_refl. split; reflexivity.
Qed.

(** ** The further properties at concrete inputs *)

Lemma literal_examples :
  cleanNumber (js "15,5") = S754_finite false 8725724278030336 (-49)
  /\ cleanNumber (js "15.5") = S754_finite false 8725724278030336 (-49)
  /\ (8725724278030336 * 2 = 31 * 2 ^ 49)%Z
  /\ cleanNumber (js "500") = S754_finite false 8796093022208000 (-44)
  /\ decimalValue (js "500") = 500%Z.
Proof. repeat split; vm_compute; reflexivity. Qed.

(** [cleanNumber_literal] at ["15,5"], which is read as ["15.5"] and is
    31 halves, and at ["500"], which is the integer 500. *)
Lemma cleanNumber_literal_witness :
  NumericLiteralText (js "15,5")
  /\ isNaN (cleanNumber (js "15,5")) = false
  /\ gt zero (cleanNumber (js "15,5")) = false
  /\ cleanNumber (js "15,5") = cleanNumber (js "15.5")
  /\ cleanNumber (js "15,5") = S754_finite false 8725724278030336 (-49)
  /\ (8725724278030336 * 2 = 31 * 2 ^ 49)%Z
  /\ cleanNumber (js "500") = S754_finite false 8796093022208000 (-44)
  /\ isInteger (cleanNumber (js "500")) 500.
Proof.
  assert (Hd : forall s : jsstring,
             s = js "15" \/ s = js "5" \/ s = js "500" -> isDigits s).
  { intros s [-> | [-> | ->]]; (split; [discriminate | repeat constructor]). }
  assert (H : NumericLiteralText (js "15,5")).
  { right. exists (js "15"), 44, (js "5").
    split; [reflexivity|]. split; [apply Hd; now left|].
    split; [reflexivity | apply Hd; right; now left]. }
  destruct literal_examples as (E1 & E2 & E3 & E4 & E5).
  destruct (cleanNumber_literal (js "15,5") H) as (H1 & H2 & H3 & _).
  split; [exact H|]. split; [exact H1|]. split; [exact H2|].
  split; [apply (H3 (js "15") (js "5"));
            [reflexivity | apply Hd; now left | apply Hd; right; now left]|].
  split; [exact E1|]. split; [exact E3|]. split; [exact E4|].
  assert (H500 : NumericLiteralText (js "500")) by (left; apply Hd; auto).
  destruct (cleanNumber_literal (js "500") H500) as (_ & _ & _ & H4).
  rewrite <- E5. apply H4; [apply Hd; auto | rewrite E5; reflexivity].
Defined.

(** [rate_of_validated_pair] at 99 for 500 g. *)
Lemma rate_of_validated_pair_witness :
  gt (of_Z 99) zero = true /\ gt (of_Z 500) zero = true
  /\ isNaN (pricePerBaseUnit (of_Z 99) (of_Z 500) (js "g")) = false
  /\ gt zero (pricePerBaseUnit (of_Z 99) (of_Z 500) (js "g")) = false
  /\ FixedShape (toFixed (pricePerBaseUnit (of_Z 99) (of_Z 500) (js "g")) 2).
Proof.
  assert (Hp : gt (of_Z 99) zero = true) by (vm_compute; reflexivity).
  assert (Hw : gt (of_Z 500) zero = true) by (vm_compute; reflexivity).
  destruct (rate_of_validated_pair (of_Z 99) (of_Z 500) (js "g") Hp Hw)
    as (H1 & H2 & H3).
  split; [exact Hp|]. split; [exact Hw|].
  split; [vm_compute; reflexivity|]. split; [exact H2 | exact H3].
Defined.

(** [displayed_rate_rounded] at 99 for 500 g: the rate is 198. *)
Lemma displayed_rate_rounded_witness :
  pricePerBaseUnit (of_Z 99) (of_Z 500) (js "g")
  = S754_finite false 6966505673588736 (-45)
  /\ atLeast1e21 6966505673588736 (-45) = false
  /\ calculateAndFormatUnit (of_Z 99) (of_Z 500) (js "g") = js "~198.00 / kg"
  /\ exists ip fp,
       calculateAndFormatUnit (of_Z 99) (of_Z 500) (js "g")
       = js "~" ++ ip ++ 46 :: fp ++ js " / " ++ displayUnit (js "g")
       /\ ip <> [] /\ List.length fp = 2%nat.
Proof.
  assert (Hr : pricePerBaseUnit (of_Z 99) (of_Z 500) (js "g")
               = S754_finite false 6966505673588736 (-45))
    by (vm_compute; reflexivity).
  assert (Hs : atLeast1e21 6966505673588736 (-45) = false)
    by (vm_compute; reflexivity).
  split; [exact Hr|]. split; [exact Hs|]. split; [vm_compute; reflexivity|].
  destruct (displayed_rate_rounded (of_Z 99) (of_Z 500) (js "g")
              6966505673588736 (-45) Hr Hs)
    as (ip & fp & E & Hip & Hfp & _).
  exists ip, fp. split; [exact E|]. split; [exact Hip | exact Hfp].
Defined.

(** [block_provenance] at the one block of [sharedExample]: it is found in
    the first turn, in the tree as it was. *)
Lemma block_provenance_witness :
  In (Call sharedBlock) (trace (pass sharedExample))
  /\ cleanNumber (js "99") = of_Z 99 /\ cleanNumber (js "500") = of_Z 500
  /\ exists k price cont w rest gp up gw,
       nth_error (map idOf (potentialPriceElements sharedExample)) k
       = Some 4%nat
       /\ deref (dom (atTurn sharedExample k)) 4 = Some price
       /\ hasAttribute price PROCESSED_ATTR = false
       /\ walk (dom (atTurn sharedExample k)) price 8 (Some price)
          = Found sharedBlock
       /\ In cont (ancestorChain (dom (atTurn sharedExample k)) 8 (Some price))
       /\ In cont (allElements (dom (atTurn sharedExample k)))
       /\ idOf cont = 3%nat
       /\ weightMatches cont = w :: rest
       /\ In w (querySelectorAll cont)
       /\ match_ PRICE_REGEX (textContent price) = Some (gp, up)
       /\ match_ WEIGHT_REGEX (textContent w) = Some (gw, js "g")
       /\ NumericLiteralText gp /\ NumericLiteralText gw
       /\ of_Z 99 = cleanNumber gp /\ of_Z 500 = cleanNumber gw
       /\ In (js "g") weightUnitTexts
       /\ In (js "g") weightTokens.
Proof.
  assert (H : In (Call sharedBlock) (trace (pass sharedExample))).
  { vm_compute. right. right. left. reflexivity. }
  split; [exact H|].
  split; [vm_compute; reflexivity|]. split; [vm_compute; reflexivity|].
  exact (block_provenance sharedExample sharedBlock H).
Defined.

(** [annotation_placed] at the first price of [sharedExample]. *)
Lemma annotation_placed_witness :
  let st := {| dom := sharedExample; trace := [] |} in
  let price := el 4 "SPAN" [Text (js "99 kr")] in
  wellFormed sharedExample
  /\ deref sharedExample 4 = Some price
  /\ walk sharedExample price 8 (Some price) = Found sharedBlock
  /\ tooHigh sharedExample 4 = false
  /\ nextAnnotated sharedExample 4 = false
  /\ trace (processPrice st 4)
     = [SetProcessed 3; Call sharedBlock; SetProcessed 4;
        InsertAfter 4 (annotationFor sharedBlock 7); ConsoleLog]
  /\ nextElementSibling (dom (processPrice st 4)) 4
     = Some (annotationFor sharedBlock 7)
  /\ textContent (annotationFor sharedBlock 7) = js "- ~198.00 / kg".
Proof.
  cbv zeta.
  assert (Hd : deref sharedExample 4 = Some (el 4 "SPAN" [Text (js "99 kr")]))
    by reflexivity.
  assert (Hw : walk sharedExample (el 4 "SPAN" [Text (js "99 kr")]) 8
                 (Some (el 4 "SPAN" [Text (js "99 kr")])) = Found sharedBlock)
    by (vm_compute; reflexivity).
  assert (Ht : tooHigh sharedExample 4 = false) by reflexivity.
  assert (Hn : nextAnnotated sharedExample 4 = false) by reflexivity.
  destruct (annotation_placed {| dom := sharedExample; trace := [] |} 4
              (el 4 "SPAN" [Text (js "99 kr")]) sharedBlock
              sharedExample_wellFormed Hd eq_refl Hw Ht Hn)
    as (H1 & H2 & H3 & _).
  split; [exact sharedExample_wellFormed|]. split; [exact Hd|]. split; [exact Hw|].
  split; [exact Ht|]. split; [exact Hn|].
  split; [exact H1|]. split; [exact H2|].
  vm_compute. reflexivity.
Defined.

(** [annotated_sibling_guard] at the price of [strippedExample]: it has
    no marker, the walk finds its block, and nothing is inserted. *)
Lemma annotated_sibling_guard_witness :
  nextAnnotated strippedExample 4 = true
  /\ isProcessed strippedExample 4 = false
  /\ insertions (trace (pass strippedExample)) = []
  /\ nextAnnotated (dom (pass strippedExample)) 4 = true.
Proof.
  assert (H : nextAnnotated strippedExample 4 = true) by reflexivity.
  destruct (annotated_sibling_guard strippedExample 4 H) as [_ H2].
  split; [exact H|]. split; [reflexivity|].
  split; [vm_compute; reflexivity | exact H2].
Defined.

(** [annotations_adjacent] at the first price of [sharedExample]. *)
Lemma annotations_adjacent_witness :
  In 4%nat (insertions (trace (pass sharedExample)))
  /\ nextAnnotated (dom (pass sharedExample)) 4 = true
  /\ insertions (trace (pass (withoutMarkers (dom (pass sharedExample))))) = [].
Proof.
  assert (H : In 4%nat (insertions (trace (pass sharedExample)))).
  { vm_compute. left. reflexivity. }
  destruct (annotations_adjacent sharedExample 4 H) as [H1 _].
  split; [exact H|]. split; [exact H1|]. vm_compute. reflexivity.
Defined.

(** [pass_without_match] on [priceOnlyExample]: a price, no weight. *)
Lemma pass_without_match_witness :
  matches PRICE_REGEX (textContent priceOnlyExample) = true
  /\ matches WEIGHT_REGEX (textContent priceOnlyExample) = false
  /\ pass priceOnlyExample = {| dom := priceOnlyExample; trace := [ConsoleLog] |}.
Proof.
  assert (H : matches WEIGHT_REGEX (textContent priceOnlyExample) = false)
    by (vm_compute; reflexivity).
  split; [vm_compute; reflexivity|]. split; [exact H|].
  apply pass_without_match. right. exact H.
Defined.

(** [no_self_trigger] at the insertion of the pass on [sharedExample]. *)
Lemma no_self_trigger_witness :
  let span := unitPriceSpan 7 (js "~198.00 / kg") in
  let record := {| addedNodes := [span]; removedNodes := [] |} in
  In (InsertAfter 4 span) (trace (pass sharedExample))
  /\ hasSelfMutation [record] = true
  /\ observer [record] (startProcessing idle) = startProcessing idle.
Proof.
  cbv zeta.
  assert (H : In (InsertAfter 4 (unitPriceSpan 7 (js "~198.00 / kg")))
                 (trace (pass sharedExample))).
  { vm_compute. do 4 right. left. reflexivity. }
  destruct (no_self_trigger sharedExample 4 (unitPriceSpan 7 (js "~198.00 / kg"))
              [{| addedNodes := [unitPriceSpan 7 (js "~198.00 / kg")];
                  removedNodes := [] |}]
              {| addedNodes := [unitPriceSpan 7 (js "~198.00 / kg")];
                 removedNodes := [] |}
              (startProcessing idle) H (or_introl eq_refl) (or_introl eq_refl))
    as (_ & H2 & H3).
  split; [exact H|]. split; [exact H2 | exact H3].
Defined.
